(** * Plex event-stream client: a shallow embedding of [PlexEventSource]

    Source: [apps/server/src/services/mediaServer/plex/eventSource.ts].

    The class is a single-threaded, callback-driven state machine.  Its
    instance fields, the module-level [EventSourceClass] binding and the
    part of the JavaScript runtime it talks to (the timer table, the
    clock, the transports it constructs, the events it emits) are gathered
    in one record, [World].  Every method becomes a function on worlds; an
    operation that can throw inside a [try] block returns a [Completion];
    [connect], which is [async], returns an [Outcome].

    Numbers are JavaScript doubles in the source.  Counters are modelled
    by [nat]; the clock and the delays in the timer table by exact
    rationals ([Q]).  The arithmetic of the backoff delay is also
    modelled as the program performs it, in double precision
    ([Double.reconnectDelay]).  Subscribers of the emitter are taken to
    read the client only, neither throwing nor calling it back: [emit]
    records the event, and the worlds the subscribers see at that
    moment are listed by the [_views] functions. *)

From Stdlib Require Import List String Bool Arith ZArith QArith Qminmax Qpower.
From Stdlib Require Import Lia Lqa.
From Stdlib Require Import Qround Qabs.
Import ListNotations.
Open Scope string_scope.
Open Scope list_scope.

Set Implicit Arguments.

(** ** Data model *)

(** [SSEConnectionState] of [@tracearr/shared], as the string literals
    the class compares against. *)
Inductive SSEConnectionState : Type :=
| disconnected
| connecting
| connected
| reconnecting
| fallback.

Definition state_eqb (a b : SSEConnectionState) : bool :=
  match a, b with
  | disconnected, disconnected
  | connecting, connecting
  | connected, connected
  | reconnecting, reconnecting
  | fallback, fallback => true
  | _, _ => false
  end.

(** [SSE_CONFIG] lives in [@tracearr/shared]; the class only reads these
    five constants, so they are parameters of the development. *)
Record SSEConfig : Type := {
  INITIAL_RETRY_DELAY_MS : Q;
  MAX_RETRY_DELAY_MS : Q;
  RETRY_MULTIPLIER : Q;
  MAX_RETRIES : nat;
  HEARTBEAT_TIMEOUT_MS : Q
}.

#[local] Unset Elimination Schemes.

(** The value produced by [JSON.parse]. An object is the association list
    of its own properties (a key occurs once, as after parsing). *)
Inductive json : Type :=
| JNull
| JBool (b : bool)
| JNumber (q : Q)
| JString (s : string)
| JArray (items : list json)
| JObject (props : list (string * json)).

#[local] Set Elimination Schemes.

(** The events of [PlexEventSourceEvents]. A session event carries the
    notification it was made from; [connection:error] carries the
    message of the [Error]. *)
Inductive Event : Type :=
| session_playing (n : json)
| session_paused (n : json)
| session_stopped (n : json)
| session_progress (n : json)
| connection_state (s : SSEConnectionState)
| connection_error (message : string).

(** What reaches [handleError(error: unknown)]. *)
Inductive Thrown : Type :=
| ErrorInstance (message : string)
| ErrorObject (message : option string) (status : option string)
| ErrorOther.

(** The three [setTimeout] call sites of the class. *)
Inductive TimerKind : Type :=
| ReconnectTimer
| HeartbeatTimer
| ConnectionTimer.

Definition kind_eqb (a b : TimerKind) : bool :=
  match a, b with
  | ReconnectTimer, ReconnectTimer
  | HeartbeatTimer, HeartbeatTimer
  | ConnectionTimer, ConnectionTimer => true
  | _, _ => false
  end.

(** An entry of the runtime's timer table. *)
Record Timer : Type := {
  tid : nat;
  kind : TimerKind;
  armedAt : Q;
  delay : Q
}.

Definition due (t : Timer) : Q := armedAt t + delay t.

(** The four channels [connect] registers a listener on. *)
Inductive Channel : Type :=
| ch_message
| ch_playing
| ch_notification
| ch_ping.

(** The instance fields of [PlexEventSource] (first group, in source
    order; a listener field holds [true] when the reference is non-null),
    the module-level [EventSourceClass] (loaded or not), and the runtime:
    the clock, the pending timers, the next timer handle, the number of
    transports constructed so far, the handles [close()] was called on,
    the events emitted and every [setTimeout] call made, oldest first. *)
Record World : Type := {
  eventSource : option nat;
  state : SSEConnectionState;
  reconnectAttempts : nat;
  reconnectTimer : option nat;
  heartbeatTimer : option nat;
  connectionTimer : option nat;
  lastEventTime : option Q;
  connectedAt : option Q;
  lastError : option string;
  messageListener : bool;
  playingListener : bool;
  notificationListener : bool;
  pingListener : bool;
  EventSourceClass : bool;
  clock : Q;
  pending : list Timer;
  nextTimer : nat;
  constructed : nat;
  closed : list nat;
  emitted : list Event;
  scheduled : list (TimerKind * Q)
}.

(** A freshly constructed client in a process where the transport module
    may or may not have been loaded yet by another instance. *)
Definition new_client (loaded : bool) (t0 : Q) : World :=
  {| eventSource := None; state := disconnected; reconnectAttempts := 0;
     reconnectTimer := None; heartbeatTimer := None; connectionTimer := None;
     lastEventTime := None; connectedAt := None; lastError := None;
     messageListener := false; playingListener := false;
     notificationListener := false; pingListener := false;
     EventSourceClass := loaded; clock := t0; pending := []; nextTimer := 0;
     constructed := 0; closed := []; emitted := []; scheduled := [] |}.

(** Field updates. *)

Definition set_eventSource (v : option nat) (w : World) : World :=
  {| eventSource := v; state := state w;
     reconnectAttempts := reconnectAttempts w;
     reconnectTimer := reconnectTimer w; heartbeatTimer := heartbeatTimer w;
     connectionTimer := connectionTimer w; lastEventTime := lastEventTime w;
     connectedAt := connectedAt w; lastError := lastError w;
     messageListener := messageListener w;
     playingListener := playingListener w;
     notificationListener := notificationListener w;
     pingListener := pingListener w; EventSourceClass := EventSourceClass w;
     clock := clock w; pending := pending w; nextTimer := nextTimer w;
     constructed := constructed w; closed := closed w; emitted := emitted w;
     scheduled := scheduled w |}.

Definition set_state (v : SSEConnectionState) (w : World) : World :=
  {| eventSource := eventSource w; state := v;
     reconnectAttempts := reconnectAttempts w;
     reconnectTimer := reconnectTimer w; heartbeatTimer := heartbeatTimer w;
     connectionTimer := connectionTimer w; lastEventTime := lastEventTime w;
     connectedAt := connectedAt w; lastError := lastError w;
     messageListener := messageListener w;
     playingListener := playingListener w;
     notificationListener := notificationListener w;
     pingListener := pingListener w; EventSourceClass := EventSourceClass w;
     clock := clock w; pending := pending w; nextTimer := nextTimer w;
     constructed := constructed w; closed := closed w; emitted := emitted w;
     scheduled := scheduled w |}.

Definition set_reconnectAttempts (v : nat) (w : World) : World :=
  {| eventSource := eventSource w; state := state w; reconnectAttempts := v;
     reconnectTimer := reconnectTimer w; heartbeatTimer := heartbeatTimer w;
     connectionTimer := connectionTimer w; lastEventTime := lastEventTime w;
     connectedAt := connectedAt w; lastError := lastError w;
     messageListener := messageListener w;
     playingListener := playingListener w;
     notificationListener := notificationListener w;
     pingListener := pingListener w; EventSourceClass := EventSourceClass w;
     clock := clock w; pending := pending w; nextTimer := nextTimer w;
     constructed := constructed w; closed := closed w; emitted := emitted w;
     scheduled := scheduled w |}.

Definition set_reconnectTimer (v : option nat) (w : World) : World :=
  {| eventSource := eventSource w; state := state w;
     reconnectAttempts := reconnectAttempts w; reconnectTimer := v;
     heartbeatTimer := heartbeatTimer w;
     connectionTimer := connectionTimer w; lastEventTime := lastEventTime w;
     connectedAt := connectedAt w; lastError := lastError w;
     messageListener := messageListener w;
     playingListener := playingListener w;
     notificationListener := notificationListener w;
     pingListener := pingListener w; EventSourceClass := EventSourceClass w;
     clock := clock w; pending := pending w; nextTimer := nextTimer w;
     constructed := constructed w; closed := closed w; emitted := emitted w;
     scheduled := scheduled w |}.

Definition set_heartbeatTimer (v : option nat) (w : World) : World :=
  {| eventSource := eventSource w; state := state w;
     reconnectAttempts := reconnectAttempts w;
     reconnectTimer := reconnectTimer w; heartbeatTimer := v;
     connectionTimer := connectionTimer w; lastEventTime := lastEventTime w;
     connectedAt := connectedAt w; lastError := lastError w;
     messageListener := messageListener w;
     playingListener := playingListener w;
     notificationListener := notificationListener w;
     pingListener := pingListener w; EventSourceClass := EventSourceClass w;
     clock := clock w; pending := pending w; nextTimer := nextTimer w;
     constructed := constructed w; closed := closed w; emitted := emitted w;
     scheduled := scheduled w |}.

Definition set_connectionTimer (v : option nat) (w : World) : World :=
  {| eventSource := eventSource w; state := state w;
     reconnectAttempts := reconnectAttempts w;
     reconnectTimer := reconnectTimer w; heartbeatTimer := heartbeatTimer w;
     connectionTimer := v; lastEventTime := lastEventTime w;
     connectedAt := connectedAt w; lastError := lastError w;
     messageListener := messageListener w;
     playingListener := playingListener w;
     notificationListener := notificationListener w;
     pingListener := pingListener w; EventSourceClass := EventSourceClass w;
     clock := clock w; pending := pending w; nextTimer := nextTimer w;
     constructed := constructed w; closed := closed w; emitted := emitted w;
     scheduled := scheduled w |}.

Definition set_lastEventTime (v : option Q) (w : World) : World :=
  {| eventSource := eventSource w; state := state w;
     reconnectAttempts := reconnectAttempts w;
     reconnectTimer := reconnectTimer w; heartbeatTimer := heartbeatTimer w;
     connectionTimer := connectionTimer w; lastEventTime := v;
     connectedAt := connectedAt w; lastError := lastError w;
     messageListener := messageListener w;
     playingListener := playingListener w;
     notificationListener := notificationListener w;
     pingListener := pingListener w; EventSourceClass := EventSourceClass w;
     clock := clock w; pending := pending w; nextTimer := nextTimer w;
     constructed := constructed w; closed := closed w; emitted := emitted w;
     scheduled := scheduled w |}.

Definition set_connectedAt (v : option Q) (w : World) : World :=
  {| eventSource := eventSource w; state := state w;
     reconnectAttempts := reconnectAttempts w;
     reconnectTimer := reconnectTimer w; heartbeatTimer := heartbeatTimer w;
     connectionTimer := connectionTimer w; lastEventTime := lastEventTime w;
     connectedAt := v; lastError := lastError w;
     messageListener := messageListener w;
     playingListener := playingListener w;
     notificationListener := notificationListener w;
     pingListener := pingListener w; EventSourceClass := EventSourceClass w;
     clock := clock w; pending := pending w; nextTimer := nextTimer w;
     constructed := constructed w; closed := closed w; emitted := emitted w;
     scheduled := scheduled w |}.

Definition set_lastError (v : option string) (w : World) : World :=
  {| eventSource := eventSource w; state := state w;
     reconnectAttempts := reconnectAttempts w;
     reconnectTimer := reconnectTimer w; heartbeatTimer := heartbeatTimer w;
     connectionTimer := connectionTimer w; lastEventTime := lastEventTime w;
     connectedAt := connectedAt w; lastError := v;
     messageListener := messageListener w;
     playingListener := playingListener w;
     notificationListener := notificationListener w;
     pingListener := pingListener w; EventSourceClass := EventSourceClass w;
     clock := clock w; pending := pending w; nextTimer := nextTimer w;
     constructed := constructed w; closed := closed w; emitted := emitted w;
     scheduled := scheduled w |}.

Definition set_messageListener (v : bool) (w : World) : World :=
  {| eventSource := eventSource w; state := state w;
     reconnectAttempts := reconnectAttempts w;
     reconnectTimer := reconnectTimer w; heartbeatTimer := heartbeatTimer w;
     connectionTimer := connectionTimer w; lastEventTime := lastEventTime w;
     connectedAt := connectedAt w; lastError := lastError w;
     messageListener := v; playingListener := playingListener w;
     notificationListener := notificationListener w;
     pingListener := pingListener w; EventSourceClass := EventSourceClass w;
     clock := clock w; pending := pending w; nextTimer := nextTimer w;
     constructed := constructed w; closed := closed w; emitted := emitted w;
     scheduled := scheduled w |}.

Definition set_playingListener (v : bool) (w : World) : World :=
  {| eventSource := eventSource w; state := state w;
     reconnectAttempts := reconnectAttempts w;
     reconnectTimer := reconnectTimer w; heartbeatTimer := heartbeatTimer w;
     connectionTimer := connectionTimer w; lastEventTime := lastEventTime w;
     connectedAt := connectedAt w; lastError := lastError w;
     messageListener := messageListener w; playingListener := v;
     notificationListener := notificationListener w;
     pingListener := pingListener w; EventSourceClass := EventSourceClass w;
     clock := clock w; pending := pending w; nextTimer := nextTimer w;
     constructed := constructed w; closed := closed w; emitted := emitted w;
     scheduled := scheduled w |}.

Definition set_notificationListener (v : bool) (w : World) : World :=
  {| eventSource := eventSource w; state := state w;
     reconnectAttempts := reconnectAttempts w;
     reconnectTimer := reconnectTimer w; heartbeatTimer := heartbeatTimer w;
     connectionTimer := connectionTimer w; lastEventTime := lastEventTime w;
     connectedAt := connectedAt w; lastError := lastError w;
     messageListener := messageListener w;
     playingListener := playingListener w; notificationListener := v;
     pingListener := pingListener w; EventSourceClass := EventSourceClass w;
     clock := clock w; pending := pending w; nextTimer := nextTimer w;
     constructed := constructed w; closed := closed w; emitted := emitted w;
     scheduled := scheduled w |}.

Definition set_pingListener (v : bool) (w : World) : World :=
  {| eventSource := eventSource w; state := state w;
     reconnectAttempts := reconnectAttempts w;
     reconnectTimer := reconnectTimer w; heartbeatTimer := heartbeatTimer w;
     connectionTimer := connectionTimer w; lastEventTime := lastEventTime w;
     connectedAt := connectedAt w; lastError := lastError w;
     messageListener := messageListener w;
     playingListener := playingListener w;
     notificationListener := notificationListener w; pingListener := v;
     EventSourceClass := EventSourceClass w; clock := clock w;
     pending := pending w; nextTimer := nextTimer w;
     constructed := constructed w; closed := closed w; emitted := emitted w;
     scheduled := scheduled w |}.

Definition set_EventSourceClass (v : bool) (w : World) : World :=
  {| eventSource := eventSource w; state := state w;
     reconnectAttempts := reconnectAttempts w;
     reconnectTimer := reconnectTimer w; heartbeatTimer := heartbeatTimer w;
     connectionTimer := connectionTimer w; lastEventTime := lastEventTime w;
     connectedAt := connectedAt w; lastError := lastError w;
     messageListener := messageListener w;
     playingListener := playingListener w;
     notificationListener := notificationListener w;
     pingListener := pingListener w; EventSourceClass := v; clock := clock w;
     pending := pending w; nextTimer := nextTimer w;
     constructed := constructed w; closed := closed w; emitted := emitted w;
     scheduled := scheduled w |}.

Definition set_clock (v : Q) (w : World) : World :=
  {| eventSource := eventSource w; state := state w;
     reconnectAttempts := reconnectAttempts w;
     reconnectTimer := reconnectTimer w; heartbeatTimer := heartbeatTimer w;
     connectionTimer := connectionTimer w; lastEventTime := lastEventTime w;
     connectedAt := connectedAt w; lastError := lastError w;
     messageListener := messageListener w;
     playingListener := playingListener w;
     notificationListener := notificationListener w;
     pingListener := pingListener w; EventSourceClass := EventSourceClass w;
     clock := v; pending := pending w; nextTimer := nextTimer w;
     constructed := constructed w; closed := closed w; emitted := emitted w;
     scheduled := scheduled w |}.

Definition set_pending (v : list Timer) (w : World) : World :=
  {| eventSource := eventSource w; state := state w;
     reconnectAttempts := reconnectAttempts w;
     reconnectTimer := reconnectTimer w; heartbeatTimer := heartbeatTimer w;
     connectionTimer := connectionTimer w; lastEventTime := lastEventTime w;
     connectedAt := connectedAt w; lastError := lastError w;
     messageListener := messageListener w;
     playingListener := playingListener w;
     notificationListener := notificationListener w;
     pingListener := pingListener w; EventSourceClass := EventSourceClass w;
     clock := clock w; pending := v; nextTimer := nextTimer w;
     constructed := constructed w; closed := closed w; emitted := emitted w;
     scheduled := scheduled w |}.

Definition set_nextTimer (v : nat) (w : World) : World :=
  {| eventSource := eventSource w; state := state w;
     reconnectAttempts := reconnectAttempts w;
     reconnectTimer := reconnectTimer w; heartbeatTimer := heartbeatTimer w;
     connectionTimer := connectionTimer w; lastEventTime := lastEventTime w;
     connectedAt := connectedAt w; lastError := lastError w;
     messageListener := messageListener w;
     playingListener := playingListener w;
     notificationListener := notificationListener w;
     pingListener := pingListener w; EventSourceClass := EventSourceClass w;
     clock := clock w; pending := pending w; nextTimer := v;
     constructed := constructed w; closed := closed w; emitted := emitted w;
     scheduled := scheduled w |}.

Definition set_constructed (v : nat) (w : World) : World :=
  {| eventSource := eventSource w; state := state w;
     reconnectAttempts := reconnectAttempts w;
     reconnectTimer := reconnectTimer w; heartbeatTimer := heartbeatTimer w;
     connectionTimer := connectionTimer w; lastEventTime := lastEventTime w;
     connectedAt := connectedAt w; lastError := lastError w;
     messageListener := messageListener w;
     playingListener := playingListener w;
     notificationListener := notificationListener w;
     pingListener := pingListener w; EventSourceClass := EventSourceClass w;
     clock := clock w; pending := pending w; nextTimer := nextTimer w;
     constructed := v; closed := closed w; emitted := emitted w;
     scheduled := scheduled w |}.

Definition set_closed (v : list nat) (w : World) : World :=
  {| eventSource := eventSource w; state := state w;
     reconnectAttempts := reconnectAttempts w;
     reconnectTimer := reconnectTimer w; heartbeatTimer := heartbeatTimer w;
     connectionTimer := connectionTimer w; lastEventTime := lastEventTime w;
     connectedAt := connectedAt w; lastError := lastError w;
     messageListener := messageListener w;
     playingListener := playingListener w;
     notificationListener := notificationListener w;
     pingListener := pingListener w; EventSourceClass := EventSourceClass w;
     clock := clock w; pending := pending w; nextTimer := nextTimer w;
     constructed := constructed w; closed := v; emitted := emitted w;
     scheduled := scheduled w |}.

Definition set_emitted (v : list Event) (w : World) : World :=
  {| eventSource := eventSource w; state := state w;
     reconnectAttempts := reconnectAttempts w;
     reconnectTimer := reconnectTimer w; heartbeatTimer := heartbeatTimer w;
     connectionTimer := connectionTimer w; lastEventTime := lastEventTime w;
     connectedAt := connectedAt w; lastError := lastError w;
     messageListener := messageListener w;
     playingListener := playingListener w;
     notificationListener := notificationListener w;
     pingListener := pingListener w; EventSourceClass := EventSourceClass w;
     clock := clock w; pending := pending w; nextTimer := nextTimer w;
     constructed := constructed w; closed := closed w; emitted := v;
     scheduled := scheduled w |}.

Definition set_scheduled (v : list (TimerKind * Q)) (w : World) : World :=
  {| eventSource := eventSource w; state := state w;
     reconnectAttempts := reconnectAttempts w;
     reconnectTimer := reconnectTimer w; heartbeatTimer := heartbeatTimer w;
     connectionTimer := connectionTimer w; lastEventTime := lastEventTime w;
     connectedAt := connectedAt w; lastError := lastError w;
     messageListener := messageListener w;
     playingListener := playingListener w;
     notificationListener := notificationListener w;
     pingListener := pingListener w; EventSourceClass := EventSourceClass w;
     clock := clock w; pending := pending w; nextTimer := nextTimer w;
     constructed := constructed w; closed := closed w; emitted := emitted w;
     scheduled := v |}.


(** ** The runtime: emitter and timers *)

Definition emit (e : Event) (w : World) : World :=
  set_emitted (emitted w ++ [e]) w.

(** [setTimeout(cb, d)]: a new table entry under a fresh handle. *)
Definition setTimeout (k : TimerKind) (d : Q) (w : World) : World * nat :=
  let id := nextTimer w in
  let t := {| tid := id; kind := k; armedAt := clock w; delay := d |} in
  let w1 := set_pending (pending w ++ [t]) w in
  let w2 := set_nextTimer (S id) w1 in
  (set_scheduled (scheduled w ++ [(k, d)]) w2, id).

(** [clearTimeout(id)]: the entry, if still pending, is dropped. *)
Definition clearTimeout (id : nat) (w : World) : World :=
  set_pending (filter (fun t => negb (Nat.eqb (tid t) id)) (pending w)) w.

(** ** Observations and invariants *)

Definition is_connection_error (e : Event) : bool :=
  match e with connection_error _ => true | _ => false end.

Definition is_session_event (e : Event) : bool :=
  match e with
  | session_playing _ | session_paused _
  | session_stopped _ | session_progress _ => true
  | _ => false
  end.

(** How many times the error path has been entered: [handleError] is the
    only place that emits [connection:error], once per call. *)
Definition failures (w : World) : nat :=
  List.length (filter is_connection_error (emitted w)).

(** How many reconnect timers have been scheduled so far. *)
Definition reconnectsScheduled (w : World) : nat :=
  List.length (filter (fun p => kind_eqb (fst p) ReconnectTimer) (scheduled w)).

(** The instance field that holds the handle of a timer of kind [k]. *)
Definition owner (w : World) (k : TimerKind) : option nat :=
  match k with
  | ReconnectTimer => reconnectTimer w
  | HeartbeatTimer => heartbeatTimer w
  | ConnectionTimer => connectionTimer w
  end.

Definition owned (w : World) (t : Timer) : bool :=
  match owner w (kind t) with
  | Some id => Nat.eqb (tid t) id
  | None => false
  end.

(** The timers left in a table once the handle held by a field (if any)
    has been cleared. *)
Definition unref (o : option nat) (p : list Timer) : list Timer :=
  match o with
  | Some id => filter (fun t => negb (Nat.eqb (tid t) id)) p
  | None => p
  end.

(** The table entry a [setTimeout] call made in [w] creates. *)
Definition newTimer (k : TimerKind) (d : Q) (w : World) : Timer :=
  {| tid := nextTimer w; kind := k; armedAt := clock w; delay := d |}.

(** No timer leaks: every pending timer is referenced by its field. *)
Definition timers_ok (w : World) : bool := forallb (owned w) (pending w).

(** The transport module is loaded whenever a connection was started. *)
Definition class_ok (w : World) : bool :=
  match state w with
  | connecting | connected => EventSourceClass w
  | _ => true
  end.

Definition wf (w : World) : bool := timers_ok w && class_ok w.

(** While a connection is being opened or is open there is a transport
    with its keepalive listener, and no reconnect timer is pending. *)
Definition live_ok (w : World) : bool :=
  match state w with
  | connecting | connected =>
      match eventSource w with Some _ => true | None => false end
      && pingListener w
      && forallb (fun t => negb (kind_eqb (kind t) ReconnectTimer)) (pending w)
  | _ => true
  end.

(** ** JavaScript value helpers *)

Fixpoint lookup {A : Type} (k : string) (props : list (string * A))
    : option A :=
  match props with
  | [] => None
  | (k', v) :: rest => if String.eqb k k' then Some v else lookup k rest
  end.

(** [k in v]. [None] is the [TypeError] raised on a primitive. For an
    array the answer is [false]: the two keys the class tests are neither
    an index nor ["length"]. *)
Definition js_in (k : string) (v : json) : option bool :=
  match v with
  | JObject props =>
      Some (match lookup k props with Some _ => true | None => false end)
  | JArray _ => Some false
  | _ => None
  end.

(** [v.k]. The outer [None] is the [TypeError] raised on [null]; the
    inner [None] is [undefined] (the keys read by the class are on no
    built-in prototype). *)
Definition js_get (k : string) (v : json) : option (option json) :=
  match v with
  | JNull => None
  | JObject props => Some (lookup k props)
  | _ => Some None
  end.

(** [v?.k] on a possibly [undefined] value. *)
Definition js_get_opt (k : string) (v : option json) : option json :=
  match v with
  | None | Some JNull => None
  | Some (JObject props) => lookup k props
  | Some _ => None
  end.

Definition truthy (v : option json) : bool :=
  match v with
  | None | Some JNull => false
  | Some (JBool b) => b
  | Some (JNumber q) => negb (Qeq_bool q 0)
  | Some (JString s) => negb (String.eqb s "")
  | Some (JArray _) | Some (JObject _) => true
  end.

Definition Math_min (a b : Q) : Q := if Qle_bool a b then a else b.

Definition Math_pow (b : Q) (e : Z) : Q := Qpower b e.

(** ** Numbers in double precision

    The delay of [scheduleReconnect] is computed on JavaScript Numbers:
    IEEE 754 binary64, every operation rounded to nearest, ties to even.
    A finite Number is modelled by the rational it denotes; the sign of
    zero is not modelled. [fl] rounds a rational to the binary64 grid
    (53 significant bits, least exponent -1074, subnormals included) and
    [round64] adds the overflow to an infinity. *)

Unset Implicit Arguments.

Inductive number : Type :=
| NaN
| Infinity (negative : bool)
| Finite (q : Q).

Definition pow2 (k : Z) : Q := 2 ^ k.

(** The integer part of the binary logarithm of a positive rational. *)
Definition Qlog2 (x : Q) : Z :=
  let e := (Z.log2 (Qnum x) - Z.log2 (Zpos (Qden x)))%Z in
  if Qle_bool (pow2 e) x then e else (e - 1)%Z.

(** The nearest integer, a tie going to the even one. *)
Definition rne (x : Q) : Z :=
  let f := Qfloor x in
  match Qcompare (x - inject_Z f) (1 # 2) with
  | Lt => f
  | Gt => (f + 1)%Z
  | Eq => if Z.even f then f else (f + 1)%Z
  end.

(** The exponent of the unit in the last place of [x]. *)
Definition ulp_exponent (x : Q) : Z :=
  Z.max (Qlog2 (Qabs x) - 52) (-1074).

Definition fl (x : Q) : Q :=
  let k := ulp_exponent x in
  inject_Z (rne (x * pow2 (- k))) * pow2 k.

Definition round64 (x : Q) : number :=
  let y := Qred (fl x) in
  if Qle_bool (pow2 1024) (Qabs y) then Infinity (negb (Qle_bool 0 y))
  else Finite y.

(** The rational is the value of a double. *)
Definition is_double (q : Q) : Prop := fl q == q.

Module Double.

(** A counter value as a Number: integers of this size are doubles. *)
Definition of_int (z : Z) : number := Finite (inject_Z z).

(** [a * b]. *)
Definition mul (a b : number) : number :=
  match a, b with
  | NaN, _ | _, NaN => NaN
  | Finite x, Finite y => round64 (x * y)
  | Infinity s, Finite y | Finite y, Infinity s =>
      if Qeq_bool y 0 then NaN
      else Infinity (xorb s (negb (Qle_bool 0 y)))
  | Infinity s, Infinity s' => Infinity (xorb s s')
  end.

(** [a + b]. *)
Definition add (a b : number) : number :=
  match a, b with
  | NaN, _ | _, NaN => NaN
  | Finite x, Finite y => round64 (x + y)
  | Infinity s, Finite _ | Finite _, Infinity s => Infinity s
  | Infinity s, Infinity s' => if Bool.eqb s s' then Infinity s else NaN
  end.

(** [Math.min(a, b)]. *)
Definition Math_min (a b : number) : number :=
  match a, b with
  | NaN, _ | _, NaN => NaN
  | Infinity true, _ | _, Infinity true => Infinity true
  | Infinity false, y => y
  | x, Infinity false => x
  | Finite x, Finite y => if Qle_bool x y then Finite x else Finite y
  end.

(** [a <= b]: false as soon as one side is [NaN]. *)
Definition le (a b : number) : Prop :=
  match a, b with
  | NaN, _ | _, NaN => False
  | Infinity true, _ => True
  | _, Infinity false => True
  | Finite x, Finite y => x <= y
  | _, _ => False
  end.

Section Backoff.

(** [Math.pow]: ECMAScript leaves its accuracy to the implementation, so
    it is a parameter. The constants of [SSE_CONFIG] are the doubles
    their literals denote. *)
Variable Math_pow : number -> number -> number.
Variable cfg : SSEConfig.

(** [Math.pow(SSE_CONFIG.RETRY_MULTIPLIER, k)]. *)
Definition power (k : nat) : number :=
  Math_pow (round64 (RETRY_MULTIPLIER cfg)) (of_int (Z.of_nat k)).

(** Lines 366-372 of [scheduleReconnect], for the counter value after
    its increment and a draw [random] of [Math.random()]. *)
Definition baseDelay (attempts : nat) : number :=
  Math_min
    (mul (round64 (INITIAL_RETRY_DELAY_MS cfg))
       (Math_pow (round64 (RETRY_MULTIPLIER cfg))
          (of_int (Z.of_nat attempts - 1))))
    (round64 (MAX_RETRY_DELAY_MS cfg)).

Definition reconnectDelay (attempts : nat) (random : number) : number :=
  let jitter := mul random (Finite 1000) in
  add (baseDelay attempts) jitter.

End Backoff.

End Double.

Set Implicit Arguments.

(** How a statement inside a [try] block ends. *)
Inductive Completion : Type :=
| Normal (w : World)
| Throw (w : World).

(** How the promise returned by [connect] settles. *)
Inductive Outcome : Type :=
| Resolved (w : World)
| Rejected (w : World).

Definition world_of (o : Outcome) : World :=
  match o with Resolved w | Rejected w => w end.

(** What the environment decides during one turn of the event loop: does
    the dynamic [import('eventsource')] succeed, does building the URL,
    the headers or the transport throw, and the value of [Math.random()]. *)
Record Env : Type := {
  importOk : bool;
  construct : option Thrown;
  random : Q
}.

(** The notification mapping as the specification words it: a table
    from the [state] field to the event; anything else emits nothing. *)
Definition stateEventTable : list (string * (json -> Event)) :=
  [ ("playing", session_playing);
    ("paused", session_paused);
    ("stopped", session_stopped);
    ("buffering", session_playing) ].

Definition spec_sessionEvents (n : json) : list Event :=
  match js_get "state" n with
  | Some (Some (JString s)) =>
      match lookup s stateEventTable with
      | Some mk => [mk n]
      | None => []
      end
  | _ => []
  end.

(** ** The methods of [PlexEventSource] *)

Section Client.

Variable cfg : SSEConfig.

(** [JSON.parse]; [None] is a thrown [SyntaxError]. *)
Variable JSON_parse : string -> option json.

Definition getState (w : World) : SSEConnectionState := state w.

Record Status : Type := {
  st_state : SSEConnectionState;
  st_connectedAt : option Q;
  st_lastEventAt : option Q;
  st_reconnectAttempts : nat;
  st_error : option string
}.

(** [serverId] and [serverName] are constants of the instance and are
    left out of the snapshot. *)
Definition getStatus (w : World) : Status :=
  {| st_state := state w;
     st_connectedAt := connectedAt w;
     st_lastEventAt := lastEventTime w;
     st_reconnectAttempts := reconnectAttempts w;
     st_error := lastError w |}.

Definition setState (s : SSEConnectionState) (w : World) : World :=
  if state_eqb (state w) s then w
  else emit (connection_state s) (set_state s w).

Definition clearConnectionTimeout (w : World) : World :=
  match connectionTimer w with
  | Some id => set_connectionTimer None (clearTimeout id w)
  | None => w
  end.

Definition clearTimers (w : World) : World :=
  let w1 :=
    match reconnectTimer w with
    | Some id => set_reconnectTimer None (clearTimeout id w)
    | None => w
    end in
  let w2 :=
    match heartbeatTimer w1 with
    | Some id => set_heartbeatTimer None (clearTimeout id w1)
    | None => w1
    end in
  clearConnectionTimeout w2.

Definition startConnectionTimeout (w : World) : World :=
  let w1 := clearConnectionTimeout w in
  let (w2, id) := setTimeout ConnectionTimer (HEARTBEAT_TIMEOUT_MS cfg) w1 in
  set_connectionTimer (Some id) w2.

Definition resetHeartbeatMonitor (w : World) : World :=
  let w1 :=
    match heartbeatTimer w with
    | Some id => clearTimeout id w
    | None => w
    end in
  let (w2, id) := setTimeout HeartbeatTimer (HEARTBEAT_TIMEOUT_MS cfg) w1 in
  set_heartbeatTimer (Some id) w2.

Definition startHeartbeatMonitor (w : World) : World :=
  resetHeartbeatMonitor w.

Definition cleanupEventSource (w : World) : World :=
  match eventSource w with
  | None => w
  | Some h =>
      let w1 := set_closed (closed w ++ [h]) w in
      let w2 := set_eventSource None w1 in
      let w3 := set_messageListener false w2 in
      let w4 := set_playingListener false w3 in
      let w5 := set_notificationListener false w4 in
      set_pingListener false w5
  end.

(** The delay computed in [scheduleReconnect], for the counter value
    after its increment and a draw [r] of [Math.random()]: the exact
    sum, under which the timer table files the timer. The Number the
    program computes, every operation rounded, is
    [Double.reconnectDelay]. *)
Definition baseDelay (attempts : nat) : Q :=
  Math_min
    (INITIAL_RETRY_DELAY_MS cfg *
       Math_pow (RETRY_MULTIPLIER cfg) (Z.of_nat attempts - 1))
    (MAX_RETRY_DELAY_MS cfg).

Definition reconnectDelay (attempts : nat) (r : Q) : Q :=
  let jitter := r * 1000 in
  baseDelay attempts + jitter.

Definition scheduleReconnect (r : Q) (w : World) : World :=
  if Nat.leb (MAX_RETRIES cfg) (reconnectAttempts w) then setState fallback w
  else
    let w1 := setState reconnecting w in
    let w2 := set_reconnectAttempts (S (reconnectAttempts w1)) w1 in
    let d := reconnectDelay (reconnectAttempts w2) r in
    let (w3, id) := setTimeout ReconnectTimer d w2 in
    set_reconnectTimer (Some id) w3.

Definition errorMessage (error : Thrown) : string :=
  match error with
  | ErrorInstance m => m
  | ErrorObject m s =>
      let base := match m with Some x => x | None => "Connection error" end in
      match s with
      | Some x => (base ++ " (status: " ++ x ++ ")")%string
      | None => base
      end
  | ErrorOther => "Connection error"
  end.

Definition handleError (error : Thrown) (r : Q) (w : World) : World :=
  let w1 := clearTimers w in
  let w2 := set_lastError (Some (errorMessage error)) w1 in
  let w3 := emit (connection_error (errorMessage error)) w2 in
  let w4 := cleanupEventSource w3 in
  scheduleReconnect r w4.

(** The [onopen] handler installed by [connect]. *)
Definition onopen (w : World) : World :=
  match state w with
  | connecting =>
      let w1 := clearConnectionTimeout w in
      let w2 := setState connected w1 in
      let w3 := set_connectedAt (Some (clock w2)) w2 in
      let w4 := set_reconnectAttempts 0 w3 in
      let w5 := set_lastError None w4 in
      startHeartbeatMonitor w5
  | _ => w
  end.

(** [connect]. The lazy import comes first and is outside the [try]; what
    can throw inside the [try] (building the URL and headers, the
    constructor) does so before the assignment to [this.eventSource]. The
    [await] on the first load is taken to complete within the same turn. *)
Definition connect (env : Env) (w : World) : Outcome :=
  if negb (EventSourceClass w) && negb (importOk env) then Rejected w
  else
    let w0 := if EventSourceClass w then w else set_EventSourceClass true w in
    match state w0 with
    | connected | connecting => Resolved w0
    | _ =>
        let w1 := setState connecting w0 in
        let w2 := clearTimers w1 in
        match construct env with
        | Some error => Resolved (handleError error (random env) w2)
        | None =>
            let h := constructed w2 in
            let w3 := set_eventSource (Some h) (set_constructed (S h) w2) in
            let w4 := startConnectionTimeout w3 in
            let w5 := set_messageListener true w4 in
            let w6 := set_playingListener true w5 in
            let w7 := set_notificationListener true w6 in
            Resolved (set_pingListener true w7)
        end
    end.

Definition disconnect (w : World) : World :=
  let w1 := clearTimers w in
  let w2 := cleanupEventSource w1 in
  let w3 := setState disconnected w2 in
  set_connectedAt None w3.

Definition handlePlaySessionNotification
    (notification : json) (_eventType : option json) (w : World) : Completion :=
  match js_get "state" notification with
  | None => Throw w
  | Some st =>
      Normal
        match st with
        | Some (JString s) =>
            if String.eqb s "playing" then emit (session_playing notification) w
            else if String.eqb s "paused" then emit (session_paused notification) w
            else if String.eqb s "stopped" then emit (session_stopped notification) w
            else if String.eqb s "buffering" then emit (session_playing notification) w
            else w
        | _ => w
        end
  end.

(** The [for ... of] loop of [handleMessage]: a throw leaves the loop. *)
Fixpoint forEachNotification
    (notifications : list json) (type : option json) (w : World) : Completion :=
  match notifications with
  | [] => Normal w
  | n :: rest =>
      match handlePlaySessionNotification n type w with
      | Normal w' => forEachNotification rest type w'
      | Throw w' => Throw w'
      end
  end.

(** The body of the [try] block of [handleMessage]. A property read on
    [undefined] or [null] raises a [TypeError]. *)
Definition dispatchMessage (data : string) (w : World) : Completion :=
  match JSON_parse data with
  | None => Throw w
  | Some d =>
      match js_in "PlaySessionStateNotification" d with
      | None => Throw w
      | Some direct =>
          if direct && negb (match js_in "NotificationContainer" d with
                             | Some b => b
                             | None => false
                             end)
          then
            match js_get "PlaySessionStateNotification" d with
            | Some (Some notification) =>
                handlePlaySessionNotification
                  notification (Some (JString "playing")) w
            | _ => Throw w
            end
          else
            match js_get "NotificationContainer" d with
            | None => Throw w
            | Some container =>
                let psn :=
                  js_get_opt "PlaySessionStateNotification" container in
                if truthy psn then
                  let notifications :=
                    match psn with
                    | Some (JArray items) => items
                    | Some v => [v]
                    | None => []
                    end in
                  forEachNotification
                    notifications (js_get_opt "type" container) w
                else Normal w
            end
      end
  end.

Definition handleMessage (data : string) (w : World) : World :=
  let w1 := set_lastEventTime (Some (clock w)) w in
  let w2 := resetHeartbeatMonitor w1 in
  if String.eqb data "" then w2
  else
    match dispatchMessage data w2 with
    | Normal w' => w'
    | Throw w' => w'
    end.

(** The three timer callbacks. *)
Definition reconnectTimerCallback (env : Env) (w : World) : World :=
  match state w with
  | disconnected => w
  | _ => world_of (connect env w)
  end.

Definition heartbeatTimerCallback (env : Env) (w : World) : World :=
  match state w with
  | disconnected => w
  | _ => handleError (ErrorInstance "Heartbeat timeout") (random env) w
  end.

Definition connectionTimerCallback (env : Env) (w : World) : World :=
  match state w with
  | disconnected => w
  | _ => handleError (ErrorInstance "Connection timeout") (random env) w
  end.

(** ** The event loop *)

(** What can happen to a client: a call of a public method, a callback of
    the live transport, a timer that fires, time that passes. *)
Inductive Input : Type :=
| CallConnect
| CallDisconnect
| TransportOpen
| TransportError (error : Thrown)
| TransportEvent (ch : Channel) (data : string)
| TimerFires (id : nat)
| TimePasses (t : Q).

Definition find_timer (id : nat) (w : World) : option Timer :=
  find (fun t => Nat.eqb (tid t) id) (pending w).

Definition listening (ch : Channel) (w : World) : bool :=
  match ch with
  | ch_message => messageListener w
  | ch_playing => playingListener w
  | ch_notification => notificationListener w
  | ch_ping => pingListener w
  end.

(** One turn. [None]: the input cannot occur in this world (no live
    transport with that handler, no such pending timer or not yet due,
    time running backwards). *)
Definition step (env : Env) (w : World) (i : Input) : option World :=
  match i with
  | CallConnect => Some (world_of (connect env w))
  | CallDisconnect => Some (disconnect w)
  | TransportOpen =>
      match eventSource w with
      | Some _ => Some (onopen w)
      | None => None
      end
  | TransportError error =>
      match eventSource w with
      | Some _ => Some (handleError error (random env) w)
      | None => None
      end
  | TransportEvent ch data =>
      match eventSource w with
      | Some _ =>
          if listening ch w then
            Some match ch with
                 | ch_ping => resetHeartbeatMonitor w
                 | _ => handleMessage data w
                 end
          else None
      | None => None
      end
  | TimerFires id =>
      match find_timer id w with
      | Some t =>
          if Qle_bool (due t) (clock w) then
            let w1 := clearTimeout id w in
            Some match kind t with
                 | ReconnectTimer => reconnectTimerCallback env w1
                 | HeartbeatTimer => heartbeatTimerCallback env w1
                 | ConnectionTimer => connectionTimerCallback env w1
                 end
          else None
      | None => None
      end
  | TimePasses t =>
      if Qle_bool (clock w) t then Some (set_clock t w) else None
  end.

Fixpoint run (tr : list (Env * Input)) (w : World) : option World :=
  match tr with
  | [] => Some w
  | (env, i) :: rest =>
      match step env w i with
      | Some w' => run rest w'
      | None => None
      end
  end.

(** ** Kinds of turn

    Seen from the counters, a turn is quiet, or it enters the error path
    once, or it is the successful opening of the transport. *)

Definition quiet_step (w w' : World) : Prop :=
  reconnectAttempts w' = reconnectAttempts w /\
  failures w' = failures w /\
  reconnectsScheduled w' = reconnectsScheduled w.

Definition failure_step (r : Q) (w w' : World) : Prop :=
  failures w' = S (failures w) /\
  if Nat.leb (MAX_RETRIES cfg) (reconnectAttempts w) then
    state w' = fallback /\
    reconnectAttempts w' = reconnectAttempts w /\
    pending w' = [] /\
    reconnectsScheduled w' = reconnectsScheduled w
  else
    state w' = reconnecting /\
    reconnectAttempts w' = S (reconnectAttempts w) /\
    (exists t, pending w' = [t] /\ kind t = ReconnectTimer /\
               delay t = reconnectDelay (S (reconnectAttempts w)) r) /\
    reconnectsScheduled w' = S (reconnectsScheduled w).

Definition open_step (w w' : World) : Prop :=
  state w = connecting /\ state w' = connected /\
  reconnectAttempts w' = 0%nat /\
  failures w' = failures w /\
  reconnectsScheduled w' = reconnectsScheduled w.

(** A run in which the transport never opens. *)
Definition no_open (tr : list (Env * Input)) : Prop :=
  Forall (fun p => snd p <> TransportOpen) tr.

(** A message only ever adds session events to what was emitted. *)
Definition grown (w w' : World) : Prop :=
  exists l, w' = set_emitted (emitted w ++ l) w /\
            filter is_connection_error l = [].

(** The worlds a client can be in: those a fresh client reaches by some
    sequence of turns. *)
Definition reachable (w : World) : Prop :=
  exists loaded t0 tr, run tr (new_client loaded t0) = Some w.

(** ** Keepalive *)

(** The client is connected over a live transport and the only pending
    timer is its heartbeat timer, armed at time [a]. *)
Definition heartbeat_armed (a : Q) (w : World) : Prop :=
  state w = connected /\ eventSource w <> None /\ pingListener w = true /\
  a <= clock w /\
  exists id,
    heartbeatTimer w = Some id /\
    pending w =
      [{| tid := id; kind := HeartbeatTimer; armedAt := a;
          delay := HEARTBEAT_TIMEOUT_MS cfg |}].

(** Pings received at the times [ts]: each arrives less than the
    heartbeat timeout after the previous arming of the timer. *)
Fixpoint spaced (armed now : Q) (ts : list Q) : Prop :=
  match ts with
  | [] => True
  | t :: rest =>
      now <= t /\ t < armed + HEARTBEAT_TIMEOUT_MS cfg /\ spaced t t rest
  end.

Definition ping_trace (env : Env) (ts : list Q) : list (Env * Input) :=
  flat_map (fun t => [(env, TimePasses t); (env, TransportEvent ch_ping "")])
           ts.

(** ** Basic facts about the runtime *)

Lemma state_eqb_eq (a b : SSEConnectionState) :
  state_eqb a b = true <-> a = b.
Proof. destruct a, b; simpl; split; intros H; congruence. Qed.

Lemma state_eqb_refl (a : SSEConnectionState) : state_eqb a a = true.
Proof. destruct a; reflexivity. Qed.

Lemma state_eqb_neq (a b : SSEConnectionState) :
  a <> b -> state_eqb a b = false.
Proof.
  intros H. destruct (state_eqb a b) eqn:E; [|reflexivity].
  apply state_eqb_eq in E. contradiction.
Qed.

Lemma In_unref (o : option nat) (p : list Timer) (t : Timer) :
  In t (unref o p) <-> In t p /\ o <> Some (tid t).
Proof.
  destruct o as [id|]; simpl.
  - rewrite filter_In, negb_true_iff, Nat.eqb_neq.
    split; intros [H1 H2]; split; auto; congruence.
  - split; [intros H; split; [assumption|discriminate]|tauto].
Qed.

Lemma no_member_nil {A : Type} (l : list A) :
  (forall x, ~ In x l) -> l = [].
Proof.
  destruct l as [|a l]; [reflexivity|].
  intros H. exfalso. apply (H a). left. reflexivity.
Qed.

(** *** Each method as one update of the world

    The equations below push the conditionals of a method into the
    values of the fields it writes, so that any field of the result is
    obtained by computation. *)

Lemma clearConnectionTimeout_nf (w : World) :
  clearConnectionTimeout w =
  set_connectionTimer None
    (set_pending (unref (connectionTimer w) (pending w)) w).
Proof.
  unfold clearConnectionTimeout, clearTimeout.
  destruct w; simpl. destruct connectionTimer0; reflexivity.
Qed.

Lemma clearTimers_nf (w : World) :
  clearTimers w =
  set_connectionTimer None
    (set_heartbeatTimer None
       (set_reconnectTimer None
          (set_pending
             (unref (connectionTimer w)
                (unref (heartbeatTimer w)
                   (unref (reconnectTimer w) (pending w)))) w))).
Proof.
  unfold clearTimers, clearConnectionTimeout, clearTimeout.
  destruct w; simpl.
  destruct reconnectTimer0, heartbeatTimer0, connectionTimer0; reflexivity.
Qed.

Lemma setState_nf (s : SSEConnectionState) (w : World) :
  setState s w =
  set_emitted
    (if state_eqb (state w) s then emitted w
     else emitted w ++ [connection_state s])
    (set_state s w).
Proof.
  unfold setState, emit. destruct w; simpl.
  destruct (state_eqb state0 s) eqn:E; [|reflexivity].
  apply state_eqb_eq in E. subst. reflexivity.
Qed.

Lemma cleanupEventSource_nf (w : World) :
  cleanupEventSource w =
  let live := match eventSource w with Some _ => true | None => false end in
  set_pingListener (negb live && pingListener w)
    (set_notificationListener (negb live && notificationListener w)
       (set_playingListener (negb live && playingListener w)
          (set_messageListener (negb live && messageListener w)
             (set_eventSource None
                (set_closed
                   (match eventSource w with
                    | Some h => closed w ++ [h]
                    | None => closed w
                    end) w))))).
Proof.
  unfold cleanupEventSource. destruct w; simpl.
  destruct eventSource0; reflexivity.
Qed.

Lemma resetHeartbeatMonitor_nf (w : World) :
  resetHeartbeatMonitor w =
  set_heartbeatTimer (Some (nextTimer w))
    (set_scheduled
       (scheduled w ++ [(HeartbeatTimer, HEARTBEAT_TIMEOUT_MS cfg)])
       (set_nextTimer (S (nextTimer w))
          (set_pending
             (unref (heartbeatTimer w) (pending w) ++
                [newTimer HeartbeatTimer (HEARTBEAT_TIMEOUT_MS cfg) w])
             w))).
Proof.
  unfold resetHeartbeatMonitor, setTimeout, clearTimeout, newTimer.
  destruct w; simpl. destruct heartbeatTimer0; reflexivity.
Qed.

Lemma startConnectionTimeout_nf (w : World) :
  startConnectionTimeout w =
  set_connectionTimer (Some (nextTimer w))
    (set_scheduled
       (scheduled w ++ [(ConnectionTimer, HEARTBEAT_TIMEOUT_MS cfg)])
       (set_nextTimer (S (nextTimer w))
          (set_pending
             (unref (connectionTimer w) (pending w) ++
                [newTimer ConnectionTimer (HEARTBEAT_TIMEOUT_MS cfg) w])
             w))).
Proof.
  unfold startConnectionTimeout, clearConnectionTimeout, setTimeout,
    clearTimeout, newTimer.
  destruct w; simpl. destruct connectionTimer0; reflexivity.
Qed.

Lemma scheduleReconnect_nf (r : Q) (w : World) :
  scheduleReconnect r w =
  if Nat.leb (MAX_RETRIES cfg) (reconnectAttempts w) then setState fallback w
  else
    let d := reconnectDelay (S (reconnectAttempts w)) r in
    set_reconnectTimer (Some (nextTimer w))
      (set_scheduled (scheduled w ++ [(ReconnectTimer, d)])
         (set_nextTimer (S (nextTimer w))
            (set_pending (pending w ++ [newTimer ReconnectTimer d w])
               (set_reconnectAttempts (S (reconnectAttempts w))
                  (setState reconnecting w))))).
Proof.
  unfold scheduleReconnect, setTimeout, newTimer.
  destruct (Nat.leb (MAX_RETRIES cfg) (reconnectAttempts w)); [reflexivity|].
  rewrite setState_nf. simpl. reflexivity.
Qed.

Create Rewrite HintDb nf.

#[local] Hint Rewrite clearConnectionTimeout_nf clearTimers_nf setState_nf
  cleanupEventSource_nf resetHeartbeatMonitor_nf startConnectionTimeout_nf
  : nf.

Ltac nf := unfold startHeartbeatMonitor in *; autorewrite with nf; simpl.

(** Once every handle held by a field is cleared, a leak-free table is
    empty. *)
Lemma unref_all_nil (w : World) :
  timers_ok w = true ->
  unref (connectionTimer w)
    (unref (heartbeatTimer w) (unref (reconnectTimer w) (pending w))) = [].
Proof.
  intros Hok. apply no_member_nil. intros t Hin.
  rewrite !In_unref in Hin. destruct Hin as [[[Hin Hr] Hh] Hc].
  unfold timers_ok in Hok. rewrite forallb_forall in Hok.
  specialize (Hok t Hin). unfold owned, owner in Hok.
  destruct (kind t);
    [ destruct (reconnectTimer w) | destruct (heartbeatTimer w)
    | destruct (connectionTimer w) ];
    try discriminate; apply Nat.eqb_eq in Hok; congruence.
Qed.

Lemma clearTimers_pending (w : World) :
  timers_ok w = true -> pending (clearTimers w) = [].
Proof. intros Hok. nf. apply unref_all_nil. assumption. Qed.

(** ** disconnect() *)

Lemma disconnect_state (w : World) : state (disconnect w) = disconnected.
Proof. unfold disconnect. nf. reflexivity. Qed.

(** C10. [disconnect()] leaves the reconnect-attempt counter, the last
    error and the last-event time as they were, and the status snapshot
    taken afterwards still reports them; only the state and the connect
    time of the snapshot change. *)
Theorem disconnect_keeps_attempts_error_lastEvent : forall w : World,
  reconnectAttempts (disconnect w) = reconnectAttempts w /\
  lastError (disconnect w) = lastError w /\
  lastEventTime (disconnect w) = lastEventTime w /\
  EventSourceClass (disconnect w) = EventSourceClass w /\
  clock (disconnect w) = clock w /\
  constructed (disconnect w) = constructed w /\
  scheduled (disconnect w) = scheduled w /\
  getStatus (disconnect w) =
    {| st_state := disconnected;
       st_connectedAt := None;
       st_lastEventAt := lastEventTime w;
       st_reconnectAttempts := reconnectAttempts w;
       st_error := lastError w |}.
Proof.
  intros w. unfold getStatus, disconnect. nf. repeat split; reflexivity.
Qed.

(** ** Messages *)

Lemma handlePlaySessionNotification_spec
    (n : json) (ty : option json) (w : World) :
  handlePlaySessionNotification n ty w =
  match js_get "state" n with
  | None => Throw w
  | Some _ => Normal (set_emitted (emitted w ++ spec_sessionEvents n) w)
  end.
Proof.
  unfold handlePlaySessionNotification, spec_sessionEvents, emit.
  destruct (js_get "state" n) as [[st|]|] eqn:E; try reflexivity;
    try (destruct w; simpl; rewrite app_nil_r; reflexivity).
  destruct st; try (destruct w; simpl; rewrite app_nil_r; reflexivity).
  simpl.
  destruct (String.eqb s "playing") eqn:E1; [reflexivity|].
  destruct (String.eqb s "paused") eqn:E2; [reflexivity|].
  destruct (String.eqb s "stopped") eqn:E3; [reflexivity|].
  destruct (String.eqb s "buffering") eqn:E4; [reflexivity|].
  destruct w; simpl; rewrite app_nil_r; reflexivity.
Qed.

Lemma forEachNotification_spec
    (items : list json) (ty : option json) (w : World) :
  Forall (fun n => n <> JNull) items ->
  forEachNotification items ty w =
  Normal (set_emitted (emitted w ++ flat_map spec_sessionEvents items) w).
Proof.
  intros H. revert w. induction H as [|n items Hn _ IH]; intros w.
  - simpl. destruct w; simpl; rewrite app_nil_r; reflexivity.
  - simpl forEachNotification. rewrite handlePlaySessionNotification_spec.
    destruct (js_get "state" n) eqn:E.
    + rewrite IH. simpl. rewrite <- app_assoc. reflexivity.
    + destruct n; simpl in E; try discriminate. contradiction.
Qed.

(** C4. The event emitted for a notification is decided by its [state]
    field alone, whatever the container-level type: [playing] gives
    [session:playing], [paused] gives [session:paused], [stopped] gives
    [session:stopped], [buffering] gives [session:playing], any other
    value gives nothing. For a wrapped-container payload holding an array
    of notifications the events are emitted one notification after the
    other, in array order; so states playing, paused, stopped give
    exactly [session:playing], [session:paused], [session:stopped]. *)
Theorem notification_state_decides_event : forall w : World,
  (forall props ty,
     let n := JObject props in
     (lookup "state" props = Some (JString "playing") ->
      handlePlaySessionNotification n ty w = Normal (emit (session_playing n) w)) /\
     (lookup "state" props = Some (JString "paused") ->
      handlePlaySessionNotification n ty w = Normal (emit (session_paused n) w)) /\
     (lookup "state" props = Some (JString "stopped") ->
      handlePlaySessionNotification n ty w = Normal (emit (session_stopped n) w)) /\
     (lookup "state" props = Some (JString "buffering") ->
      handlePlaySessionNotification n ty w = Normal (emit (session_playing n) w)) /\
     (forall s, lookup "state" props = Some (JString s) ->
        s <> "playing" -> s <> "paused" -> s <> "stopped" ->
        s <> "buffering" ->
        handlePlaySessionNotification n ty w = Normal w) /\
     (forall v, lookup "state" props = v ->
        (forall s, v <> Some (JString s)) ->
        handlePlaySessionNotification n ty w = Normal w)) /\
  (forall n ty1 ty2,
     handlePlaySessionNotification n ty1 w =
     handlePlaySessionNotification n ty2 w) /\
  (forall data props cprops items,
     data <> "" ->
     JSON_parse data = Some (JObject props) ->
     lookup "NotificationContainer" props = Some (JObject cprops) ->
     lookup "PlaySessionStateNotification" cprops = Some (JArray items) ->
     Forall (fun n => n <> JNull) items ->
     emitted (handleMessage data w) =
     emitted w ++ flat_map spec_sessionEvents items) /\
  (forall p1 p2 p3,
     lookup "state" p1 = Some (JString "playing") ->
     lookup "state" p2 = Some (JString "paused") ->
     lookup "state" p3 = Some (JString "stopped") ->
     flat_map spec_sessionEvents [JObject p1; JObject p2; JObject p3] =
     [session_playing (JObject p1); session_paused (JObject p2);
      session_stopped (JObject p3)]).
Proof.
  intros w. split; [|split; [|split]].
  - intros props ty n. unfold n, handlePlaySessionNotification. simpl.
    repeat split.
    + intros H; rewrite H; reflexivity.
    + intros H; rewrite H; reflexivity.
    + intros H; rewrite H; reflexivity.
    + intros H; rewrite H; reflexivity.
    + intros s H H1 H2 H3 H4. rewrite H.
      apply String.eqb_neq in H1, H2, H3, H4.
      rewrite H1, H2, H3, H4. reflexivity.
    + intros v H Hv. rewrite H.
      destruct v as [[]|]; try reflexivity.
      exfalso. apply (Hv s). reflexivity.
  - intros n ty1 ty2. rewrite !handlePlaySessionNotification_spec.
    reflexivity.
  - intros data props cprops items Hd Hp Hc Hn Hitems.
    unfold handleMessage. apply String.eqb_neq in Hd. rewrite Hd.
    unfold dispatchMessage. rewrite Hp. simpl. rewrite Hc. simpl.
    rewrite andb_false_r. rewrite Hn. simpl.
    rewrite forEachNotification_spec by assumption.
    nf. reflexivity.
  - intros p1 p2 p3 H1 H2 H3. unfold spec_sessionEvents. simpl.
    rewrite H1, H2, H3. reflexivity.
Qed.


(** ** Backoff *)

Lemma Math_min_spec (a b : Q) :
  (a <= b /\ Math_min a b = a) \/ (b < a /\ Math_min a b = b).
Proof.
  unfold Math_min. destruct (Qle_bool a b) eqn:E.
  - left. split; [apply Qle_bool_iff; assumption|reflexivity].
  - right. split; [|reflexivity]. apply Qnot_le_lt. intros H.
    apply Qle_bool_iff in H. congruence.
Qed.

Lemma Math_min_Qmin (a b : Q) : Math_min a b == Qmin a b.
Proof.
  destruct (Math_min_spec a b) as [[H1 H2]|[H1 H2]]; rewrite H2;
    destruct (Q.min_spec a b) as [[H3 H4]|[H3 H4]]; rewrite H4.
  all: lra.
Qed.

(** ** Rounding to double precision *)

Unset Implicit Arguments.

Lemma pow2_pos (k : Z) : 0 < pow2 k.
Proof. apply Qpower_0_lt. reflexivity. Qed.

Lemma pow2_add (a b : Z) : pow2 (a + b) == pow2 a * pow2 b.
Proof. apply Qpower_plus. discriminate. Qed.

Lemma pow2_le (a b : Z) : (a <= b)%Z -> pow2 a <= pow2 b.
Proof. intros H. apply Qpower_le_compat_l; [assumption|]. discriminate. Qed.

Lemma pow2_lt (a b : Z) : (a < b)%Z -> pow2 a < pow2 b.
Proof. intros H. apply Qpower_lt_compat_l; [assumption|]. reflexivity. Qed.

Lemma pow2_lt_inv (a b : Z) : pow2 a < pow2 b -> (a < b)%Z.
Proof.
  intros H. apply (Qpower_lt_compat_l_inv 2); [assumption|]. reflexivity.
Qed.

Lemma pow2_Z (k : Z) : (0 <= k)%Z -> pow2 k == inject_Z (2 ^ k).
Proof.
  intros H. unfold pow2. rewrite Zpower_Qpower by assumption. reflexivity.
Qed.

Lemma pow2_cancel (k : Z) : pow2 (- k) * pow2 k == 1.
Proof.
  rewrite <- pow2_add. replace (- k + k)%Z with 0%Z by lia. reflexivity.
Qed.

(** Hides the integers under [inject_Z] from linear arithmetic. *)
Ltac hide_Z :=
  repeat match goal with
  | |- context [inject_Z ?z] =>
      let q := fresh "q" in
      set (q := inject_Z z) in *; clearbody q
  | H : context [inject_Z ?z] |- _ =>
      let q := fresh "q" in
      set (q := inject_Z z) in *; clearbody q
  end.

Lemma rne_comp (x y : Q) : x == y -> rne x = rne y.
Proof.
  intros H. unfold rne. rewrite (Qfloor_comp _ _ H).
  assert (E : Qcompare (x - inject_Z (Qfloor y)) (1 # 2) =
              Qcompare (y - inject_Z (Qfloor y)) (1 # 2))
    by (apply Qcompare_comp; [rewrite H; reflexivity|reflexivity]).
  rewrite E. reflexivity.
Qed.

Lemma rne_cases (x : Q) :
  (rne x = Qfloor x /\ x - inject_Z (Qfloor x) <= 1 # 2) \/
  (rne x = (Qfloor x + 1)%Z /\ 1 # 2 <= x - inject_Z (Qfloor x)).
Proof.
  unfold rne.
  destruct (Qcompare_spec (x - inject_Z (Qfloor x)) (1 # 2)) as [H|H|H].
  - destruct (Z.even (Qfloor x)); [left|right]; split; try reflexivity;
      rewrite H; apply Qle_refl.
  - left. split; [reflexivity|]. apply Qlt_le_weak. assumption.
  - right. split; [reflexivity|]. apply Qlt_le_weak. assumption.
Qed.

Lemma Qfloor_bounds (x : Q) :
  inject_Z (Qfloor x) <= x /\ x < inject_Z (Qfloor x) + 1.
Proof.
  split; [apply Qfloor_le|].
  pose proof (Qlt_floor x) as H. rewrite inject_Z_plus in H. exact H.
Qed.

Lemma rne_Z (z : Z) : rne (inject_Z z) = z.
Proof.
  unfold rne. rewrite Qfloor_Z.
  assert (E : Qcompare (inject_Z z - inject_Z z) (1 # 2) = Lt).
  { apply Qlt_alt.
    setoid_replace (inject_Z z - inject_Z z) with 0 by ring. reflexivity. }
  rewrite E. reflexivity.
Qed.

Lemma rne_mono (x y : Q) : x <= y -> (rne x <= rne y)%Z.
Proof.
  intros H.
  pose proof (Qfloor_resp_le _ _ H) as Hf.
  destruct (Z.eq_dec (Qfloor x) (Qfloor y)) as [E|E].
  - unfold rne. rewrite E.
    destruct (Qcompare_spec (x - inject_Z (Qfloor y)) (1 # 2)) as [H1|H1|H1];
      destruct (Qcompare_spec (y - inject_Z (Qfloor y)) (1 # 2)) as [H2|H2|H2];
      try lia; try (destruct (Z.even (Qfloor y)); lia).
      all: exfalso; hide_Z; lra.
  - assert (Hlt : (Qfloor x + 1 <= Qfloor y)%Z) by lia.
    destruct (rne_cases x) as [[E1 _]|[E1 _]];
      destruct (rne_cases y) as [[E2 _]|[E2 _]]; lia.
Qed.

Lemma rne_le_Z (x : Q) (z : Z) : x <= inject_Z z -> (rne x <= z)%Z.
Proof. intros H. rewrite <- (rne_Z z). apply rne_mono. assumption. Qed.

Lemma rne_ge_Z (x : Q) (z : Z) : inject_Z z <= x -> (z <= rne x)%Z.
Proof. intros H. rewrite <- (rne_Z z). apply rne_mono. assumption. Qed.

Lemma rne_error (x : Q) : Qabs (inject_Z (rne x) - x) <= 1 # 2.
Proof.
  destruct (Qfloor_bounds x) as [H1 H2].
  apply Qabs_Qle_condition.
  destruct (rne_cases x) as [[E H]|[E H]]; rewrite E;
    try rewrite inject_Z_plus; change (inject_Z 1) with 1;
    split; hide_Z; lra.
Qed.

Lemma pow2_succ (k : Z) : pow2 (k + 1) == 2 * pow2 k.
Proof. rewrite pow2_add. change (pow2 1) with 2. ring. Qed.

Lemma Zlog2_Q (n : Z) :
  (0 < n)%Z ->
  pow2 (Z.log2 n) <= inject_Z n /\ inject_Z n < 2 * pow2 (Z.log2 n).
Proof.
  intros H. destruct (Z.log2_spec n H) as [H1 H2].
  pose proof (Z.log2_nonneg n) as H0.
  rewrite <- pow2_succ.
  rewrite !pow2_Z by lia. split.
  - rewrite <- Zle_Qle. assumption.
  - rewrite <- Zlt_Qlt.
    replace (Z.log2 n + 1)%Z with (Z.succ (Z.log2 n)) by lia.
    assumption.
Qed.

Lemma Qlog2_spec (x : Q) :
  0 < x -> pow2 (Qlog2 x) <= x /\ x < pow2 (Qlog2 x + 1).
Proof.
  intros Hx. destruct x as [a b].
  assert (Ha : (0 < a)%Z).
  { unfold Qlt in Hx. simpl in Hx. lia. }
  unfold Qlog2. cbn [Qnum Qden].
  set (la := Z.log2 a). set (lb := Z.log2 (Z.pos b)).
  destruct (Zlog2_Q a Ha) as [A1 A2]. fold la in A1, A2.
  destruct (Zlog2_Q (Z.pos b) eq_refl) as [B1 B2]. fold lb in B1, B2.
  assert (HE : pow2 (la - lb) * pow2 lb == pow2 la).
  { rewrite <- pow2_add. replace (la - lb + lb)%Z with la by lia. reflexivity. }
  assert (Hx' : (a # b) * inject_Z (Z.pos b) == inject_Z a).
  { rewrite (Qmake_Qdiv a b). field. discriminate. }
  pose proof (pow2_pos (la - lb)) as PE.
  pose proof (pow2_pos lb) as PB.
  assert (Hhalf : pow2 (la - lb) == 2 * pow2 (la - lb - 1)).
  { rewrite <- pow2_succ. replace (la - lb - 1 + 1)%Z with (la - lb)%Z by lia.
    reflexivity. }
  pose proof (pow2_succ (la - lb)) as Hsucc.
  destruct (Qle_bool (pow2 (la - lb)) (a # b)) eqn:Eb.
  - apply Qle_bool_iff in Eb. split; [assumption|].
    rewrite Hsucc.
    set (x := a # b) in *. clearbody x.
    set (E := pow2 (la - lb)) in *. clearbody E.
    set (P := pow2 lb) in *. clearbody P.
    set (PA := pow2 la) in *. clearbody PA.
    hide_Z. 
    destruct (Qlt_le_dec x (2 * E)) as [Hc|Hc]; [exact Hc|exfalso].
    assert (H1 : 2 * E * q <= x * q) by nra.
    assert (H2 : 2 * E * P <= 2 * E * q) by nra.
    nra.
  - assert (Hlt : a # b < pow2 (la - lb)).
    { apply Qnot_le_lt. intros Hc. apply Qle_bool_iff in Hc. congruence. }
    replace (la - lb - 1 + 1)%Z with (la - lb)%Z by lia.
    split; [|assumption].
    set (x := a # b) in *. clearbody x.
    set (E := pow2 (la - lb)) in *. clearbody E.
    set (E' := pow2 (la - lb - 1)) in *. clearbody E'.
    set (P := pow2 lb) in *. clearbody P.
    set (PA := pow2 la) in *. clearbody PA.
    hide_Z.
    destruct (Qlt_le_dec x E') as [Hc|Hc]; [exfalso|exact Hc].
    assert (H1 : x * q <= E' * q) by nra.
    assert (H2 : E' * q < E' * (2 * P)) by nra.
    nra.
Qed.

Lemma Qlog2_unique (x : Q) (e : Z) :
  pow2 e <= x -> x < pow2 (e + 1) -> Qlog2 x = e.
Proof.
  intros H1 H2.
  assert (Hx : 0 < x) by (pose proof (pow2_pos e); lra).
  destruct (Qlog2_spec x Hx) as [L1 L2].
  assert (A : (e < Qlog2 x + 1)%Z) by (apply pow2_lt_inv; lra).
  assert (B : (Qlog2 x < e + 1)%Z) by (apply pow2_lt_inv; lra).
  lia.
Qed.

Lemma Qlog2_mono (x y : Q) : 0 < x -> x <= y -> (Qlog2 x <= Qlog2 y)%Z.
Proof.
  intros Hx Hxy.
  destruct (Qlog2_spec x Hx) as [L1 _].
  destruct (Qlog2_spec y) as [_ M2]; [lra|].
  assert (A : (Qlog2 x < Qlog2 y + 1)%Z) by (apply pow2_lt_inv; lra).
  lia.
Qed.

Lemma Qlog2_lt (x : Q) (e : Z) : 0 < x -> x < pow2 e -> (Qlog2 x < e)%Z.
Proof.
  intros Hx H. destruct (Qlog2_spec x Hx) as [L1 _].
  apply pow2_lt_inv. lra.
Qed.

Lemma Qlog2_ge (x : Q) (e : Z) : pow2 e <= x -> (e <= Qlog2 x)%Z.
Proof.
  intros H.
  assert (Hx : 0 < x) by (pose proof (pow2_pos e); lra).
  destruct (Qlog2_spec x Hx) as [_ L2].
  assert (A : (e < Qlog2 x + 1)%Z) by (apply pow2_lt_inv; lra).
  lia.
Qed.

Lemma Qabs_nonneg_eq (x : Q) : 0 <= x -> Qabs x = x.
Proof.
  destruct x as [a b]. unfold Qle. simpl. intros H.
  unfold Qabs. rewrite Z.abs_eq by lia. reflexivity.
Qed.

Lemma ulp_exponent_nonneg (x : Q) :
  0 <= x -> ulp_exponent x = Z.max (Qlog2 x - 52) (-1074).
Proof.
  intros H. unfold ulp_exponent. rewrite (Qabs_nonneg_eq x H). reflexivity.
Qed.

Lemma scaled_grid (z j k : Z) :
  (0 <= j)%Z ->
  inject_Z z * pow2 (k + j) * pow2 (- k) == inject_Z (z * 2 ^ j).
Proof.
  intros Hj. rewrite inject_Z_mult, <- (pow2_Z j Hj), pow2_add.
  pose proof (pow2_cancel k) as Hc.
  setoid_replace (inject_Z z * (pow2 k * pow2 j) * pow2 (- k))
    with (inject_Z z * pow2 j * (pow2 (- k) * pow2 k)) by ring.
  rewrite Hc. ring.
Qed.

Lemma grid_unscaled (z j k : Z) :
  (0 <= j)%Z ->
  inject_Z (z * 2 ^ j) * pow2 k == inject_Z z * pow2 (k + j).
Proof.
  intros Hj. rewrite inject_Z_mult, <- (pow2_Z j Hj), pow2_add. ring.
Qed.

(** [fl x] does not cross a multiple of a power of two that is at least
    the unit in the last place of [x]. *)
Lemma fl_le_grid (x : Q) (z j : Z) :
  (0 <= j)%Z ->
  x <= inject_Z z * pow2 (ulp_exponent x + j) ->
  fl x <= inject_Z z * pow2 (ulp_exponent x + j).
Proof.
  intros Hj H. unfold fl. set (k := ulp_exponent x) in *.
  rewrite <- (grid_unscaled z j k Hj).
  apply Qmult_le_compat_r; [|apply Qlt_le_weak, pow2_pos].
  rewrite <- Zle_Qle. apply rne_le_Z.
  rewrite <- (scaled_grid z j k Hj).
  apply Qmult_le_compat_r; [assumption|apply Qlt_le_weak, pow2_pos].
Qed.

Lemma fl_ge_grid (x : Q) (z j : Z) :
  (0 <= j)%Z ->
  inject_Z z * pow2 (ulp_exponent x + j) <= x ->
  inject_Z z * pow2 (ulp_exponent x + j) <= fl x.
Proof.
  intros Hj H. unfold fl. set (k := ulp_exponent x) in *.
  rewrite <- (grid_unscaled z j k Hj).
  apply Qmult_le_compat_r; [|apply Qlt_le_weak, pow2_pos].
  rewrite <- Zle_Qle. apply rne_ge_Z.
  rewrite <- (scaled_grid z j k Hj).
  apply Qmult_le_compat_r; [assumption|apply Qlt_le_weak, pow2_pos].
Qed.

Lemma fl_nonneg (x : Q) : 0 <= x -> 0 <= fl x.
Proof.
  intros H.
  pose proof (fl_ge_grid x 0 0 (Z.le_refl 0)) as G.
  setoid_replace (inject_Z 0 * pow2 (ulp_exponent x + 0)) with 0 in G
    by (change (inject_Z 0) with 0; ring).
  apply G. assumption.
Qed.

Lemma fl_zero (x : Q) : x == 0 -> fl x == 0.
Proof.
  intros H. unfold fl.
  assert (E0 : x * pow2 (- ulp_exponent x) == 0).
  { setoid_replace x with 0 at 1 by exact H. ring. }
  assert (E : rne (x * pow2 (- ulp_exponent x)) = 0%Z).
  { rewrite (rne_comp _ (inject_Z 0) E0). apply (rne_Z 0). }
  rewrite E. change (inject_Z 0) with 0. ring.
Qed.

Lemma fl_mono_pos (x y : Q) : 0 < x -> x <= y -> fl x <= fl y.
Proof.
  intros Hx Hxy.
  assert (Hy : 0 < y) by lra.
  pose proof (Qlog2_mono x y Hx Hxy) as Hl.
  pose proof (ulp_exponent_nonneg x (Qlt_le_weak _ _ Hx)) as Kx.
  pose proof (ulp_exponent_nonneg y (Qlt_le_weak _ _ Hy)) as Ky.
  destruct (Z.eq_dec (ulp_exponent x) (ulp_exponent y)) as [E|E].
  - unfold fl. rewrite E.
    apply Qmult_le_compat_r; [|apply Qlt_le_weak, pow2_pos].
    rewrite <- Zle_Qle. apply rne_mono.
    apply Qmult_le_compat_r; [assumption|apply Qlt_le_weak, pow2_pos].
  - assert (Hk : (ulp_exponent x < ulp_exponent y)%Z) by lia.
    assert (Ey : ulp_exponent y = (Qlog2 y - 52)%Z) by lia.
    destruct (Qlog2_spec x Hx) as [_ X2].
    destruct (Qlog2_spec y Hy) as [Y1 _].
    set (P := pow2 (Qlog2 y)).
    assert (HxP : x <= P).
    { apply Qle_trans with (pow2 (Qlog2 x + 1)); [lra|].
      apply pow2_le. lia. }
    apply Qle_trans with P.
    + pose proof (fl_le_grid x 1 (Qlog2 y - ulp_exponent x)) as G.
      replace (ulp_exponent x + (Qlog2 y - ulp_exponent x))%Z
        with (Qlog2 y) in G by lia.
      fold P in G.
      setoid_replace (inject_Z 1 * P) with P in G
        by (change (inject_Z 1) with 1; ring).
      apply G; [lia|assumption].
    + pose proof (fl_ge_grid y (2 ^ 52) 0 (Z.le_refl 0)) as G.
      assert (EP : inject_Z (2 ^ 52) * pow2 (ulp_exponent y + 0) == P).
      { unfold P. rewrite <- (pow2_Z 52) by lia. rewrite <- pow2_add.
        replace (52 + (ulp_exponent y + 0))%Z with (Qlog2 y) by lia.
        reflexivity. }
      rewrite EP in G. apply G. assumption.
Qed.

Lemma fl_mono (x y : Q) : 0 <= x -> x <= y -> fl x <= fl y.
Proof.
  intros Hx Hxy. destruct (Qlt_le_dec 0 x) as [Hp|Hz].
  - apply fl_mono_pos; assumption.
  - assert (E : x == 0) by lra.
    rewrite (fl_zero x E). apply fl_nonneg. lra.
Qed.

Lemma fl_comp (x y : Q) : 0 <= x -> x == y -> fl x == fl y.
Proof.
  intros Hx E. apply Qle_antisym; apply fl_mono; lra.
Qed.

(** A multiple of a power of two with at most 53 binary digits and an
    exponent the format has is its own rounding. *)
Lemma fl_exact (x : Q) (n k : Z) :
  (0 <= n <= 2 ^ 53)%Z -> (-1074 <= k)%Z ->
  x == inject_Z n * pow2 k -> fl x == x.
Proof.
  intros Hn Hk Hx.
  destruct (Z.eq_dec n 0) as [->|Hn0].
  - assert (E : x == 0) by (rewrite Hx; change (inject_Z 0) with 0; ring).
    rewrite (fl_zero x E), E. reflexivity.
  - assert (Hpos : 0 < x).
    { rewrite Hx. apply Qmult_lt_0_compat; [|apply pow2_pos].
      change 0 with (inject_Z 0). rewrite <- Zlt_Qlt. lia. }
    assert (Hu : (ulp_exponent x <= k + 1)%Z).
    { rewrite (ulp_exponent_nonneg x (Qlt_le_weak _ _ Hpos)).
      assert (Hlt : x < pow2 (k + 54)).
      { rewrite Hx. replace (k + 54)%Z with (54 + k)%Z by lia.
        rewrite pow2_add. apply Qmult_lt_r; [apply pow2_pos|].
        rewrite (pow2_Z 54) by lia. rewrite <- Zlt_Qlt. lia. }
      pose proof (Qlog2_lt x (k + 54) Hpos Hlt). lia. }
    destruct (Z_le_gt_dec (ulp_exponent x) k) as [Hle|Hgt].
    + apply Qle_antisym.
      * pose proof (fl_le_grid x n (k - ulp_exponent x)) as G.
        replace (ulp_exponent x + (k - ulp_exponent x))%Z with k in G by lia.
        rewrite <- Hx in G. apply G; [lia|apply Qle_refl].
      * pose proof (fl_ge_grid x n (k - ulp_exponent x)) as G.
        replace (ulp_exponent x + (k - ulp_exponent x))%Z with k in G by lia.
        rewrite <- Hx in G. apply G; [lia|apply Qle_refl].
    + (* the unit in the last place is [2 ^ (k + 1)]: then [n = 2 ^ 53] *)
      assert (Eu : ulp_exponent x = (k + 1)%Z) by lia.
      assert (Hn53 : n = (2 ^ 53)%Z).
      { rewrite (ulp_exponent_nonneg x (Qlt_le_weak _ _ Hpos)) in Eu.
        assert (Hl : (k + 53 <= Qlog2 x)%Z) by lia.
        destruct (Qlog2_spec x Hpos) as [L1 _].
        assert (Hge : pow2 (k + 53) <= x).
        { apply Qle_trans with (pow2 (Qlog2 x));
            [apply pow2_le; lia|exact L1]. }
        rewrite Hx in Hge. replace (k + 53)%Z with (53 + k)%Z in Hge by lia.
        rewrite pow2_add in Hge.
        apply Qmult_le_r in Hge; [|apply pow2_pos].
        rewrite (pow2_Z 53) in Hge by lia. rewrite <- Zle_Qle in Hge. lia. }
      assert (Hx' : x == inject_Z (2 ^ 52) * pow2 (ulp_exponent x + 0)).
      { rewrite Eu. rewrite Hx. rewrite Hn53.
        replace (k + 1 + 0)%Z with (1 + k)%Z by lia.
        rewrite pow2_add. rewrite <- (pow2_Z 53), <- (pow2_Z 52) by lia.
        change (pow2 53) with (2 * pow2 52). change (pow2 1) with 2. ring. }
      apply Qle_antisym.
      * pose proof (fl_le_grid x (2 ^ 52) 0 (Z.le_refl 0)) as G.
        rewrite <- Hx' in G. apply G. apply Qle_refl.
      * pose proof (fl_ge_grid x (2 ^ 52) 0 (Z.le_refl 0)) as G.
        rewrite <- Hx' in G. apply G. apply Qle_refl.
Qed.

(** The shape of a rounded value. *)
Lemma fl_shape (x : Q) :
  0 <= x ->
  exists n k, (0 <= n <= 2 ^ 53)%Z /\ (-1074 <= k)%Z /\
              fl x == inject_Z n * pow2 k.
Proof.
  intros Hx. exists (rne (x * pow2 (- ulp_exponent x))), (ulp_exponent x).
  split; [|split; [unfold ulp_exponent; lia|reflexivity]].
  split.
  - apply rne_ge_Z. change (inject_Z 0) with 0.
    apply Qmult_le_0_compat; [assumption|apply Qlt_le_weak, pow2_pos].
  - destruct (Qlt_le_dec 0 x) as [Hp|Hz].
    + apply rne_le_Z.
      destruct (Qlog2_spec x Hp) as [_ L2].
      rewrite (ulp_exponent_nonneg x Hx).
      set (k := Z.max (Qlog2 x - 52) (-1074)).
      apply Qle_trans with (pow2 (Qlog2 x + 1) * pow2 (- k)).
      * apply Qmult_le_compat_r; [lra|apply Qlt_le_weak, pow2_pos].
      * rewrite <- pow2_add, <- (pow2_Z 53) by lia. apply pow2_le. lia.
    + assert (E : x == 0) by lra.
      assert (E0 : x * pow2 (- ulp_exponent x) == 0).
      { setoid_replace x with 0 at 1 by exact E. ring. }
      rewrite (rne_comp _ (inject_Z 0) E0), (rne_Z 0). lia.
Qed.

Lemma fl_idempotent (x : Q) : 0 <= x -> fl (fl x) == fl x.
Proof.
  intros Hx. destruct (fl_shape x Hx) as (n & k & Hn & Hk & E).
  apply (fl_exact (fl x) n k Hn Hk E).
Qed.

Lemma fl_error (x : Q) :
  Qabs (fl x - x) <= (1 # 2) * pow2 (ulp_exponent x).
Proof.
  unfold fl. set (k := ulp_exponent x).
  pose proof (rne_error (x * pow2 (- k))) as H.
  pose proof (pow2_pos k) as Pk.
  pose proof (pow2_cancel k) as Hc.
  assert (E : inject_Z (rne (x * pow2 (- k))) * pow2 k - x ==
              (inject_Z (rne (x * pow2 (- k))) - x * pow2 (- k)) * pow2 k).
  { setoid_replace x with (x * (pow2 (- k) * pow2 k)) at 2
      by (rewrite Hc; ring). ring. }
  rewrite E, Qabs_Qmult, (Qabs_pos (pow2 k)) by (apply Qlt_le_weak; exact Pk).
  apply Qmult_le_compat_r; [exact H|apply Qlt_le_weak; exact Pk].
Qed.

Lemma round64_nonneg (x : Q) :
  0 <= x ->
  (round64 x = Finite (Qred (fl x)) /\ fl x < pow2 1024) \/
  (round64 x = Infinity false /\ pow2 1024 <= fl x).
Proof.
  intros Hx. pose proof (fl_nonneg x Hx) as Hf.
  assert (Hr : 0 <= Qred (fl x)) by (rewrite Qred_correct; exact Hf).
  unfold round64. cbv zeta. rewrite (Qabs_nonneg_eq _ Hr).
  destruct (Qle_bool (pow2 1024) (Qred (fl x))) eqn:E.
  - right. apply Qle_bool_iff in E. rewrite Qred_correct in E.
    split; [|exact E].
    assert (E0 : Qle_bool 0 (Qred (fl x)) = true)
      by (apply Qle_bool_iff; exact Hr).
    rewrite E0. reflexivity.
  - left. split; [reflexivity|].
    apply Qnot_le_lt. intros Hc.
    assert (E1 : Qle_bool (pow2 1024) (Qred (fl x)) = true)
      by (apply Qle_bool_iff; rewrite Qred_correct; exact Hc).
    congruence.
Qed.

Lemma round64_mono (x y : Q) :
  0 <= x -> x <= y -> Double.le (round64 x) (round64 y).
Proof.
  intros Hx Hxy. pose proof (fl_mono x y Hx Hxy) as Hm.
  destruct (round64_nonneg x Hx) as [[Ex Bx]|[Ex Bx]];
    (destruct (round64_nonneg y) as [[Ey By]|[Ey By]]; [lra| |]);
    rewrite Ex, Ey; cbn [Double.le]; try exact I.
  - rewrite !Qred_correct. exact Hm.
  - lra.
Qed.

Lemma Double_le_trans (a b c : number) :
  Double.le a b -> Double.le b c -> Double.le a c.
Proof.
  destruct a as [|[|]|x], b as [|[|]|y], c as [|[|]|z]; simpl;
    try tauto. apply Qle_trans.
Qed.

Lemma Double_le_compat_l (x x' : Q) (b : number) :
  x == x' -> Double.le (Finite x') b -> Double.le (Finite x) b.
Proof.
  intros E. destruct b as [|[|]|y]; simpl; try tauto. rewrite E. tauto.
Qed.

Lemma is_double_round64 (x : Q) (y : Q) :
  0 <= x -> round64 x = Finite y -> is_double y /\ y == fl x /\ 0 <= y.
Proof.
  intros Hx E. destruct (round64_nonneg x Hx) as [[E1 _]|[E1 _]];
    rewrite E1 in E; [|discriminate].
  inversion E. subst y.
  pose proof (fl_nonneg x Hx) as Hf.
  assert (Hq : Qred (fl x) == fl x) by apply Qred_correct.
  assert (Hr : 0 <= Qred (fl x)) by (rewrite Hq; exact Hf).
  split; [|split; [exact Hq|exact Hr]].
  unfold is_double.
  rewrite (fl_comp (Qred (fl x)) (fl x) Hr Hq), Hq.
  apply fl_idempotent. exact Hx.
Qed.

(** The largest double below one is [1 - 2^-53]. *)
Lemma double_below_one (r : Q) :
  is_double r -> 0 <= r -> r < 1 -> r <= 1 - pow2 (-53).
Proof.
  intros Hd H0 H1.
  assert (Hc : (1 # 2) <= 1 - pow2 (-53)) by (vm_compute; discriminate).
  destruct (Qlt_le_dec r (1 # 2)) as [Hs|Hl]; [lra|].
  assert (El : Qlog2 r = (-1)%Z).
  { apply Qlog2_unique; [exact Hl|exact H1]. }
  assert (Eu : ulp_exponent r = (-53)%Z).
  { rewrite (ulp_exponent_nonneg r H0), El. reflexivity. }
  unfold is_double, fl in Hd. rewrite Eu in Hd.
  set (n := rne (r * pow2 (- -53))) in Hd.
  assert (Hn : (n < 2 ^ 53)%Z).
  { rewrite Zlt_Qlt. rewrite <- (pow2_Z 53) by lia.
    apply Qmult_lt_r with (pow2 (-53)); [apply pow2_pos|].
    rewrite Hd.
    setoid_replace (pow2 53 * pow2 (-53)) with 1 by (vm_compute; reflexivity).
    exact H1. }
  rewrite <- Hd.
  assert (Hn' : (n <= 2 ^ 53 - 1)%Z) by lia.
  rewrite Zle_Qle in Hn'.
  assert (Ev : inject_Z (2 ^ 53 - 1) * pow2 (-53) == 1 - pow2 (-53))
    by (vm_compute; reflexivity).
  rewrite <- Ev.
  apply Qmult_le_compat_r; [exact Hn'|apply Qlt_le_weak, pow2_pos].
Qed.

Lemma jitter_range (r : Q) :
  is_double r -> 0 <= r -> r < 1 ->
  exists j,
    Double.mul (Finite r) (Finite 1000) = Finite j /\
    0 <= j /\ j < 1000 /\
    Qabs (j - r * 1000) <= pow2 (-44).
Proof.
  intros Hd H0 H1.
  pose proof (double_below_one r Hd H0 H1) as Hr.
  assert (Hx0 : 0 <= r * 1000) by lra.
  assert (Hxt : r * 1000 <= (1 - pow2 (-53)) * 1000) by lra.
  pose proof (fl_mono _ _ Hx0 Hxt) as Hm.
  assert (Ht : fl ((1 - pow2 (-53)) * 1000) < 1000)
    by (vm_compute; reflexivity).
  pose proof (fl_nonneg _ Hx0) as Hf.
  assert (Hbig : (1000 : Q) < pow2 1024) by (vm_compute; reflexivity).
  exists (Qred (fl (r * 1000))).
  assert (Hlt : fl (r * 1000) < 1000)
    by (apply Qle_lt_trans with (fl ((1 - pow2 (-53)) * 1000)); assumption).
  destruct (round64_nonneg _ Hx0) as [[E _]|[_ B]];
    [|exfalso; apply (Qlt_not_le _ _ Hbig);
      apply Qle_trans with (fl (r * 1000));
      [exact B|apply Qlt_le_weak; exact Hlt]].
  split; [exact E|]. rewrite Qred_correct.
  split; [exact Hf|]. split; [exact Hlt|].
  destruct (Qlt_le_dec 0 (r * 1000)) as [Hp|Hz].
  - apply Qle_trans with ((1 # 2) * pow2 (ulp_exponent (r * 1000)));
      [apply fl_error|].
    assert (Hl : (Qlog2 (r * 1000) < 10)%Z).
    { apply Qlog2_lt; [exact Hp|].
      assert (E10 : pow2 10 == 1024) by (vm_compute; reflexivity).
      rewrite E10. lra. }
    assert (Hu : (ulp_exponent (r * 1000) <= -43)%Z).
    { rewrite (ulp_exponent_nonneg _ Hx0). lia. }
    apply Qle_trans with ((1 # 2) * pow2 (-43)).
    + apply Qmult_le_l; [reflexivity|]. apply pow2_le. exact Hu.
    + vm_compute. discriminate.
  - assert (Ez : r * 1000 == 0) by lra.
    rewrite (fl_zero _ Ez), Ez.
    vm_compute. discriminate.
Qed.

Lemma round64_finite (x y : Q) :
  0 <= x -> round64 x = Finite y ->
  is_double y /\ 0 <= y /\ y < pow2 1024 /\ y == fl x.
Proof.
  intros Hx E. destruct (is_double_round64 x y Hx E) as (Hd & He & H0).
  destruct (round64_nonneg x Hx) as [[E1 B]|[E1 _]];
    rewrite E1 in E; [|discriminate].
  repeat split; try assumption. rewrite He. exact B.
Qed.

Lemma round64_double (y : Q) :
  is_double y -> 0 <= y -> y < pow2 1024 -> round64 y = Finite (Qred (fl y)).
Proof.
  intros Hd H0 Hlt. destruct (round64_nonneg y H0) as [[E _]|[_ B]];
    [exact E|]. exfalso. unfold is_double in Hd. rewrite Hd in B.
  apply (Qlt_not_le _ _ Hlt B).
Qed.

Lemma Double_le_refl (x : Q) : Double.le (Finite x) (Finite x).
Proof. simpl. apply Qle_refl. Qed.

Lemma Double_mul_mono (i : Q) (x y : number) :
  0 < i -> Double.le (Finite 1) x -> Double.le x y ->
  Double.le (Double.mul (Finite i) x) (Double.mul (Finite i) y).
Proof.
  intros Hi H1 Hxy.
  assert (Ez : Qeq_bool i 0 = false).
  { destruct (Qeq_bool i 0) eqn:E; [|reflexivity].
    apply Qeq_bool_iff in E. lra. }
  assert (Ep : Qle_bool 0 i = true) by (apply Qle_bool_iff; lra).
  destruct x as [|[|]|p], y as [|[|]|q]; simpl in H1, Hxy; try tauto.
  - simpl. rewrite Ez, Ep. exact I.
  - cbn [Double.mul]. rewrite Ez, Ep. cbn [xorb negb].
    destruct (round64_nonneg (i * p)) as [[E _]|[E _]]; [nra| |];
      rewrite E; exact I.
  - cbn [Double.mul]. apply round64_mono; nra.
Qed.

Lemma Double_min_mono (M : Q) (x y : number) :
  Double.le x y ->
  Double.le (Double.Math_min x (Finite M)) (Double.Math_min y (Finite M)).
Proof.
  intros Hxy.
  destruct x as [|[|]|p], y as [|[|]|q]; simpl in Hxy; try tauto; simpl;
    try exact I; try apply Qle_refl.
  - destruct (Qle_bool q M); exact I.
  - destruct (Qle_bool p M) eqn:E; simpl; [apply Qle_bool_iff; exact E|].
    apply Qle_refl.
  - destruct (Qle_bool p M) eqn:Ep, (Qle_bool q M) eqn:Eq; simpl;
      try assumption; try apply Qle_refl.
    + apply Qle_bool_iff. exact Ep.
    + exfalso. apply Qle_bool_iff in Eq.
      assert (Hc : Qle_bool p M = true) by (apply Qle_bool_iff; lra).
      congruence.
Qed.

(** The capped product is a finite double, at most the cap. *)
Lemma capped_finite (i M : Q) (x : number) :
  0 < i -> is_double M -> 0 <= M ->
  Double.le (Finite 1) x ->
  exists b,
    Double.Math_min (Double.mul (Finite i) x) (Finite M) = Finite b /\
    0 <= b /\ b <= M /\ is_double b.
Proof.
  intros Hi HM HM0 H1.
  assert (Ez : Qeq_bool i 0 = false).
  { destruct (Qeq_bool i 0) eqn:E; [|reflexivity].
    apply Qeq_bool_iff in E. lra. }
  assert (Ep : Qle_bool 0 i = true) by (apply Qle_bool_iff; lra).
  destruct x as [|[|]|p]; simpl in H1; try tauto.
  - exists M. cbn [Double.mul]. rewrite Ez, Ep. cbn [xorb negb Double.Math_min].
    repeat split; try assumption. apply Qle_refl.
  - cbn [Double.mul].
    assert (Hip : 0 <= i * p) by nra.
    destruct (round64_nonneg (i * p) Hip) as [[E _]|[E _]]; rewrite E.
    + destruct (round64_finite (i * p) _ Hip E) as (Hd & H0 & _ & _).
      cbn [Double.Math_min].
      destruct (Qle_bool (Qred (fl (i * p))) M) eqn:Eb.
      * exists (Qred (fl (i * p))). apply Qle_bool_iff in Eb.
        repeat split; assumption.
      * exists M. repeat split; try assumption. apply Qle_refl.
    + exists M. cbn [Double.Math_min].
      repeat split; try assumption. apply Qle_refl.
Qed.

Lemma fl_nonpos (x : Q) : x <= 0 -> fl x <= 0.
Proof.
  intros H.
  pose proof (fl_le_grid x 0 0 (Z.le_refl 0)) as G.
  setoid_replace (inject_Z 0 * pow2 (ulp_exponent x + 0)) with 0 in G
    by (change (inject_Z 0) with 0; ring).
  apply G. assumption.
Qed.

Lemma round64_positive (x i : Q) :
  round64 x = Finite i -> 0 < i -> 0 <= x.
Proof.
  intros E Hi. destruct (Qlt_le_dec x 0) as [Hneg|Hpos]; [exfalso|exact Hpos].
  pose proof (fl_nonpos x (Qlt_le_weak _ _ Hneg)) as Hf.
  unfold round64 in E. cbv zeta in E.
  destruct (Qle_bool (pow2 1024) (Qabs (Qred (fl x)))); [discriminate|].
  assert (Ei : Qred (fl x) = i) by congruence.
  rewrite <- Ei, Qred_correct in Hi.
  apply (Qlt_not_le _ _ Hi Hf).
Qed.

(** A product or sum whose exact value is a double is that double. *)
Lemma round64_exact (x i : Q) (y : Q) :
  round64 x = Finite i -> 0 < i -> y == i -> round64 y = Finite i.
Proof.
  intros E Hi Hy.
  pose proof (round64_positive x i E Hi) as Hx.
  destruct (round64_finite x i Hx E) as (Hd & H0 & Hlt & _).
  assert (Hy0 : 0 <= y) by (rewrite Hy; exact H0).
  assert (Hfy : fl y == i).
  { rewrite (fl_comp y i Hy0 Hy). exact Hd. }
  destruct (round64_nonneg y Hy0) as [[Ey _]|[_ B]].
  - rewrite Ey. f_equal.
    destruct (round64_nonneg x Hx) as [[Ex _]|[Ex _]];
      rewrite Ex in E; [|discriminate].
    assert (Ei : Qred (fl x) = i) by congruence.
    rewrite (Qred_complete (fl y) i Hfy).
    rewrite <- Ei. apply Qred_complete, Qred_correct.
  - exfalso. rewrite Hfy in B. apply (Qlt_not_le _ _ Hlt B).
Qed.

(** ** Backoff in double precision *)

Section Backoff64.

Variable Math_pow : number -> number -> number.

Lemma baseDelay_power (n : nat) :
  (1 <= n)%nat ->
  Double.baseDelay Math_pow cfg n =
  Double.Math_min
    (Double.mul (round64 (INITIAL_RETRY_DELAY_MS cfg))
       (Double.power Math_pow cfg (n - 1)))
    (round64 (MAX_RETRY_DELAY_MS cfg)).
Proof.
  intros Hn. unfold Double.baseDelay, Double.power.
  replace (Z.of_nat n - 1)%Z with (Z.of_nat (n - 1)) by lia. reflexivity.
Qed.

Section Bounds.

Variable m : nat.
Hypothesis pow_zero : Double.power Math_pow cfg 0 = Finite 1.
Hypothesis pow_mono :
  forall k, (S k < m)%nat ->
  Double.le (Double.power Math_pow cfg k) (Double.power Math_pow cfg (S k)).

Lemma power_ge_one (k : nat) :
  (k < m)%nat -> Double.le (Finite 1) (Double.power Math_pow cfg k).
Proof.
  induction k as [|k IH]; intros Hk.
  - rewrite pow_zero. apply Double_le_refl.
  - apply Double_le_trans with (Double.power Math_pow cfg k);
      [apply IH; lia|apply pow_mono; lia].
Qed.

Lemma power_mono (a b : nat) :
  (a <= b)%nat -> (b < m)%nat ->
  Double.le (Double.power Math_pow cfg a) (Double.power Math_pow cfg b).
Proof.
  intros Hab. induction Hab as [|b Hab IH]; intros Hb.
  - pose proof (power_ge_one a Hb) as H.
    destruct (Double.power Math_pow cfg a) as [|[|]|p];
      simpl in H |- *; try tauto.
    apply Qle_refl.
  - apply Double_le_trans with (Double.power Math_pow cfg b);
      [apply IH; lia|apply pow_mono; lia].
Qed.

End Bounds.


End Backoff64.

Set Implicit Arguments.

(** ** The error path *)

Lemma timers_ok_iff (w : World) :
  timers_ok w = true <->
  forall t, In t (pending w) -> owner w (kind t) = Some (tid t).
Proof.
  unfold timers_ok, owned. rewrite forallb_forall.
  split; intros H t Hin; specialize (H t Hin).
  - destruct (owner w (kind t)); [|discriminate].
    apply Nat.eqb_eq in H. congruence.
  - rewrite H. apply Nat.eqb_refl.
Qed.

Lemma failures_app (w : World) (l : list Event) (v : World) :
  emitted v = emitted w ++ l ->
  failures v = (failures w + List.length (filter is_connection_error l))%nat.
Proof.
  intros H. unfold failures. rewrite H, filter_app, length_app. reflexivity.
Qed.

Lemma reconnectsScheduled_app (w v : World) (k : TimerKind) (d : Q) :
  scheduled v = scheduled w ++ [(k, d)] ->
  reconnectsScheduled v =
  (reconnectsScheduled w + if kind_eqb k ReconnectTimer then 1 else 0)%nat.
Proof.
  intros H. unfold reconnectsScheduled.
  rewrite H, filter_app, length_app. simpl.
  destruct (kind_eqb k ReconnectTimer); reflexivity.
Qed.

(** Every call of [handleError] in a leak-free world is a failure turn. *)
Lemma handleError_failure (error : Thrown) (r : Q) (w : World) :
  timers_ok w = true -> failure_step r w (handleError error r w).
Proof.
  intros Hok. unfold failure_step, handleError.
  rewrite scheduleReconnect_nf. nf.
  rewrite (unref_all_nil w Hok).
  destruct (Nat.leb (MAX_RETRIES cfg) (reconnectAttempts w)) eqn:E.
  - nf. unfold failures, reconnectsScheduled. simpl.
    destruct (state_eqb (state w) fallback);
      repeat rewrite filter_app; repeat rewrite length_app; simpl;
      repeat split; lia.
  - nf. unfold failures, reconnectsScheduled. simpl.
    destruct (state_eqb (state w) reconnecting);
      repeat rewrite filter_app; repeat rewrite length_app; simpl;
      repeat split; try lia; eexists; repeat split.
Qed.

(** ** The invariant is kept by every turn *)

Lemma quiet_refl (w : World) : quiet_step w w.
Proof. repeat split. Qed.

Lemma quiet_trans (w w1 w2 : World) :
  quiet_step w w1 -> quiet_step w1 w2 -> quiet_step w w2.
Proof. unfold quiet_step. intuition congruence. Qed.

Lemma failure_after_quiet (r : Q) (w w1 w' : World) :
  quiet_step w w1 -> failure_step r w1 w' -> failure_step r w w'.
Proof.
  unfold quiet_step, failure_step. intros (Ha & Hf & Hs) [H1 H2].
  rewrite Ha, Hf, Hs in *. split; assumption.
Qed.

Ltac old_timer Hok t Hin :=
  let H := fresh in
  pose proof (proj1 (timers_ok_iff _) Hok t Hin) as H;
  destruct (kind t); simpl in *; congruence.

Lemma timers_ok_clearTimeout (id : nat) (w : World) :
  timers_ok w = true -> timers_ok (clearTimeout id w) = true.
Proof.
  intros Hok. apply timers_ok_iff. intros t Hin.
  unfold clearTimeout in *. simpl in *. apply filter_In in Hin.
  destruct Hin as [Hin _]. old_timer Hok t Hin.
Qed.

Lemma timers_ok_setState (s : SSEConnectionState) (w : World) :
  timers_ok (setState s w) = timers_ok w.
Proof. rewrite setState_nf. reflexivity. Qed.

Lemma timers_ok_clearTimers (w : World) :
  timers_ok w = true -> timers_ok (clearTimers w) = true.
Proof.
  intros Hok. unfold timers_ok. rewrite clearTimers_pending by assumption.
  reflexivity.
Qed.

Lemma timers_ok_handleError (error : Thrown) (r : Q) (w : World) :
  timers_ok w = true -> timers_ok (handleError error r w) = true.
Proof.
  intros Hok. unfold handleError. rewrite scheduleReconnect_nf. nf.
  rewrite (unref_all_nil w Hok).
  destruct (Nat.leb (MAX_RETRIES cfg) (reconnectAttempts w)); nf.
  - reflexivity.
  - unfold timers_ok, owned. simpl. rewrite Nat.eqb_refl. reflexivity.
Qed.

Lemma timers_ok_resetHeartbeatMonitor (w : World) :
  timers_ok w = true -> timers_ok (resetHeartbeatMonitor w) = true.
Proof.
  intros Hok. apply timers_ok_iff. nf. intros t Hin.
  apply in_app_iff in Hin. destruct Hin as [Hin|[Heq|[]]].
  - apply In_unref in Hin. destruct Hin as [Hin Hne]. old_timer Hok t Hin.
  - subst t. reflexivity.
Qed.

Lemma timers_ok_onopen (w : World) :
  timers_ok w = true -> timers_ok (onopen w) = true.
Proof.
  intros Hok. unfold onopen. destruct (state w); try assumption.
  apply timers_ok_iff. nf. intros t Hin.
  apply in_app_iff in Hin. destruct Hin as [Hin|[Heq|[]]].
  - rewrite !In_unref in Hin. destruct Hin as [[Hin Hc] Hh].
    old_timer Hok t Hin.
  - subst t. reflexivity.
Qed.

Lemma timers_ok_connect (env : Env) (w : World) :
  timers_ok w = true -> timers_ok (world_of (connect env w)) = true.
Proof.
  intros Hok. unfold connect.
  destruct (negb (EventSourceClass w) && negb (importOk env));
    [assumption|].
  set (w0 := if EventSourceClass w then w else set_EventSourceClass true w).
  assert (Hok0 : timers_ok w0 = true).
  { unfold w0. destruct (EventSourceClass w); assumption. }
  clearbody w0.
  destruct (state w0) eqn:Es; try assumption;
    (destruct (construct env);
     [ apply timers_ok_handleError, timers_ok_clearTimers;
       rewrite timers_ok_setState; assumption
     | simpl; unfold timers_ok, owned; nf;
       rewrite (unref_all_nil w0 Hok0); simpl;
       rewrite Nat.eqb_refl; reflexivity ]).
Qed.

Lemma timers_ok_disconnect (w : World) :
  timers_ok w = true -> timers_ok (disconnect w) = true.
Proof.
  intros Hok. unfold timers_ok, disconnect. nf.
  rewrite (unref_all_nil w Hok). reflexivity.
Qed.

Lemma grown_refl (w : World) : grown w w.
Proof.
  exists []. split; [|reflexivity].
  destruct w; simpl; rewrite app_nil_r; reflexivity.
Qed.

Lemma spec_sessionEvents_no_error (n : json) :
  filter is_connection_error (spec_sessionEvents n) = [].
Proof.
  unfold spec_sessionEvents.
  destruct (js_get "state" n) as [[[]|]|]; try reflexivity.
  simpl.
  repeat match goal with
         | |- context [String.eqb ?a ?b] => destruct (String.eqb a b)
         end; reflexivity.
Qed.

Lemma handlePlaySessionNotification_grown
    (n : json) (ty : option json) (w : World) :
  match handlePlaySessionNotification n ty w with
  | Normal w' | Throw w' => grown w w'
  end.
Proof.
  rewrite handlePlaySessionNotification_spec.
  destruct (js_get "state" n); [|apply grown_refl].
  exists (spec_sessionEvents n). split; [reflexivity|].
  apply spec_sessionEvents_no_error.
Qed.

Lemma grown_trans (w w1 w2 : World) : grown w w1 -> grown w1 w2 -> grown w w2.
Proof.
  intros (l1 & H1 & F1) (l2 & H2 & F2). exists (l1 ++ l2). split.
  - subst. simpl. rewrite app_assoc. reflexivity.
  - rewrite filter_app, F1, F2. reflexivity.
Qed.

Lemma forEachNotification_grown
    (items : list json) (ty : option json) (w : World) :
  match forEachNotification items ty w with
  | Normal w' | Throw w' => grown w w'
  end.
Proof.
  revert w. induction items as [|n items IH]; intros w; simpl.
  - apply grown_refl.
  - pose proof (handlePlaySessionNotification_grown n ty w) as H.
    destruct (handlePlaySessionNotification n ty w) as [w1|w1];
      [|assumption].
    specialize (IH w1).
    destruct (forEachNotification items ty w1);
      eapply grown_trans; eassumption.
Qed.

Lemma dispatchMessage_grown (data : string) (w : World) :
  match dispatchMessage data w with
  | Normal w' | Throw w' => grown w w'
  end.
Proof.
  unfold dispatchMessage.
  destruct (JSON_parse data) as [d|]; [|apply grown_refl].
  destruct (js_in "PlaySessionStateNotification" d) as [direct|];
    [|apply grown_refl].
  match goal with |- context [if ?c then _ else _] => destruct c end.
  - destruct (js_get "PlaySessionStateNotification" d) as [[n|]|];
      try apply grown_refl.
    apply handlePlaySessionNotification_grown.
  - destruct (js_get "NotificationContainer" d) as [container|];
      [|apply grown_refl].
    simpl.
    destruct (truthy (js_get_opt "PlaySessionStateNotification" container));
      [|apply grown_refl].
    apply forEachNotification_grown.
Qed.

Lemma handleMessage_grown (data : string) (w : World) :
  grown (resetHeartbeatMonitor (set_lastEventTime (Some (clock w)) w))
        (handleMessage data w).
Proof.
  unfold handleMessage.
  destruct (String.eqb data ""); [apply grown_refl|].
  match goal with |- context [dispatchMessage data ?v] =>
    pose proof (dispatchMessage_grown data v) as H;
    destruct (dispatchMessage data v)
  end; assumption.
Qed.

Lemma timers_ok_handleMessage (data : string) (w : World) :
  timers_ok w = true -> timers_ok (handleMessage data w) = true.
Proof.
  intros Hok. destruct (handleMessage_grown data w) as (l & H & _).
  rewrite H.
  change (timers_ok
            (resetHeartbeatMonitor (set_lastEventTime (Some (clock w)) w))
          = true).
  apply timers_ok_resetHeartbeatMonitor. assumption.
Qed.

Lemma step_timers_ok (env : Env) (w w' : World) (i : Input) :
  timers_ok w = true -> step env w i = Some w' -> timers_ok w' = true.
Proof.
  intros Hok Hs. destruct i; simpl in Hs.
  - inversion Hs. apply timers_ok_connect. assumption.
  - inversion Hs. apply timers_ok_disconnect. assumption.
  - destruct (eventSource w); inversion Hs.
    apply timers_ok_onopen. assumption.
  - destruct (eventSource w); inversion Hs.
    apply timers_ok_handleError. assumption.
  - destruct (eventSource w); [|discriminate].
    destruct (listening ch w); inversion Hs.
    destruct ch;
      solve [ apply timers_ok_handleMessage; assumption
            | apply timers_ok_resetHeartbeatMonitor; assumption ].
  - destruct (find_timer id w) as [t|]; [|discriminate].
    destruct (Qle_bool (due t) (clock w)); inversion Hs.
    pose proof (timers_ok_clearTimeout id w Hok) as Hok1.
    unfold reconnectTimerCallback, heartbeatTimerCallback,
      connectionTimerCallback.
    destruct (kind t); destruct (state (clearTimeout id w));
      solve [ assumption
            | apply timers_ok_connect; assumption
            | apply timers_ok_handleError; assumption ].
  - destruct (Qle_bool (clock w) t); inversion Hs. assumption.
Qed.

Lemma class_ok_handleError (error : Thrown) (r : Q) (w : World) :
  class_ok (handleError error r w) = true.
Proof.
  unfold class_ok, handleError. rewrite scheduleReconnect_nf. nf.
  destruct (Nat.leb (MAX_RETRIES cfg) (reconnectAttempts w)); nf; reflexivity.
Qed.

Lemma class_ok_connect (env : Env) (w : World) :
  class_ok w = true -> class_ok (world_of (connect env w)) = true.
Proof.
  intros Hok. unfold connect.
  destruct (EventSourceClass w) eqn:Ec; simpl.
  - destruct (state w) eqn:Es; try assumption;
      (destruct (construct env);
       [ apply class_ok_handleError
       | unfold class_ok; simpl; nf; assumption ]).
  - destruct (importOk env); simpl; [|assumption].
    unfold class_ok in Hok.
    destruct (state w) eqn:Es; try congruence;
      (destruct (construct env);
       [ apply class_ok_handleError
       | unfold class_ok; simpl; nf; reflexivity ]).
Qed.

Lemma class_ok_grown (w w' : World) :
  grown w w' -> class_ok w' = class_ok w.
Proof. intros (l & H & _). subst. reflexivity. Qed.

Lemma step_class_ok (env : Env) (w w' : World) (i : Input) :
  class_ok w = true -> step env w i = Some w' -> class_ok w' = true.
Proof.
  intros Hok Hs. destruct i; simpl in Hs.
  - inversion Hs. apply class_ok_connect. assumption.
  - inversion Hs. unfold class_ok, disconnect. nf. reflexivity.
  - destruct (eventSource w); inversion Hs.
    unfold class_ok, onopen in *.
    destruct (state w) eqn:Es; try (rewrite Es; assumption).
    nf. assumption.
  - destruct (eventSource w); inversion Hs. apply class_ok_handleError.
  - destruct (eventSource w); [|discriminate].
    destruct (listening ch w); inversion Hs.
    destruct ch;
      try (rewrite (class_ok_grown (handleMessage_grown data w)));
      unfold class_ok in *; nf; assumption.
  - destruct (find_timer id w) as [t|]; [|discriminate].
    destruct (Qle_bool (due t) (clock w)); inversion Hs.
    assert (Hok1 : class_ok (clearTimeout id w) = true) by assumption.
    unfold reconnectTimerCallback, heartbeatTimerCallback,
      connectionTimerCallback.
    destruct (kind t); destruct (state (clearTimeout id w)) eqn:Es;
      solve [ assumption
            | apply class_ok_connect; assumption
            | apply class_ok_handleError ].
  - destruct (Qle_bool (clock w) t); inversion Hs. assumption.
Qed.

Lemma step_wf (env : Env) (w w' : World) (i : Input) :
  wf w = true -> step env w i = Some w' -> wf w' = true.
Proof.
  unfold wf. intros H Hs. apply andb_true_iff in H. destruct H as [H1 H2].
  apply andb_true_iff. split.
  - eapply step_timers_ok; eassumption.
  - eapply step_class_ok; eassumption.
Qed.

Lemma run_wf (tr : list (Env * Input)) (w w' : World) :
  wf w = true -> run tr w = Some w' -> wf w' = true.
Proof.
  revert w. induction tr as [|[env i] tr IH]; intros w Hwf Hr; simpl in Hr.
  - inversion Hr. subst. assumption.
  - destruct (step env w i) as [w1|] eqn:Es; [|discriminate].
    apply (IH w1); [|assumption]. eapply step_wf; eassumption.
Qed.

Lemma new_client_wf (loaded : bool) (t0 : Q) : wf (new_client loaded t0) = true.
Proof. reflexivity. Qed.

(** ** Every turn is quiet, a failure, or the opening *)

Lemma quiet_grown (w w' : World) : grown w w' -> quiet_step w w'.
Proof.
  intros (l & H & F). subst. unfold quiet_step, failures. simpl.
  rewrite filter_app, F, app_nil_r. repeat split.
Qed.

Lemma quiet_clearTimeout (id : nat) (w : World) :
  quiet_step w (clearTimeout id w).
Proof. repeat split. Qed.

Lemma quiet_resetHeartbeatMonitor (w : World) :
  quiet_step w (resetHeartbeatMonitor w).
Proof.
  unfold quiet_step, failures, reconnectsScheduled. nf.
  rewrite filter_app, length_app. simpl. repeat split. lia.
Qed.

Lemma quiet_handleMessage (data : string) (w : World) :
  quiet_step w (handleMessage data w).
Proof.
  eapply quiet_trans; [|apply quiet_grown, handleMessage_grown].
  eapply quiet_trans; [|apply quiet_resetHeartbeatMonitor].
  repeat split.
Qed.

Lemma quiet_disconnect (w : World) : quiet_step w (disconnect w).
Proof.
  unfold quiet_step, failures, disconnect. nf.
  destruct (state_eqb (state w) disconnected);
    rewrite ?filter_app, ?length_app; simpl; repeat split; lia.
Qed.

Lemma onopen_kind (w : World) :
  quiet_step w (onopen w) \/ open_step w (onopen w).
Proof.
  unfold onopen. destruct (state w) eqn:Es; try (left; apply quiet_refl).
  right. unfold open_step, failures, reconnectsScheduled. nf.
  rewrite Es. simpl.
  rewrite !filter_app, !length_app. simpl. repeat split; lia.
Qed.

Lemma connect_kind (env : Env) (w : World) :
  timers_ok w = true ->
  quiet_step w (world_of (connect env w)) \/
  failure_step (random env) w (world_of (connect env w)).
Proof.
  intros Hok. unfold connect.
  destruct (negb (EventSourceClass w) && negb (importOk env));
    [left; apply quiet_refl|].
  set (w0 := if EventSourceClass w then w else set_EventSourceClass true w).
  assert (Hq0 : quiet_step w w0).
  { unfold w0. destruct (EventSourceClass w); repeat split. }
  assert (Hok0 : timers_ok w0 = true).
  { unfold w0. destruct (EventSourceClass w); assumption. }
  clearbody w0.
  assert (Hq1 : quiet_step w0 (clearTimers (setState connecting w0))).
  { unfold quiet_step, failures. nf.
    destruct (state_eqb (state w0) connecting);
      rewrite ?filter_app, ?length_app; simpl; repeat split; lia. }
  assert (Hok1 : timers_ok (clearTimers (setState connecting w0)) = true).
  { apply timers_ok_clearTimers. rewrite timers_ok_setState. assumption. }
  destruct (state w0) eqn:Es; try (left; assumption);
    (destruct (construct env) as [error|];
     [ right; eapply failure_after_quiet;
       [ eapply quiet_trans; eassumption
       | apply handleError_failure; assumption ]
     | left; eapply quiet_trans; [eassumption|];
       eapply quiet_trans; [eassumption|];
       simpl; unfold quiet_step, failures, reconnectsScheduled; nf;
       rewrite !filter_app, !length_app; simpl; repeat split; lia ]).
Qed.

Lemma step_kinds (env : Env) (w w' : World) (i : Input) :
  timers_ok w = true -> step env w i = Some w' ->
  quiet_step w w' \/
  failure_step (random env) w w' \/
  (i = TransportOpen /\ open_step w w').
Proof.
  intros Hok Hs. destruct i; simpl in Hs.
  - inversion Hs. destruct (connect_kind env w Hok); auto.
  - inversion Hs. left. apply quiet_disconnect.
  - destruct (eventSource w); inversion Hs.
    destruct (onopen_kind w); auto.
  - destruct (eventSource w); inversion Hs.
    right; left. apply handleError_failure. assumption.
  - destruct (eventSource w); [|discriminate].
    destruct (listening ch w); inversion Hs. left.
    destruct ch;
      solve [ apply quiet_handleMessage | apply quiet_resetHeartbeatMonitor ].
  - destruct (find_timer id w) as [t|]; [|discriminate].
    destruct (Qle_bool (due t) (clock w)); inversion Hs.
    pose proof (timers_ok_clearTimeout id w Hok) as Hok1.
    pose proof (quiet_clearTimeout id w) as Hq.
    unfold reconnectTimerCallback, heartbeatTimerCallback,
      connectionTimerCallback.
    destruct (kind t); destruct (state (clearTimeout id w));
      try (left; assumption).
    all: try (destruct (connect_kind env (clearTimeout id w) Hok1) as [H|H];
              [ left; exact H | right; left; exact H ]).
    all: right; left; exact (@handleError_failure _ _ _ Hok1).
  - destruct (Qle_bool (clock w) t); inversion Hs. left. repeat split.
Qed.

(** C7. A message whose body is not parsable JSON emits nothing (no
    session event, no [connection:error]) and leaves the connection
    alone: same state, same live transport, same counters, same last
    error, nothing closed. It still counts as a sign of life. *)
Theorem unparsable_message_is_dropped :
  forall (data : string) (w : World),
  JSON_parse data = None ->
  emitted (handleMessage data w) = emitted w /\
  state (handleMessage data w) = state w /\
  eventSource (handleMessage data w) = eventSource w /\
  closed (handleMessage data w) = closed w /\
  reconnectAttempts (handleMessage data w) = reconnectAttempts w /\
  lastError (handleMessage data w) = lastError w /\
  failures (handleMessage data w) = failures w /\
  lastEventTime (handleMessage data w) = Some (clock w) /\
  (forall env ch w',
     step env w (TransportEvent ch data) = Some w' ->
     emitted w' = emitted w /\ state w' = state w /\
     eventSource w' = eventSource w) /\
  (forall data',
     state (handleMessage data' w) = state w /\
     eventSource (handleMessage data' w) = eventSource w /\
     failures (handleMessage data' w) = failures w).
Proof.
  intros data w Hp.
  assert (Hm : handleMessage data w =
               resetHeartbeatMonitor (set_lastEventTime (Some (clock w)) w)).
  { unfold handleMessage, dispatchMessage. rewrite Hp.
    destruct (String.eqb data ""); reflexivity. }
  assert (Hany : forall data',
     state (handleMessage data' w) = state w /\
     eventSource (handleMessage data' w) = eventSource w /\
     failures (handleMessage data' w) = failures w).
  { intros data'. destruct (quiet_handleMessage data' w) as (_ & Hf & _).
    destruct (handleMessage_grown data' w) as (l & H & _).
    rewrite H at 1 2. nf. auto. }
  repeat split; try (rewrite Hm; unfold failures; nf; reflexivity);
    try apply Hany.
  all: intros; unfold step in *; destruct (eventSource w) eqn:Ee;
    try discriminate; destruct (listening ch w); try discriminate;
    match goal with H : Some _ = Some _ |- _ => inversion H; subst; clear H end;
    destruct ch; try rewrite Hm; nf; try reflexivity; congruence.
Qed.

(** ** Counting failures along a run *)

Lemma run_timers_ok (tr : list (Env * Input)) (w w' : World) :
  timers_ok w = true -> run tr w = Some w' -> timers_ok w' = true.
Proof.
  revert w. induction tr as [|[env i] tr IH]; intros w Hok Hr; simpl in Hr.
  - inversion Hr. subst. assumption.
  - destruct (step env w i) as [w1|] eqn:Es; [|discriminate].
    apply (IH w1); [|assumption]. eapply step_timers_ok; eassumption.
Qed.

Lemma run_counts (tr : list (Env * Input)) (w0 w : World) :
  timers_ok w0 = true ->
  (reconnectAttempts w0 <= MAX_RETRIES cfg)%nat ->
  no_open tr -> run tr w0 = Some w ->
  (failures w0 <= failures w)%nat /\
  reconnectAttempts w =
    Nat.min (reconnectAttempts w0 + (failures w - failures w0))
            (MAX_RETRIES cfg) /\
  reconnectsScheduled w =
    (reconnectsScheduled w0 + (reconnectAttempts w - reconnectAttempts w0))%nat.
Proof.
  intros Hok Hle Hno. revert w0 Hok Hle.
  induction Hno as [|[env i] tr Hi Hno IH]; intros w0 Hok Hle Hr;
    simpl in Hr.
  - inversion Hr. subst. repeat split; lia.
  - destruct (step env w0 i) as [w1|] eqn:Es; [|discriminate].
    pose proof (@step_timers_ok _ _ _ _ Hok Es) as Hok1.
    destruct (@step_kinds _ _ _ _ Hok Es) as [Hq|[Hf|[Ho _]]].
    + destruct Hq as (Ha & Hf & Hs).
      destruct (IH w1 Hok1 ltac:(lia) Hr) as (H1 & H2 & H3).
      rewrite Ha, Hf, Hs in *. repeat split; assumption.
    + destruct Hf as [Hf Hpost].
      destruct (Nat.leb_spec (MAX_RETRIES cfg) (reconnectAttempts w0)).
      * destruct Hpost as (_ & Ha & _ & Hs).
        destruct (IH w1 Hok1 ltac:(lia) Hr) as (H1 & H2 & H3).
        repeat split; lia.
      * destruct Hpost as (_ & Ha & _ & Hs).
        destruct (IH w1 Hok1 ltac:(lia) Hr) as (H1 & H2 & H3).
        repeat split; lia.
    + simpl in Hi. contradiction.
Qed.

(** C1 (as the code has it). Start from a zero counter and let the
    transport never open. After [k] failures the counter and the number
    of reconnect timers scheduled are both [min k MAX_RETRIES]. The next
    failure, number [k + 1], leads to [reconnecting] with exactly one
    reconnect timer pending when [k < MAX_RETRIES], and to [fallback]
    with nothing pending and nothing scheduled when [k >= MAX_RETRIES]:
    [fallback] is entered by failure number [MAX_RETRIES + 1], after
    exactly [MAX_RETRIES] reconnects were scheduled. *)
Theorem fallback_on_failure_after_max_retries :
  forall (tr : list (Env * Input)) (w0 w : World),
  wf w0 = true ->
  reconnectAttempts w0 = 0%nat ->
  no_open tr ->
  run tr w0 = Some w ->
  let k := (failures w - failures w0)%nat in
  reconnectAttempts w = Nat.min k (MAX_RETRIES cfg) /\
  (reconnectsScheduled w - reconnectsScheduled w0)%nat =
    Nat.min k (MAX_RETRIES cfg) /\
  (forall env i w',
     step env w i = Some w' -> failures w' = S (failures w) ->
     if Nat.ltb k (MAX_RETRIES cfg) then
       state w' = reconnecting /\
       (exists t, pending w' = [t] /\ kind t = ReconnectTimer) /\
       reconnectsScheduled w' = S (reconnectsScheduled w)
     else
       state w' = fallback /\ pending w' = [] /\
       reconnectsScheduled w' = reconnectsScheduled w).
Proof.
  intros tr w0 w Hwf Ha0 Hno Hr k.
  apply andb_true_iff in Hwf. destruct Hwf as [Hok _].
  assert (Hle : (reconnectAttempts w0 <= MAX_RETRIES cfg)%nat) by lia.
  destruct (@run_counts tr w0 w Hok Hle Hno Hr) as (H1 & H2 & H3).
  rewrite Ha0 in H2, H3. simpl in H2.
  fold k in H2. split; [assumption|]. split; [lia|].
  intros env i w' Hs Hfail.
  pose proof (@run_timers_ok tr w0 w Hok Hr) as Hokw.
  destruct (@step_kinds _ _ _ _ Hokw Hs) as [Hq|[Hf|[_ Ho]]].
  - destruct Hq as (_ & Hf & _). lia.
  - destruct Hf as [_ Hpost].
    destruct (Nat.ltb_spec k (MAX_RETRIES cfg));
      destruct (Nat.leb_spec (MAX_RETRIES cfg) (reconnectAttempts w));
      try lia.
    + destruct Hpost as (Hst & _ & (t & Hp & Hk & _) & Hs').
      repeat split; try assumption. exists t. split; assumption.
    + destruct Hpost as (Hst & _ & Hp & Hs'). repeat split; assumption.
  - destruct Ho as (_ & _ & _ & Hf & _). lia.
Qed.

Lemma run_failures_mono (tr : list (Env * Input)) (w w' : World) :
  timers_ok w = true -> run tr w = Some w' ->
  (failures w <= failures w')%nat.
Proof.
  revert w. induction tr as [|[env i] tr IH]; intros w Hok Hr; simpl in Hr.
  - inversion Hr. subst. lia.
  - destruct (step env w i) as [w1|] eqn:Es; [|discriminate].
    pose proof (@step_timers_ok _ _ _ _ Hok Es) as Hok1.
    specialize (IH w1 Hok1 Hr).
    destruct (@step_kinds _ _ _ _ Hok Es) as [Hq|[Hf|[_ Ho]]].
    + destruct Hq as (_ & Hf & _). lia.
    + destruct Hf as [Hf _]. lia.
    + destruct Ho as (_ & _ & _ & Hf & _). lia.
Qed.

(** Without a failure in between, a zero counter stays zero. *)
Lemma run_without_failure_keeps_zero (tr : list (Env * Input)) (w w' : World) :
  timers_ok w = true -> reconnectAttempts w = 0%nat ->
  run tr w = Some w' -> failures w' = failures w ->
  reconnectAttempts w' = 0%nat.
Proof.
  revert w. induction tr as [|[env i] tr IH]; intros w Hok Ha Hr Hf;
    simpl in Hr.
  - inversion Hr. subst. assumption.
  - destruct (step env w i) as [w1|] eqn:Es; [|discriminate].
    pose proof (@step_timers_ok _ _ _ _ Hok Es) as Hok1.
    pose proof (@run_failures_mono tr w1 w' Hok1 Hr) as Hm.
    destruct (@step_kinds _ _ _ _ Hok Es) as [Hq|[Hfl|[_ Ho]]].
    + destruct Hq as (Ha1 & Hf1 & _). apply (IH w1); try assumption; lia.
    + destruct Hfl as [Hf1 _]. lia.
    + destruct Ho as (_ & _ & Ha1 & Hf1 & _).
      apply (IH w1); try assumption; lia.
Qed.

(** C5. From any state, [disconnect()] ends in [disconnected] with the
    three timer fields reset, no timer left pending (so none can fire)
    and the connect time cleared; and the reconnect callback, were it to
    run in state [disconnected], changes nothing. *)
Theorem disconnect_cancels_everything : forall w : World,
  reachable w ->
  state (disconnect w) = disconnected /\
  reconnectTimer (disconnect w) = None /\
  heartbeatTimer (disconnect w) = None /\
  connectionTimer (disconnect w) = None /\
  pending (disconnect w) = [] /\
  connectedAt (disconnect w) = None /\
  (forall env id, step env (disconnect w) (TimerFires id) = None) /\
  (forall env w0, state w0 = disconnected ->
     reconnectTimerCallback env w0 = w0).
Proof.
  intros w (loaded & t0 & tr & Hrun).
  assert (Hok : timers_ok w = true).
  { apply (@run_timers_ok tr (new_client loaded t0) w); [reflexivity|].
    assumption. }
  assert (Hp : pending (disconnect w) = []).
  { unfold disconnect. nf. apply unref_all_nil. assumption. }
  repeat split; try (unfold disconnect; nf; reflexivity); try assumption.
  - intros env id. unfold step, find_timer. rewrite Hp. reflexivity.
  - intros env w0 Hs. unfold reconnectTimerCallback. rewrite Hs. reflexivity.
Qed.

(** ** connect() and setState() *)

Lemma wf_class_loaded (w : World) :
  wf w = true -> state w = connected \/ state w = connecting ->
  EventSourceClass w = true.
Proof.
  unfold wf, class_ok. intros H Hs. apply andb_true_iff in H.
  destruct H as [_ H]. destruct Hs as [Hs|Hs]; rewrite Hs in H; assumption.
Qed.

(** C6. In any world the client can be in, [connect()] called in state
    [connected] or [connecting] resolves and leaves the world exactly as
    it was: no transport constructed, no field written, no event
    emitted. In general [setState] emits [connection:state] exactly when
    the new state differs from the current one. *)
Theorem connect_noop_when_connected_or_connecting :
  forall (env : Env) (w : World),
  reachable w ->
  state w = connected \/ state w = connecting ->
  connect env w = Resolved w /\
  step env w CallConnect = Some w /\
  (forall s w0, state w0 = s -> setState s w0 = w0) /\
  (forall s w0, state w0 <> s ->
     state (setState s w0) = s /\
     emitted (setState s w0) = emitted w0 ++ [connection_state s]).
Proof.
  intros env w (loaded & t0 & tr & Hrun) Hs.
  assert (Hwf : wf w = true).
  { apply (@run_wf tr (new_client loaded t0) w); [reflexivity|].
    assumption. }
  assert (Hc : connect env w = Resolved w).
  { unfold connect. rewrite (wf_class_loaded w Hwf Hs). simpl.
    destruct Hs as [Hs|Hs]; rewrite Hs; reflexivity. }
  repeat split.
  - assumption.
  - unfold step. rewrite Hc. reflexivity.
  - intros s w0 H0. unfold setState. rewrite <- H0, state_eqb_refl.
    reflexivity.
  - nf. reflexivity.
  - rewrite setState_nf. simpl. rewrite (state_eqb_neq H). reflexivity.
Qed.


(** ** The attempt counter *)

Lemma onopen_resets (w : World) :
  state w = connecting ->
  state (onopen w) = connected /\ reconnectAttempts (onopen w) = 0%nat /\
  lastError (onopen w) = None /\ connectedAt (onopen w) = Some (clock w).
Proof.
  intros Hs. unfold onopen. rewrite Hs. nf. repeat split.
Qed.

Lemma handleError_from_zero (error : Thrown) (r : Q) (w : World) :
  reconnectAttempts w = 0%nat -> (0 < MAX_RETRIES cfg)%nat ->
  state (handleError error r w) = reconnecting /\
  reconnectAttempts (handleError error r w) = 1%nat /\
  scheduled (handleError error r w) =
    scheduled w ++ [(ReconnectTimer, reconnectDelay 1 r)].
Proof.
  intros Ha Hm. unfold handleError. rewrite scheduleReconnect_nf. nf.
  rewrite Ha.
  destruct (Nat.leb_spec (MAX_RETRIES cfg) 0); [lia|].
  nf. repeat split.
Qed.

Lemma reconnectDelay_initial (r : Q) :
  reconnectDelay 1 r ==
  Qmin (INITIAL_RETRY_DELAY_MS cfg) (MAX_RETRY_DELAY_MS cfg) + r * 1000.
Proof.
  unfold reconnectDelay, baseDelay, Math_pow. rewrite Math_min_Qmin.
  simpl (Z.of_nat 1 - 1)%Z.
  assert (H : INITIAL_RETRY_DELAY_MS cfg * RETRY_MULTIPLIER cfg ^ 0 ==
              INITIAL_RETRY_DELAY_MS cfg) by (simpl; ring).
  rewrite H. reflexivity.
Qed.

(** C9. A turn never lowers the reconnect-attempt counter unless it is
    the successful opening of the transport, which sets it to zero:
    [disconnect()] keeps it and [scheduleReconnect] never lowers it.
    Hence, after a successful opening and any turns that are not
    failures, the next failure finds the counter at zero and schedules
    its reconnect with the initial delay, [min (initial, max)] plus
    jitter. *)
Theorem attempts_reset_only_on_connected :
  forall (env : Env) (w w' : World) (i : Input),
  wf w = true ->
  step env w i = Some w' ->
  ((reconnectAttempts w <= reconnectAttempts w')%nat \/
   (i = TransportOpen /\ state w = connecting /\ state w' = connected /\
    reconnectAttempts w' = 0%nat)) /\
  reconnectAttempts (disconnect w) = reconnectAttempts w /\
  (forall r, (reconnectAttempts w <= reconnectAttempts (scheduleReconnect r w))%nat) /\
  (state w = connecting -> (0 < MAX_RETRIES cfg)%nat ->
   forall tr w2 error r,
     run tr (onopen w) = Some w2 ->
     failures w2 = failures (onopen w) ->
     state (onopen w) = connected /\
     reconnectAttempts w2 = 0%nat /\
     state (handleError error r w2) = reconnecting /\
     scheduled (handleError error r w2) =
       scheduled w2 ++ [(ReconnectTimer, reconnectDelay 1 r)] /\
     reconnectDelay 1 r ==
       Qmin (INITIAL_RETRY_DELAY_MS cfg) (MAX_RETRY_DELAY_MS cfg) + r * 1000).
Proof.
  intros env w w' i Hwf Hs.
  apply andb_true_iff in Hwf. destruct Hwf as [Hok _].
  split; [|split; [|split]].
  - destruct (@step_kinds _ _ _ _ Hok Hs) as [Hq|[Hf|[Hi Ho]]].
    + destruct Hq as (Ha & _). left. lia.
    + destruct Hf as [_ Hpost].
      destruct (Nat.leb (MAX_RETRIES cfg) (reconnectAttempts w));
        destruct Hpost as (_ & Ha & _); left; lia.
    + destruct Ho as (H1 & H2 & H3 & _). right. auto.
  - unfold disconnect. nf. reflexivity.
  - intros r. rewrite scheduleReconnect_nf.
    destruct (Nat.leb (MAX_RETRIES cfg) (reconnectAttempts w)); nf; lia.
  - intros Hst Hmax tr w2 error r Hr Hf.
    destruct (onopen_resets w Hst) as (Hc & Ha & _).
    assert (Hoko : timers_ok (onopen w) = true)
      by (apply timers_ok_onopen; assumption).
    pose proof (@run_without_failure_keeps_zero tr (onopen w) w2 Hoko Ha Hr Hf)
      as Hz.
    destruct (handleError_from_zero error r w2 Hz Hmax) as (H1 & _ & H3).
    repeat split; try assumption. apply reconnectDelay_initial.
Qed.

(** ** Heartbeat *)

Lemma armed_no_timer_due (a : Q) (w : World) :
  heartbeat_armed a w -> clock w < a + HEARTBEAT_TIMEOUT_MS cfg ->
  forall env id, step env w (TimerFires id) = None.
Proof.
  intros (_ & _ & _ & _ & tid0 & _ & Hp) Hlt env id.
  unfold step, find_timer. rewrite Hp. simpl.
  destruct (Nat.eqb tid0 id); [|reflexivity].
  unfold due. simpl.
  destruct (Qle_bool (a + HEARTBEAT_TIMEOUT_MS cfg) (clock w)) eqn:E;
    [|reflexivity].
  apply Qle_bool_iff in E. lra.
Qed.

Lemma armed_time_passes (a : Q) (w : World) (t : Q) (env : Env) :
  heartbeat_armed a w -> clock w <= t ->
  step env w (TimePasses t) = Some (set_clock t w) /\
  heartbeat_armed a (set_clock t w).
Proof.
  intros (Hs & He & Hl & Ha & id & Hh & Hp) Hle. split.
  - simpl. apply Qle_bool_iff in Hle. rewrite Hle. reflexivity.
  - unfold heartbeat_armed. simpl. repeat split; try assumption.
    + lra.
    + exists id. split; assumption.
Qed.

Lemma armed_ping (a : Q) (w : World) (env : Env) (data : string) :
  heartbeat_armed a w ->
  step env w (TransportEvent ch_ping data) = Some (resetHeartbeatMonitor w) /\
  heartbeat_armed (clock w) (resetHeartbeatMonitor w) /\
  emitted (resetHeartbeatMonitor w) = emitted w /\
  clock (resetHeartbeatMonitor w) = clock w.
Proof.
  intros (Hs & He & Hl & Ha & id & Hh & Hp). split; [|split].
  - simpl. destruct (eventSource w); [|contradiction].
    rewrite Hl. reflexivity.
  - unfold heartbeat_armed. nf. repeat split; try assumption.
    + lra.
    + exists (nextTimer w). split; [reflexivity|].
      rewrite Hh, Hp. simpl. rewrite Nat.eqb_refl. reflexivity.
  - nf. split; reflexivity.
Qed.

Lemma pings_keep_connection (env : Env) (ts1 : list Q) :
  forall (ts2 : list Q) (a : Q) (w : World),
  heartbeat_armed a w -> clock w < a + HEARTBEAT_TIMEOUT_MS cfg ->
  spaced a (clock w) (ts1 ++ ts2) ->
  exists w1 a1,
    run (ping_trace env ts1) w = Some w1 /\
    heartbeat_armed a1 w1 /\
    clock w1 < a1 + HEARTBEAT_TIMEOUT_MS cfg /\
    emitted w1 = emitted w /\
    spaced a1 (clock w1) ts2.
Proof.
  induction ts1 as [|t ts1 IH]; intros ts2 a w Harm Hlt Hsp.
  - exists w, a. simpl. auto.
  - simpl in Hsp. destruct Hsp as (Hle & Hdl & Hsp).
    assert (Hpos : 0 < HEARTBEAT_TIMEOUT_MS cfg).
    { destruct Harm as (_ & _ & _ & Ha & _). lra. }
    destruct (@armed_time_passes a w t env Harm Hle) as [Hs1 Harm1].
    destruct (@armed_ping a (set_clock t w) env "" Harm1)
      as (Hs2 & Harm2 & He2 & Hc2).
    simpl in Harm2.
    destruct (IH ts2 t (resetHeartbeatMonitor (set_clock t w)) Harm2)
      as (w1 & a1 & Hr & Harm' & Hlt' & He' & Hsp').
    + rewrite Hc2. simpl. lra.
    + rewrite Hc2. simpl. assumption.
    + exists w1, a1.
      split; [|split; [assumption|split; [assumption|split; [|assumption]]]].
      * change (ping_trace env (t :: ts1))
          with ((env, TimePasses t) :: (env, TransportEvent ch_ping "")
                  :: ping_trace env ts1).
        cbn [run]. rewrite Hs1, Hs2. assumption.
      * rewrite He', He2. reflexivity.
Qed.

Lemma unref_after_clear (id : nat) (r c : option nat) (p : list Timer) :
  unref c (unref (Some id) (unref r
    (filter (fun t => negb (Nat.eqb (tid t) id)) p))) =
  unref c (unref (Some id) (unref r p)).
Proof.
  destruct r as [x|], c as [y|]; simpl;
    induction p as [|t p IH]; simpl; try reflexivity;
    repeat (match goal with
            | |- context [Nat.eqb ?a ?b] => destruct (Nat.eqb a b) eqn:?
            end; simpl);
    try congruence; try rewrite IH; try reflexivity.
Qed.

(** Whether the fired heartbeat timer was already dropped from the table
    makes no difference to the error path. *)
Lemma handleError_after_fire (error : Thrown) (r : Q) (id : nat) (w : World) :
  heartbeatTimer w = Some id ->
  handleError error r (clearTimeout id w) = handleError error r w.
Proof.
  intros Hh. unfold handleError. f_equal. f_equal. f_equal. f_equal.
  rewrite !clearTimers_nf. unfold clearTimeout. simpl.
  rewrite Hh, unref_after_clear. reflexivity.
Qed.

(** *** Opening the transport arms the heartbeat *)

Lemma forallb_unref (f : Timer -> bool) (o : option nat) (p : list Timer) :
  forallb f p = true -> forallb f (unref o p) = true.
Proof.
  intros H. rewrite forallb_forall in *. intros t Hin.
  apply In_unref in Hin. apply H. tauto.
Qed.

Lemma live_ok_handleError (error : Thrown) (r : Q) (w : World) :
  live_ok (handleError error r w) = true.
Proof.
  unfold live_ok, handleError. rewrite scheduleReconnect_nf. nf.
  destruct (Nat.leb (MAX_RETRIES cfg) (reconnectAttempts w)); nf; reflexivity.
Qed.

Lemma live_ok_connect (env : Env) (w : World) :
  timers_ok w = true -> live_ok w = true ->
  live_ok (world_of (connect env w)) = true.
Proof.
  intros Hok Hl. unfold connect.
  destruct (negb (EventSourceClass w) && negb (importOk env));
    [assumption|].
  set (w0 := if EventSourceClass w then w else set_EventSourceClass true w).
  assert (Hok0 : timers_ok w0 = true).
  { unfold w0. destruct (EventSourceClass w); assumption. }
  assert (Hl0 : live_ok w0 = true).
  { unfold w0. destruct (EventSourceClass w); assumption. }
  clearbody w0.
  destruct (state w0) eqn:Es; try assumption;
    (destruct (construct env);
     [ apply live_ok_handleError
     | simpl; unfold live_ok; nf;
       rewrite (unref_all_nil w0 Hok0); reflexivity ]).
Qed.

Lemma live_ok_resetHeartbeatMonitor (w : World) :
  live_ok w = true -> live_ok (resetHeartbeatMonitor w) = true.
Proof.
  unfold live_ok. nf. intros H.
  destruct (state w); try reflexivity;
    apply andb_true_iff in H; destruct H as [H1 H2];
    rewrite H1; simpl; rewrite forallb_app, forallb_unref by assumption;
    reflexivity.
Qed.

Lemma live_ok_grown (w w' : World) : grown w w' -> live_ok w' = live_ok w.
Proof. intros (l & H & _). subst. reflexivity. Qed.

Lemma live_ok_clearTimeout (id : nat) (w : World) :
  live_ok w = true -> live_ok (clearTimeout id w) = true.
Proof.
  unfold live_ok, clearTimeout. simpl. intros H.
  destruct (state w); try reflexivity;
    apply andb_true_iff in H; destruct H as [H1 H2];
    rewrite H1; simpl;
    apply (forallb_unref _ (Some id)); assumption.
Qed.

Lemma live_ok_onopen (w : World) :
  live_ok w = true -> live_ok (onopen w) = true.
Proof.
  intros H. unfold onopen. destruct (state w) eqn:Es; try assumption.
  unfold live_ok in *. rewrite Es in H. nf.
  apply andb_true_iff in H. destruct H as [H1 H2].
  rewrite H1. simpl. rewrite forallb_app. apply andb_true_iff.
  split; [apply forallb_unref, forallb_unref; assumption|reflexivity].
Qed.

Lemma step_live_ok (env : Env) (w w' : World) (i : Input) :
  timers_ok w = true -> live_ok w = true ->
  step env w i = Some w' -> live_ok w' = true.
Proof.
  intros Hok Hl Hs. destruct i; simpl in Hs.
  - inversion Hs. apply live_ok_connect; assumption.
  - inversion Hs. unfold live_ok, disconnect. nf. reflexivity.
  - destruct (eventSource w); inversion Hs. apply live_ok_onopen. assumption.
  - destruct (eventSource w); inversion Hs. apply live_ok_handleError.
  - destruct (eventSource w); [|discriminate].
    destruct (listening ch w); inversion Hs.
    destruct ch;
      try (rewrite (live_ok_grown (handleMessage_grown data w)));
      apply live_ok_resetHeartbeatMonitor; assumption.
  - destruct (find_timer id w) as [t|]; [|discriminate].
    destruct (Qle_bool (due t) (clock w)); inversion Hs.
    pose proof (timers_ok_clearTimeout id w Hok) as Hok1.
    pose proof (live_ok_clearTimeout id w Hl) as Hl1.
    unfold reconnectTimerCallback, heartbeatTimerCallback,
      connectionTimerCallback.
    destruct (kind t); destruct (state (clearTimeout id w)) eqn:Es;
      solve [ assumption
            | apply live_ok_connect; assumption
            | apply live_ok_handleError ].
  - destruct (Qle_bool (clock w) t); inversion Hs. assumption.
Qed.

Lemma reachable_invariants (w : World) :
  reachable w -> timers_ok w = true /\ class_ok w = true /\ live_ok w = true.
Proof.
  intros (loaded & t0 & tr & Hr).
  assert (H0 : timers_ok (new_client loaded t0) = true /\
               class_ok (new_client loaded t0) = true /\
               live_ok (new_client loaded t0) = true)
    by (repeat split; reflexivity).
  revert Hr H0. generalize (new_client loaded t0).
  induction tr as [|[env i] tr IH]; intros v Hr (H1 & H2 & H3); simpl in Hr.
  - inversion Hr. subst. auto.
  - destruct (step env v i) as [v1|] eqn:Es; [|discriminate].
    apply (IH v1 Hr). repeat split.
    + eapply step_timers_ok; eassumption.
    + eapply step_class_ok; eassumption.
    + eapply step_live_ok; eassumption.
Qed.

(** In any reachable world, the successful opening of the transport
    leaves the client connected with nothing but a freshly armed
    heartbeat timer pending. *)
Lemma onopen_arms_heartbeat (w : World) :
  reachable w -> state w = connecting ->
  heartbeat_armed (clock w) (onopen w).
Proof.
  intros Hr Hs. destruct (reachable_invariants Hr) as (Hok & _ & Hl).
  unfold live_ok in Hl. rewrite Hs in Hl.
  apply andb_true_iff in Hl. destruct Hl as [Hl Hnr].
  apply andb_true_iff in Hl. destruct Hl as [He Hp].
  assert (Hnil : unref (heartbeatTimer w)
                   (unref (connectionTimer w) (pending w)) = []).
  { apply no_member_nil. intros t Hin. rewrite !In_unref in Hin.
    destruct Hin as [[Hin Hc] Hh].
    pose proof (proj1 (timers_ok_iff w) Hok t Hin) as Hown.
    rewrite forallb_forall in Hnr. specialize (Hnr t Hin).
    destruct (kind t); simpl in *; congruence. }
  unfold heartbeat_armed, onopen. rewrite Hs. nf. rewrite Hnil.
  split; [reflexivity|]. split; [destruct (eventSource w); congruence|].
  split; [assumption|]. split; [lra|].
  exists (nextTimer w). split; reflexivity.
Qed.

(** C8. While the client is connected with its heartbeat timer armed,
    pings that each arrive less than the heartbeat timeout after the
    previous arming never lead to the error path: at every point of such
    a run the state is [connected], nothing was emitted (so no
    [connection:error]), and no timer is due, neither once a ping has
    been handled nor at the instant it arrives. Every received message,
    a ping included, re-arms the heartbeat timer. A heartbeat timer that
    fires in a state other than [disconnected] does exactly what a
    transport error carrying the heartbeat-timeout error does. The
    starting condition is the one every successful opening of the
    transport establishes. *)
Theorem pings_under_timeout_never_fail :
  forall (env : Env) (a : Q) (w : World) (ts : list Q),
  heartbeat_armed a w ->
  clock w < a + HEARTBEAT_TIMEOUT_MS cfg ->
  spaced a (clock w) ts ->
  (forall ts1 ts2, ts = ts1 ++ ts2 ->
     exists w1,
       run (ping_trace env ts1) w = Some w1 /\
       state w1 = connected /\
       emitted w1 = emitted w /\
       failures w1 = failures w /\
       (forall env' id, step env' w1 (TimerFires id) = None) /\
       (forall t rest, ts2 = t :: rest ->
          forall env' id, step env' (set_clock t w1) (TimerFires id) = None)) /\
  (forall w0 data env' ch,
     eventSource w0 <> None -> listening ch w0 = true ->
     exists w0',
       step env' w0 (TransportEvent ch data) = Some w0' /\
       heartbeatTimer w0' = Some (nextTimer w0) /\
       In (newTimer HeartbeatTimer (HEARTBEAT_TIMEOUT_MS cfg) w0)
          (pending w0')) /\
  (forall w0 env' id t,
     find_timer id w0 = Some t -> kind t = HeartbeatTimer ->
     heartbeatTimer w0 = Some id -> due t <= clock w0 ->
     state w0 <> disconnected -> eventSource w0 <> None ->
     step env' w0 (TimerFires id) =
       Some (handleError (ErrorInstance "Heartbeat timeout") (random env') w0) /\
     step env' w0 (TransportError (ErrorInstance "Heartbeat timeout")) =
       Some (handleError (ErrorInstance "Heartbeat timeout") (random env') w0)) /\
  (forall w0,
     reachable w0 -> state w0 = connecting ->
     heartbeat_armed (clock w0) (onopen w0)).
Proof.
  intros env a w ts Harm Hlt Hsp. split; [|split; [|split]];
    [| | |apply onopen_arms_heartbeat].
  - intros ts1 ts2 Hts. subst ts.
    destruct (@pings_keep_connection env ts1 ts2 a w Harm Hlt Hsp)
      as (w1 & a1 & Hr & Harm1 & Hlt1 & He & Hsp1).
    exists w1. split; [assumption|]. split; [apply Harm1|].
    split; [assumption|]. split; [unfold failures; rewrite He; reflexivity|].
    split.
    + apply (armed_no_timer_due Harm1 Hlt1).
    + intros t rest Hts2. subst ts2. simpl in Hsp1.
      destruct Hsp1 as (Hle & Hdl & _).
      destruct (@armed_time_passes a1 w1 t env Harm1 Hle) as [_ Harm2].
      apply (armed_no_timer_due Harm2). simpl. assumption.
  - intros w0 data env' ch He Hl. simpl.
    destruct (eventSource w0); [|contradiction]. rewrite Hl.
    eexists. split; [reflexivity|].
    assert (Hreset :
      forall v, nextTimer v = nextTimer w0 -> clock v = clock w0 ->
        heartbeatTimer (resetHeartbeatMonitor v) = Some (nextTimer w0) /\
        In (newTimer HeartbeatTimer (HEARTBEAT_TIMEOUT_MS cfg) w0)
           (pending (resetHeartbeatMonitor v))).
    { intros v Hn Hc. nf. rewrite Hn. split; [reflexivity|].
      apply in_app_iff. right. left. unfold newTimer. rewrite Hn, Hc.
      reflexivity. }
    destruct ch;
      try (apply Hreset; reflexivity);
      destruct (handleMessage_grown data w0) as (l & H & _); rewrite H;
      apply (Hreset (set_lastEventTime (Some (clock w0)) w0));
      reflexivity.
  - intros w0 env' id t Hf Hk Hh Hd Hs He. split.
    + simpl. rewrite Hf. apply Qle_bool_iff in Hd. rewrite Hd, Hk.
      unfold heartbeatTimerCallback.
      change (state (clearTimeout id w0)) with (state w0).
      rewrite (handleError_after_fire _ _ w0 Hh).
      destruct (state w0); try reflexivity. contradiction.
    + simpl. destruct (eventSource w0); [reflexivity|contradiction].
Qed.

(** ** connect() never rejects once the module is there *)

Lemma handleError_observable (error : Thrown) (r : Q) (w : World) :
  lastError (handleError error r w) = Some (errorMessage error) /\
  eventSource (handleError error r w) = None /\
  failures (handleError error r w) = S (failures w) /\
  In (connection_error (errorMessage error)) (emitted (handleError error r w)) /\
  (state (handleError error r w) = reconnecting \/
   state (handleError error r w) = fallback).
Proof.
  unfold handleError. rewrite scheduleReconnect_nf. nf.
  destruct (Nat.leb (MAX_RETRIES cfg) (reconnectAttempts w)); nf;
    unfold failures; simpl;
    match goal with
    | |- context [state_eqb ?a ?b] => destruct (state_eqb a b)
    end;
    rewrite ?filter_app, ?length_app, ?in_app_iff; simpl;
    repeat split; try lia; auto.
Qed.

(** C2 (as the code has it). When the transport module is already
    loaded, or its lazy import succeeds, [connect()] always resolves;
    and an exception thrown while the URL, the headers or the transport
    are constructed is turned into the error path: the error is
    recorded and emitted as [connection:error], no transport is kept,
    and the client is left in [reconnecting] or [fallback]. *)
Theorem connect_resolves_when_module_available :
  forall (env : Env) (w : World),
  EventSourceClass w = true \/ importOk env = true ->
  exists w',
    connect env w = Resolved w' /\
    EventSourceClass w' = true /\
    (forall error,
       construct env = Some error ->
       state w <> connected -> state w <> connecting ->
       lastError w' = Some (errorMessage error) /\
       eventSource w' = None /\
       failures w' = S (failures w) /\
       In (connection_error (errorMessage error)) (emitted w') /\
       (state w' = reconnecting \/ state w' = fallback)).
Proof.
  intros env w Hload. unfold connect.
  assert (Hc : negb (EventSourceClass w) && negb (importOk env) = false).
  { destruct Hload as [H|H]; rewrite H; simpl;
      [reflexivity|apply andb_false_r]. }
  rewrite Hc.
  set (w0 := if EventSourceClass w then w else set_EventSourceClass true w).
  assert (Hcl : EventSourceClass w0 = true).
  { unfold w0. destruct (EventSourceClass w) eqn:E; [assumption|reflexivity]. }
  assert (Hst : state w0 = state w).
  { unfold w0. destruct (EventSourceClass w); reflexivity. }
  assert (Hfl : failures (clearTimers (setState connecting w0)) = failures w).
  { unfold failures. nf. rewrite Hst.
    assert (He : emitted w0 = emitted w)
      by (unfold w0; destruct (EventSourceClass w); reflexivity).
    rewrite He.
    destruct (state_eqb (state w) connecting);
      rewrite ?filter_app, ?length_app; simpl; lia. }
  rewrite Hst.
  destruct (state w) eqn:Es;
    try (eexists; split; [reflexivity|]; split; [assumption|];
         intros; congruence);
    (destruct (construct env) as [e|] eqn:Ec;
     [ eexists; split; [reflexivity|]; split;
       [ unfold handleError; rewrite scheduleReconnect_nf; nf;
         destruct (Nat.leb (MAX_RETRIES cfg) (reconnectAttempts w0));
         nf; assumption
       | intros error Herr _ _; inversion Herr; subst e;
         rewrite <- Hfl; apply handleError_observable ]
     | eexists; split; [reflexivity|]; split;
       [ nf; assumption | intros; discriminate ] ]).
Qed.
End Client.

(** * Worked runs

    [SSE_CONFIG] and [JSON.parse] are outside the class. The runs below
    use an illustrative configuration and a table standing in for the
    parser on the payloads that occur in them. *)

Definition sample_cfg : SSEConfig :=
  {| INITIAL_RETRY_DELAY_MS := 1000;
     MAX_RETRY_DELAY_MS := 30000;
     RETRY_MULTIPLIER := 2;
     MAX_RETRIES := 3;
     HEARTBEAT_TIMEOUT_MS := 30000 |}.

Definition dq : string := String (Ascii.ascii_of_nat 34) EmptyString.

Definition quoted (s : string) : string := (dq ++ s ++ dq)%string.

Definition notification_text (key st : string) : string :=
  ("{" ++ quoted "sessionKey" ++ ":" ++ quoted key ++ "," ++
   quoted "state" ++ ":" ++ quoted st ++ "}")%string.

Definition notification_value (key st : string) : json :=
  JObject [("sessionKey", JString key); ("state", JString st)].

(** A [message] event in the wrapped-container format. *)
Definition wrapped_text : string :=
  ("{" ++ quoted "NotificationContainer" ++ ":{" ++
   quoted "type" ++ ":" ++ quoted "playing" ++ "," ++
   quoted "PlaySessionStateNotification" ++ ":[" ++
   notification_text "1" "playing" ++ "," ++
   notification_text "2" "paused" ++ "," ++
   notification_text "3" "stopped" ++ "]}}")%string.

Definition wrapped_value : json :=
  JObject
    [("NotificationContainer",
      JObject
        [("type", JString "playing");
         ("PlaySessionStateNotification",
          JArray [notification_value "1" "playing";
                  notification_value "2" "paused";
                  notification_value "3" "stopped"])])].

Definition sample_parse (s : string) : option json :=
  if String.eqb s wrapped_text then Some wrapped_value else None.

Definition env_ok : Env :=
  {| importOk := true; construct := None; random := 1 # 2 |}.

Definition env_refused : Env :=
  {| importOk := true;
     construct := Some (ErrorInstance "connect ECONNREFUSED");
     random := 1 # 2 |}.

Definition env_no_module : Env :=
  {| importOk := false; construct := None; random := 0 |}.

Definition or_else (o : option World) (d : World) : World :=
  match o with Some w => w | None => d end.

(** A client that called [connect()] and waits for the transport. *)
Definition w_connecting : World :=
  Eval vm_compute in
    world_of (connect sample_cfg env_ok (new_client false 0)).

(** The same client once the transport has opened. *)
Definition w_connected : World :=
  Eval vm_compute in onopen sample_cfg w_connecting.

(** Three failed connection attempts in a row: the call of [connect()],
    then the first two reconnect timers. *)
Definition three_failures : list (Env * Input) :=
  [ (env_refused, CallConnect);
    (env_refused, TimePasses 2000);
    (env_refused, TimerFires 0);
    (env_refused, TimePasses 5000);
    (env_refused, TimerFires 1) ].

Definition w_three_failures : World :=
  Eval vm_compute in
    or_else (run sample_cfg sample_parse three_failures (new_client false 0))
            (new_client false 0).

(** One failure, then the reconnect timer fires and the transport is
    constructed: [connecting] with the counter at one. *)
Definition retry_once : list (Env * Input) :=
  [ (env_refused, CallConnect);
    (env_ok, TimePasses 2000);
    (env_ok, TimerFires 0) ].

Definition w_retrying : World :=
  Eval vm_compute in
    or_else (run sample_cfg sample_parse retry_once (new_client false 0))
            (new_client false 0).

(** C1, counterexample. With [MAX_RETRIES = 3], after exactly three
    consecutive failures the state is [reconnecting], not [fallback],
    and a third reconnect timer is pending. *)
Lemma three_failures_not_yet_fallback :
  run sample_cfg sample_parse three_failures (new_client false 0)
    = Some w_three_failures /\
  failures w_three_failures = MAX_RETRIES sample_cfg /\
  state w_three_failures = reconnecting /\
  state w_three_failures <> fallback /\
  map kind (pending w_three_failures) = [ReconnectTimer].
Proof.
  split; [vm_compute; reflexivity|].
  split; [vm_compute; reflexivity|].
  split; [vm_compute; reflexivity|].
  split; [vm_compute; discriminate|].
  vm_compute; reflexivity.
Qed.

Lemma fallback_on_failure_after_max_retries_witness :
  wf (new_client false 0) = true /\
  reconnectAttempts (new_client false 0) = 0%nat /\
  no_open three_failures /\
  run sample_cfg sample_parse three_failures (new_client false 0)
    = Some w_three_failures /\
  reconnectAttempts w_three_failures = 3%nat /\
  state (world_of (connect sample_cfg env_refused w_three_failures))
    = fallback /\
  pending (world_of (connect sample_cfg env_refused w_three_failures)) = [].
Proof.
  assert (H1 : wf (new_client false 0) = true) by (vm_compute; reflexivity).
  assert (H2 : reconnectAttempts (new_client false 0) = 0%nat)
    by (vm_compute; reflexivity).
  assert (H3 : no_open three_failures)
    by (repeat constructor; discriminate).
  assert (H4 : run sample_cfg sample_parse three_failures (new_client false 0)
               = Some w_three_failures) by (vm_compute; reflexivity).
  destruct (@fallback_on_failure_after_max_retries
              sample_cfg sample_parse three_failures (new_client false 0)
              w_three_failures H1 H2 H3 H4) as (Ha & _ & Hnext).
  cbv zeta in Ha, Hnext.
  assert (Hk : Nat.ltb (failures w_three_failures
                        - failures (new_client false 0))
                       (MAX_RETRIES sample_cfg) = false)
    by (vm_compute; reflexivity).
  assert (Hfail :
    failures (world_of (connect sample_cfg env_refused w_three_failures))
    = S (failures w_three_failures)) by (vm_compute; reflexivity).
  pose proof (Hnext env_refused CallConnect
                (world_of (connect sample_cfg env_refused w_three_failures))
                eq_refl Hfail) as Hfb.
  rewrite Hk in Hfb. destruct Hfb as (Hst & Hp & _).
  split; [exact H1|]. split; [exact H2|]. split; [exact H3|].
  split; [exact H4|].
  split; [rewrite Ha; vm_compute; reflexivity|].
  split; [exact Hst|exact Hp].
Defined.

(** C2, counterexample. On a client in a process where the transport
    module was never loaded, a failing import makes [connect()] reject:
    nothing is caught, no state changes, no event is emitted. *)
Lemma connect_rejects_when_import_fails :
  connect sample_cfg env_no_module (new_client false 0)
    = Rejected (new_client false 0) /\
  forall w, connect sample_cfg env_no_module (new_client false 0)
            <> Resolved w.
Proof.
  split; [vm_compute; reflexivity|].
  intros w. vm_compute. discriminate.
Qed.

Lemma connect_resolves_when_module_available_witness :
  (EventSourceClass (new_client false 0) = true \/
   importOk env_refused = true) /\
  exists w',
    connect sample_cfg env_refused (new_client false 0) = Resolved w' /\
    lastError w' = Some "connect ECONNREFUSED" /\
    (state w' = reconnecting \/ state w' = fallback).
Proof.
  assert (H : EventSourceClass (new_client false 0) = true \/
              importOk env_refused = true) by (right; reflexivity).
  split; [exact H|].
  destruct (@connect_resolves_when_module_available
              sample_cfg env_refused (new_client false 0) H)
    as (w' & Hc & _ & Herr).
  exists w'. split; [exact Hc|].
  assert (Hs1 : state (new_client false 0) <> connected)
    by (vm_compute; discriminate).
  assert (Hs2 : state (new_client false 0) <> connecting)
    by (vm_compute; discriminate).
  destruct (Herr (ErrorInstance "connect ECONNREFUSED") eq_refl Hs1 Hs2)
    as (Hl & _ & _ & _ & Hs).
  split; [exact Hl|exact Hs].
Defined.

(** A [Math.pow] that is correctly rounded on integer exponents. *)
Definition sample_pow (b e : number) : number :=
  match e with
  | Finite k =>
      if Qeq_bool k 0 then Finite 1
      else match b with
           | Finite x => round64 (x ^ Qnum k)
           | _ => NaN
           end
  | _ => NaN
  end.

(** The largest value a generator of 52 random bits returns. *)
Definition top_draw : Q := Eval vm_compute in Qred (1 - pow2 (-52)).



(** The notification mapping on the wrapped payload: three events, in
    array order. *)
Lemma notification_state_decides_event_witness :
  emitted (handleMessage sample_cfg sample_parse wrapped_text w_connected) =
  emitted w_connected ++
  flat_map spec_sessionEvents
    [ notification_value "1" "playing";
      notification_value "2" "paused";
      notification_value "3" "stopped" ] /\
  flat_map spec_sessionEvents
    [ notification_value "1" "playing";
      notification_value "2" "paused";
      notification_value "3" "stopped" ] =
  [ session_playing (notification_value "1" "playing");
    session_paused (notification_value "2" "paused");
    session_stopped (notification_value "3" "stopped") ].
Proof.
  destruct (@notification_state_decides_event sample_cfg sample_parse
              w_connected) as (_ & _ & Hw & Hex).
  split.
  - apply (Hw wrapped_text
             [("NotificationContainer",
               JObject
                 [("type", JString "playing");
                  ("PlaySessionStateNotification",
                   JArray [notification_value "1" "playing";
                           notification_value "2" "paused";
                           notification_value "3" "stopped"])])]
             [("type", JString "playing");
              ("PlaySessionStateNotification",
               JArray [notification_value "1" "playing";
                       notification_value "2" "paused";
                       notification_value "3" "stopped"])]).
    + vm_compute. discriminate.
    + vm_compute. reflexivity.
    + vm_compute. reflexivity.
    + vm_compute. reflexivity.
    + repeat constructor; discriminate.
  - apply (Hex [("sessionKey", JString "1"); ("state", JString "playing")]
               [("sessionKey", JString "2"); ("state", JString "paused")]
               [("sessionKey", JString "3"); ("state", JString "stopped")]);
      vm_compute; reflexivity.
Defined.

Lemma w_connected_reachable : reachable sample_cfg sample_parse w_connected.
Proof.
  exists false, 0, [(env_ok, CallConnect); (env_ok, TransportOpen)].
  vm_compute. reflexivity.
Defined.

Lemma disconnect_cancels_everything_witness :
  reachable sample_cfg sample_parse w_connected /\
  state w_connected = connected /\
  pending w_connected <> [] /\
  state (disconnect w_connected) = disconnected /\
  pending (disconnect w_connected) = [].
Proof.
  pose proof w_connected_reachable as H.
  destruct (@disconnect_cancels_everything
              sample_cfg sample_parse w_connected H)
    as (Hs & _ & _ & _ & Hp & _).
  split; [exact H|]. split; [vm_compute; reflexivity|].
  split; [vm_compute; discriminate|].
  split; [exact Hs|exact Hp].
Defined.

Lemma connect_noop_when_connected_or_connecting_witness :
  reachable sample_cfg sample_parse w_connected /\
  (state w_connected = connected \/ state w_connected = connecting) /\
  connect sample_cfg env_refused w_connected = Resolved w_connected.
Proof.
  pose proof w_connected_reachable as H1.
  assert (H2 : state w_connected = connected \/
               state w_connected = connecting)
    by (left; vm_compute; reflexivity).
  destruct (@connect_noop_when_connected_or_connecting
              sample_cfg sample_parse env_refused w_connected H1 H2)
    as (Hc & _).
  split; [exact H1|]. split; [exact H2|exact Hc].
Defined.

Lemma unparsable_message_is_dropped_witness :
  sample_parse "{not json" = None /\
  emitted (handleMessage sample_cfg sample_parse "{not json" w_connected)
    = emitted w_connected /\
  state (handleMessage sample_cfg sample_parse "{not json" w_connected)
    = state w_connected.
Proof.
  assert (H : sample_parse "{not json" = None) by (vm_compute; reflexivity).
  destruct (@unparsable_message_is_dropped
              sample_cfg sample_parse "{not json" w_connected H)
    as (He & Hs & _).
  split; [exact H|]. split; [exact He|exact Hs].
Defined.

(** Pings every ten to twenty-five seconds under a thirty-second
    heartbeat timeout. *)
Definition ping_times : list Q := [10000; 20000; 45000].

Lemma pings_under_timeout_never_fail_witness :
  heartbeat_armed sample_cfg 0 w_connected /\
  clock w_connected < 0 + HEARTBEAT_TIMEOUT_MS sample_cfg /\
  spaced sample_cfg 0 (clock w_connected) ping_times /\
  exists w1,
    run sample_cfg sample_parse (ping_trace env_ok ping_times) w_connected
      = Some w1 /\
    state w1 = connected /\ failures w1 = failures w_connected.
Proof.
  assert (H1 : heartbeat_armed sample_cfg 0 w_connected).
  { split; [vm_compute; reflexivity|].
    split; [vm_compute; discriminate|].
    split; [vm_compute; reflexivity|].
    split; [vm_compute; discriminate|].
    exists 1%nat. split; vm_compute; reflexivity. }
  assert (H2 : clock w_connected < 0 + HEARTBEAT_TIMEOUT_MS sample_cfg)
    by (vm_compute; reflexivity).
  assert (H3 : spaced sample_cfg 0 (clock w_connected) ping_times).
  { split; [vm_compute; discriminate|]. split; [vm_compute; reflexivity|].
    split; [vm_compute; discriminate|]. split; [vm_compute; reflexivity|].
    split; [vm_compute; discriminate|]. split; [vm_compute; reflexivity|].
    exact I. }
  destruct (@pings_under_timeout_never_fail
              sample_cfg sample_parse env_ok 0 w_connected ping_times
              H1 H2 H3) as (Hrun & _).
  destruct (Hrun ping_times [] (eq_sym (app_nil_r ping_times)))
    as (w1 & Hr & Hs & _ & Hf & _).
  split; [exact H1|]. split; [exact H2|]. split; [exact H3|].
  exists w1. split; [exact Hr|]. split; [exact Hs|exact Hf].
Defined.

Lemma attempts_reset_only_on_connected_witness :
  wf w_retrying = true /\
  reconnectAttempts w_retrying = 1%nat /\
  step sample_cfg sample_parse env_ok w_retrying TransportOpen
    = Some (onopen sample_cfg w_retrying) /\
  reconnectAttempts (onopen sample_cfg w_retrying) = 0%nat /\
  scheduled
    (handleError sample_cfg (ErrorInstance "socket hang up") (1 # 2)
       (onopen sample_cfg w_retrying)) =
  scheduled (onopen sample_cfg w_retrying) ++
  [(ReconnectTimer, reconnectDelay sample_cfg 1 (1 # 2))].
Proof.
  assert (H1 : wf w_retrying = true) by (vm_compute; reflexivity).
  assert (H2 : step sample_cfg sample_parse env_ok w_retrying TransportOpen
               = Some (onopen sample_cfg w_retrying))
    by (vm_compute; reflexivity).
  destruct (@attempts_reset_only_on_connected
              sample_cfg sample_parse env_ok w_retrying
              (onopen sample_cfg w_retrying) TransportOpen H1 H2)
    as (_ & _ & _ & Hnext).
  assert (Hst : state w_retrying = connecting) by (vm_compute; reflexivity).
  assert (Hm : (0 < MAX_RETRIES sample_cfg)%nat)
    by (vm_compute; repeat constructor).
  destruct (Hnext Hst Hm [] (onopen sample_cfg w_retrying)
              (ErrorInstance "socket hang up") (1 # 2) eq_refl eq_refl)
    as (_ & Hz & _ & Hsch & _).
  split; [exact H1|]. split; [vm_compute; reflexivity|].
  split; [exact H2|]. split; [exact Hz|exact Hsch].
Defined.

(** * Further properties of the client

    Invariants the class keeps in every world a client can reach, what
    a subscriber of its events can rely on, the remaining paths of the
    message handler, the connection timeout, the endpoint URL, and the
    credential store of the mobile app. *)

Unset Implicit Arguments.

Create Rewrite HintDb upd.

#[global] Hint Rewrite clearConnectionTimeout_nf clearTimers_nf setState_nf
  cleanupEventSource_nf resetHeartbeatMonitor_nf startConnectionTimeout_nf
  : upd.

Ltac upd := unfold startHeartbeatMonitor in *; autorewrite with upd; simpl.

(** Rewrites the world [t] in the goal to one update of the world it
    starts from. *)
Ltac world_of_call t :=
  let E := fresh "E" in
  eassert (E : t = _) by
    (unfold handleError, disconnect, startHeartbeatMonitor;
     rewrite ?scheduleReconnect_nf; autorewrite with upd; reflexivity);
  rewrite E; clear E; simpl.

(** ** The shape of a reachable world *)

(** One when the client holds a transport, zero otherwise. *)
Definition live (w : World) : nat :=
  match eventSource w with Some _ => 1 | None => 0 end.

Definition listeners_are (b : bool) (w : World) : Prop :=
  messageListener w = b /\ playingListener w = b /\
  notificationListener w = b /\ pingListener w = b.

(** What each state comes with: the timers pending and the fields that
    refer to them, the transport and its listeners, the counter, the
    last error and the connect time. *)
Definition shape (cfg : SSEConfig) (w : World) : Prop :=
  match state w with
  | disconnected =>
      pending w = [] /\
      reconnectTimer w = None /\ heartbeatTimer w = None /\
      connectionTimer w = None /\
      eventSource w = None /\ listeners_are false w /\
      connectedAt w = None
  | fallback =>
      pending w = [] /\
      reconnectTimer w = None /\ heartbeatTimer w = None /\
      connectionTimer w = None /\
      eventSource w = None /\ listeners_are false w /\
      (MAX_RETRIES cfg <= reconnectAttempts w)%nat /\ lastError w <> None
  | reconnecting =>
      (exists t, pending w = [t] /\ kind t = ReconnectTimer /\
                 reconnectTimer w = Some (tid t) /\
                 (tid t < nextTimer w)%nat) /\
      heartbeatTimer w = None /\ connectionTimer w = None /\
      eventSource w = None /\ listeners_are false w /\
      (1 <= reconnectAttempts w)%nat /\ lastError w <> None
  | connecting =>
      eventSource w <> None /\ listeners_are true w /\
      reconnectTimer w = None /\
      exists c,
        kind c = ConnectionTimer /\
        delay c = HEARTBEAT_TIMEOUT_MS cfg /\
        connectionTimer w = Some (tid c) /\ (tid c < nextTimer w)%nat /\
        ((pending w = [c] /\ heartbeatTimer w = None) \/
         (exists h, pending w = [c; h] /\ kind h = HeartbeatTimer /\
                    delay h = HEARTBEAT_TIMEOUT_MS cfg /\
                    heartbeatTimer w = Some (tid h) /\
                    (tid c < tid h)%nat /\ (tid h < nextTimer w)%nat))
  | connected =>
      eventSource w <> None /\ listeners_are true w /\
      reconnectTimer w = None /\ connectionTimer w = None /\
      (exists h, pending w = [h] /\ kind h = HeartbeatTimer /\
                 delay h = HEARTBEAT_TIMEOUT_MS cfg /\
                 heartbeatTimer w = Some (tid h) /\
                 (tid h < nextTimer w)%nat) /\
      reconnectAttempts w = 0%nat /\ lastError w = None /\
      connectedAt w <> None
  end.

(** The counter is bounded, every transport constructed was closed
    except the one held, the module is loaded once a connection was
    ever started, and the state has its shape. *)
Definition Inv (cfg : SSEConfig) (w : World) : Prop :=
  (reconnectAttempts w <= MAX_RETRIES cfg)%nat /\
  constructed w = (List.length (closed w) + live w)%nat /\
  (state w <> disconnected -> EventSourceClass w = true) /\
  shape cfg w.

(** What the error path and [disconnect()] need of the world they start
    from. *)
Definition Base (cfg : SSEConfig) (w : World) : Prop :=
  timers_ok w = true /\
  (reconnectAttempts w <= MAX_RETRIES cfg)%nat /\
  constructed w = (List.length (closed w) + live w)%nat /\
  (eventSource w = None -> listeners_are false w).

Section Invariants.

Variable cfg : SSEConfig.
Variable JSON_parse : string -> option json.

Lemma handleError_Inv (error : Thrown) (r : Q) (w : World) :
  Base cfg w -> EventSourceClass w = true ->
  Inv cfg (handleError cfg error r w).
Proof.
  intros (Hok & Hb & Hacc & Hoff) Hcl.
  unfold Inv, shape, live, listeners_are in *.
  world_of_call (handleError cfg error r w).
  rewrite (unref_all_nil w Hok).
  destruct (Nat.leb_spec (MAX_RETRIES cfg) (reconnectAttempts w)); simpl.
  - destruct (eventSource w); simpl; rewrite ?length_app; simpl;
      repeat split; try lia; try congruence; auto; apply Hoff; reflexivity.
  - destruct (eventSource w); simpl; rewrite ?length_app; simpl;
      repeat split; try lia; try congruence; auto;
      try (apply Hoff; reflexivity);
      eexists; repeat split; simpl; lia.
Qed.

Lemma Inv_Base (w : World) : Inv cfg w -> Base cfg w.
Proof.
  intros (Hb & Hacc & Hcl & Hsh). unfold Base, shape, listeners_are in *.
  split; [|split; [assumption|split; [assumption|]]].
  - unfold timers_ok, owned, owner.
    destruct (state w).
    + destruct Hsh as (Hp & _). rewrite Hp. reflexivity.
    + destruct Hsh as (_ & _ & _ & c & Hk & _ & Hc & _ & [[Hp Hh]|Hh]).
      * rewrite Hp. simpl. rewrite Hk, Hc, Nat.eqb_refl. reflexivity.
      * destruct Hh as (h & Hp & Hkh & _ & Hh & _).
        rewrite Hp. simpl. rewrite Hk, Hkh, Hc, Hh, !Nat.eqb_refl.
        reflexivity.
    + destruct Hsh as (_ & _ & _ & _ & (h & Hp & Hk & _ & Hh & _) & _).
      rewrite Hp. simpl. rewrite Hk, Hh, Nat.eqb_refl. reflexivity.
    + destruct Hsh as ((t & Hp & Hk & Hr & _) & _).
      rewrite Hp. simpl. rewrite Hk, Hr, Nat.eqb_refl. reflexivity.
    + destruct Hsh as (Hp & _). rewrite Hp. reflexivity.
  - intros He. destruct (state w); try tauto;
      destruct Hsh as (Hne & _); contradiction.
Qed.

Lemma Inv_idle (w : World) :
  Inv cfg w -> state w <> connected -> state w <> connecting ->
  eventSource w = None.
Proof.
  intros (_ & _ & _ & Hsh) H1 H2. unfold shape in Hsh.
  destruct (state w); try contradiction; tauto.
Qed.

Lemma disconnect_Inv (w : World) : Base cfg w -> Inv cfg (disconnect w).
Proof.
  intros (Hok & Hb & Hacc & Hoff).
  unfold Inv, shape, live, listeners_are in *.
  world_of_call (disconnect w).
  rewrite (unref_all_nil w Hok).
  destruct (eventSource w); simpl; rewrite ?length_app; simpl;
    repeat split; try lia; try congruence; auto;
    try (apply Hoff; reflexivity).
Qed.

Lemma connect_Inv_idle (env : Env) (w : World) :
  Base cfg w -> eventSource w = None ->
  state w <> connected -> state w <> connecting ->
  EventSourceClass w = true \/ importOk env = true ->
  Inv cfg (world_of (connect cfg env w)).
Proof.
  intros HB He Hs1 Hs2 Hload.
  destruct HB as (Hok & Hb & Hacc & Hoff).
  unfold connect.
  assert (Hc : negb (EventSourceClass w) && negb (importOk env) = false).
  { destruct Hload as [H|H]; rewrite H; simpl;
      [reflexivity|apply andb_false_r]. }
  rewrite Hc.
  set (w0 := if EventSourceClass w then w else set_EventSourceClass true w).
  assert (Hcl : EventSourceClass w0 = true).
  { unfold w0. destruct (EventSourceClass w) eqn:E; [assumption|reflexivity]. }
  assert (Hst : state w0 = state w)
    by (unfold w0; destruct (EventSourceClass w); reflexivity).
  assert (Hok0 : timers_ok w0 = true)
    by (unfold w0; destruct (EventSourceClass w); assumption).
  assert (He0 : eventSource w0 = None)
    by (unfold w0; destruct (EventSourceClass w); assumption).
  assert (Hb0 : (reconnectAttempts w0 <= MAX_RETRIES cfg)%nat)
    by (unfold w0; destruct (EventSourceClass w); assumption).
  assert (Hacc0 : constructed w0 = List.length (closed w0))
    by (unfold w0, live in *; rewrite He in Hacc;
        destruct (EventSourceClass w); simpl; lia).
  assert (Hoff0 : listeners_are false w0)
    by (unfold w0; destruct (EventSourceClass w); apply Hoff; assumption).
  clearbody w0. rewrite Hst.
  destruct (state w) eqn:Es; try congruence;
    (destruct (construct env) as [error|]; simpl;
     [ apply handleError_Inv;
       [ unfold Base, live, listeners_are in *;
         split; [apply timers_ok_clearTimers; rewrite timers_ok_setState;
                 assumption|];
         upd; rewrite He0; repeat split; try tauto; lia
       | upd; assumption ]
     | unfold Inv, shape, live, listeners_are in *; upd;
       rewrite (unref_all_nil w0 Hok0); simpl;
       repeat split; try lia; try congruence; auto;
       exists {| tid := nextTimer w0; kind := ConnectionTimer;
                 armedAt := clock w0;
                 delay := HEARTBEAT_TIMEOUT_MS cfg |}; simpl;
       split; [reflexivity|]; split; [reflexivity|]; split; [reflexivity|];
       split; [lia|]; left; split; reflexivity ]).
Qed.

Lemma Inv_set_class (w : World) :
  Inv cfg w -> Inv cfg (set_EventSourceClass true w).
Proof.
  intros (Hb & Hacc & Hcl & Hsh). unfold Inv. simpl.
  repeat split; try assumption.
Qed.

Lemma connect_Inv (env : Env) (w : World) :
  Inv cfg w -> Inv cfg (world_of (connect cfg env w)).
Proof.
  intros HI.
  destruct (negb (EventSourceClass w) && negb (importOk env)) eqn:Hc.
  - unfold connect. rewrite Hc. assumption.
  - assert (Hload : EventSourceClass w = true \/ importOk env = true).
    { destruct (EventSourceClass w); [left; reflexivity|].
      destruct (importOk env); [right; reflexivity|discriminate]. }
    destruct (state w) eqn:Es;
      try (apply connect_Inv_idle;
           [ apply Inv_Base; assumption
           | apply Inv_idle; [assumption|congruence|congruence]
           | congruence | congruence | assumption ]).
    + unfold connect. rewrite Hc.
      destruct (EventSourceClass w);
        [rewrite Es; assumption|simpl; rewrite Es; apply Inv_set_class;
                                assumption].
    + unfold connect. rewrite Hc.
      destruct (EventSourceClass w);
        [rewrite Es; assumption|simpl; rewrite Es; apply Inv_set_class;
                                assumption].
Qed.

Lemma resetHeartbeatMonitor_Inv (w : World) :
  Inv cfg w -> eventSource w <> None ->
  Inv cfg (resetHeartbeatMonitor cfg w).
Proof.
  intros (Hb & Hacc & Hcl & Hsh) He.
  unfold Inv, shape, live, listeners_are in *.
  rewrite resetHeartbeatMonitor_nf. simpl.
  destruct (state w) eqn:Es; try tauto.
  - destruct Hsh as (_ & Hl & Hr & c & Hk & Hd & Hc & Hlt & Hsh).
    repeat split; try tauto.
    exists c. split; [assumption|]. split; [assumption|].
    split; [assumption|]. split; [lia|]. right.
    destruct Hsh as [[Hp Hh]|(h & Hp & Hkh & Hdh & Hh & Hlt1 & Hlt2)].
    + exists (newTimer HeartbeatTimer (HEARTBEAT_TIMEOUT_MS cfg) w).
      rewrite Hp, Hh. simpl. repeat split; try reflexivity; lia.
    + exists (newTimer HeartbeatTimer (HEARTBEAT_TIMEOUT_MS cfg) w).
      rewrite Hp, Hh. simpl. rewrite Nat.eqb_refl.
      destruct (Nat.eqb_spec (tid c) (tid h)); [lia|]. simpl.
      repeat split; try reflexivity; lia.
  - destruct Hsh as (_ & Hl & Hr & Hc & (h & Hp & Hk & Hd & Hh & Hlt) & Hrest).
    repeat split; try tauto.
    exists (newTimer HeartbeatTimer (HEARTBEAT_TIMEOUT_MS cfg) w).
    rewrite Hp, Hh. simpl. rewrite Nat.eqb_refl. simpl.
    repeat split; try reflexivity; lia.
Qed.

Lemma onopen_Inv (w : World) : Inv cfg w -> Inv cfg (onopen cfg w).
Proof.
  intros HI. unfold onopen. destruct (state w) eqn:Es; try assumption.
  destruct HI as (Hb & Hacc & Hcl & Hsh).
  unfold Inv, shape, live, listeners_are in *. rewrite Es in *.
  destruct Hsh as (He & Hl & Hr & c & Hk & Hd & Hc & Hlt & Hsh).
  unfold startHeartbeatMonitor.
  rewrite resetHeartbeatMonitor_nf, setState_nf, clearConnectionTimeout_nf.
  simpl.
  repeat split; try tauto; try lia; try discriminate.
  { intros _. apply Hcl. discriminate. }
  destruct Hsh as [[Hp Hh]|(h & Hp & Hkh & Hdh & Hh & Hlt1 & Hlt2)].
  - exists (newTimer HeartbeatTimer (HEARTBEAT_TIMEOUT_MS cfg) w).
    rewrite Hp, Hh, Hc. simpl. rewrite Nat.eqb_refl. simpl.
    repeat split; try reflexivity; lia.
  - exists (newTimer HeartbeatTimer (HEARTBEAT_TIMEOUT_MS cfg) w).
    rewrite Hp, Hh, Hc. simpl. rewrite !Nat.eqb_refl.
    destruct (Nat.eqb_spec (tid h) (tid c)); [lia|]. simpl.
    rewrite Nat.eqb_refl. simpl.
    repeat split; try reflexivity; lia.
Qed.

Lemma Inv_grown (w w' : World) : grown w w' -> Inv cfg w -> Inv cfg w'.
Proof. intros (l & H & _) HI. subst. exact HI. Qed.

Lemma Inv_lastEventTime (t : option Q) (w : World) :
  Inv cfg w -> Inv cfg (set_lastEventTime t w).
Proof. intros HI. exact HI. Qed.

Lemma handleMessage_Inv (data : string) (w : World) :
  Inv cfg w -> eventSource w <> None ->
  Inv cfg (handleMessage cfg JSON_parse data w).
Proof.
  intros HI He.
  apply (Inv_grown _ _ (handleMessage_grown cfg JSON_parse data w)).
  apply resetHeartbeatMonitor_Inv; [|exact He].
  apply Inv_lastEventTime. assumption.
Qed.

Lemma find_timer_In (id : nat) (w : World) (t : Timer) :
  find_timer id w = Some t -> In t (pending w) /\ tid t = id.
Proof.
  unfold find_timer. intros H. apply find_some in H.
  destruct H as [H1 H2]. apply Nat.eqb_eq in H2. auto.
Qed.

Lemma Base_clearTimeout (id : nat) (w : World) :
  Base cfg w -> Base cfg (clearTimeout id w).
Proof.
  intros (Hok & Hb & Hacc & Hoff). unfold Base.
  split; [apply timers_ok_clearTimeout; assumption|].
  repeat split; try assumption; apply Hoff; assumption.
Qed.

Lemma Inv_class (w : World) :
  Inv cfg w -> state w <> disconnected -> EventSourceClass w = true.
Proof. intros (_ & _ & H & _). exact H. Qed.

(** The invariant is kept by every turn. *)
Lemma step_Inv (env : Env) (w w' : World) (i : Input) :
  Inv cfg w -> step cfg JSON_parse env w i = Some w' -> Inv cfg w'.
Proof.
  intros HI Hs. pose proof (Inv_Base w HI) as HB. destruct i; simpl in Hs.
  - inversion Hs. apply connect_Inv. assumption.
  - inversion Hs. apply disconnect_Inv. assumption.
  - destruct (eventSource w); inversion Hs. apply onopen_Inv. assumption.
  - destruct (eventSource w) eqn:Ee; inversion Hs.
    apply handleError_Inv; [assumption|].
    apply Inv_class; [assumption|]. intros Hd.
    destruct HI as (_ & _ & _ & Hsh). unfold shape in Hsh.
    rewrite Hd in Hsh. destruct Hsh as (_ & _ & _ & _ & He & _). congruence.
  - destruct (eventSource w) eqn:Ee; [|discriminate].
    destruct (listening ch w); inversion Hs.
    destruct ch;
      solve [ apply handleMessage_Inv; [assumption|congruence]
            | apply resetHeartbeatMonitor_Inv; [assumption|congruence] ].
  - destruct (find_timer id w) as [t|] eqn:Ef; [|discriminate].
    destruct (Qle_bool (due t) (clock w)); inversion Hs. clear Hs.
    destruct (find_timer_In id w t Ef) as [Hin Hid].
    assert (Hnd : state w <> disconnected).
    { intros Hd. destruct HI as (_ & _ & _ & Hsh). unfold shape in Hsh.
      rewrite Hd in Hsh. destruct Hsh as (Hp & _). rewrite Hp in Hin.
      destruct Hin. }
    pose proof (Inv_class w HI Hnd) as Hcl.
    pose proof (Base_clearTimeout id w HB) as HB1.
    unfold reconnectTimerCallback, heartbeatTimerCallback,
      connectionTimerCallback.
    change (state (clearTimeout id w)) with (state w).
    destruct (kind t) eqn:Ek.
    + (* a reconnect timer is pending in state [reconnecting] only *)
      assert (Hr : state w = reconnecting).
      { destruct HI as (_ & _ & _ & Hsh). unfold shape in Hsh.
        destruct (state w); try reflexivity.
        - destruct Hsh as (Hp & _). rewrite Hp in Hin. destruct Hin.
        - destruct Hsh as (_ & _ & _ & c & Hk & _ & _ & _ & [[Hp _]|Hh]).
          + rewrite Hp in Hin. destruct Hin as [<-|[]]. congruence.
          + destruct Hh as (h & Hp & Hkh & _). rewrite Hp in Hin.
            destruct Hin as [<-|[<-|[]]]; congruence.
        - destruct Hsh as (_ & _ & _ & _ & (h & Hp & Hk & _) & _).
          rewrite Hp in Hin. destruct Hin as [<-|[]]. congruence.
        - destruct Hsh as (Hp & _). rewrite Hp in Hin. destruct Hin. }
      rewrite Hr. apply connect_Inv_idle; try assumption.
      * change (eventSource (clearTimeout id w)) with (eventSource w).
        apply Inv_idle; [assumption|congruence|congruence].
      * change (state (clearTimeout id w)) with (state w). congruence.
      * change (state (clearTimeout id w)) with (state w). congruence.
      * left. exact Hcl.
    + destruct (state w); try contradiction;
        apply handleError_Inv; assumption.
    + destruct (state w); try contradiction;
        apply handleError_Inv; assumption.
  - destruct (Qle_bool (clock w) t); inversion Hs. exact HI.
Qed.

Lemma new_client_Inv (loaded : bool) (t0 : Q) :
  Inv cfg (new_client loaded t0).
Proof.
  unfold Inv, shape, live, listeners_are. simpl.
  repeat split; try lia. intros H. congruence.
Qed.

Lemma reachable_Inv (w : World) : reachable cfg JSON_parse w -> Inv cfg w.
Proof.
  intros (loaded & t0 & tr & Hr).
  pose proof (new_client_Inv loaded t0) as H0.
  revert Hr H0. generalize (new_client loaded t0).
  induction tr as [|[env i] tr IH]; intros v Hr HI; simpl in Hr.
  - inversion Hr. subst. assumption.
  - destruct (step cfg JSON_parse env v i) as [v1|] eqn:Es; [|discriminate].
    apply (IH v1 Hr). apply (step_Inv env v v1 i); assumption.
Qed.

End Invariants.

Section StateProperties.

Variable cfg : SSEConfig.
Variable JSON_parse : string -> option json.

(** X1. Whatever the client went through, its state tells which timers
    are pending: none in [disconnected] and [fallback]; exactly the
    retry timer in [reconnecting]; the connection-timeout timer (and no
    retry timer) in [connecting]; exactly the heartbeat timer in
    [connected]. So a client that waits always has its watchdog armed,
    and a stopped one has nothing left that could fire. *)
Theorem pending_timers_by_state : forall w : World,
  reachable cfg JSON_parse w ->
  match state w with
  | disconnected | fallback => pending w = []
  | reconnecting =>
      exists t, pending w = [t] /\ kind t = ReconnectTimer /\
                reconnectTimer w = Some (tid t)
  | connecting =>
      exists c, In c (pending w) /\ kind c = ConnectionTimer /\
                delay c = HEARTBEAT_TIMEOUT_MS cfg /\
                connectionTimer w = Some (tid c) /\
                forall t, In t (pending w) -> kind t <> ReconnectTimer
  | connected =>
      exists h, pending w = [h] /\ kind h = HeartbeatTimer /\
                delay h = HEARTBEAT_TIMEOUT_MS cfg /\
                heartbeatTimer w = Some (tid h)
  end.
Proof.
  intros w Hr. destruct (reachable_Inv cfg JSON_parse w Hr) as (_ & _ & _ & Hsh).
  unfold shape in Hsh. destruct (state w).
  - tauto.
  - destruct Hsh as (_ & _ & _ & c & Hk & Hd & Hc & _ & Hp).
    exists c. destruct Hp as [[Hp _]|(h & Hp & Hkh & _)]; rewrite Hp;
      (split; [left; reflexivity|]); repeat split; try assumption;
      intros t Hin; simpl in Hin; intuition (subst; congruence).
  - destruct Hsh as (_ & _ & _ & _ & (h & Hp & Hk & Hd & Hh & _) & _).
    exists h. auto.
  - destruct Hsh as ((t & Hp & Hk & Hrt & _) & _). exists t. auto.
  - tauto.
Qed.

(** Between turns the status snapshot is coherent with the state. *)
Lemma status_between_turns : forall w : World,
  reachable cfg JSON_parse w ->
  let s := getStatus w in
  (st_reconnectAttempts s <= MAX_RETRIES cfg)%nat /\
  (st_state s = connected ->
     st_reconnectAttempts s = 0%nat /\ st_error s = None /\
     st_connectedAt s <> None) /\
  (st_state s = reconnecting ->
     (1 <= st_reconnectAttempts s)%nat /\ st_error s <> None) /\
  (st_state s = fallback ->
     st_reconnectAttempts s = MAX_RETRIES cfg /\ st_error s <> None) /\
  (st_state s = disconnected -> st_connectedAt s = None).
Proof.
  intros w Hr. destruct (reachable_Inv cfg JSON_parse w Hr) as (Hb & _ & _ & Hsh).
  unfold shape in Hsh. simpl.
  split; [assumption|].
  split; [|split; [|split]]; intros Hs; rewrite Hs in Hsh; try tauto.
  destruct Hsh as (_ & _ & _ & _ & _ & _ & Hm & He).
  split; [lia|assumption].
Qed.

Lemma handleError_fired (error : Thrown) (r : Q) (id : nat) (w : World) :
  timers_ok w = true ->
  handleError cfg error r (clearTimeout id w) = handleError cfg error r w.
Proof.
  intros Hok. pose proof (timers_ok_clearTimeout id w Hok) as Hok1.
  unfold handleError. f_equal. f_equal. f_equal. f_equal.
  rewrite !clearTimers_nf.
  rewrite (unref_all_nil w Hok), (unref_all_nil _ Hok1). reflexivity.
Qed.

Lemma failing_connect_when_exhausted
    (env : Env) (error : Thrown) (v : World) :
  timers_ok v = true -> EventSourceClass v = true ->
  state v <> connected -> state v <> connecting ->
  (MAX_RETRIES cfg <= reconnectAttempts v)%nat ->
  construct env = Some error ->
  state (world_of (connect cfg env v)) = fallback /\
  pending (world_of (connect cfg env v)) = [] /\
  scheduled (world_of (connect cfg env v)) = scheduled v /\
  reconnectAttempts (world_of (connect cfg env v)) = reconnectAttempts v.
Proof.
  intros Hok Hload Hs1 Hs2 Hm Hc.
  assert (Hleb : Nat.leb (MAX_RETRIES cfg) (reconnectAttempts v) = true)
    by (apply Nat.leb_le; assumption).
  unfold connect. rewrite Hload, Hc. simpl.
  destruct (state v) eqn:Es; try congruence;
    world_of_call
      (handleError cfg error (random env)
         (clearTimers (setState connecting v)));
    rewrite Hleb; simpl; rewrite (unref_all_nil v Hok); auto.
Qed.

(** X4. [fallback] is terminal for the client itself: in a reachable
    world in state [fallback] no timer can fire and no transport
    callback can arrive, and the passing of time changes nothing; only
    a call of [connect()] or [disconnect()] moves it. Neither resets
    the attempt counter, so a [connect()] whose construction fails,
    called directly or after a [disconnect()], puts the client straight
    back into [fallback] without scheduling any retry. *)
Theorem fallback_is_terminal : forall w : World,
  reachable cfg JSON_parse w ->
  state w = fallback ->
  (forall env i w',
     step cfg JSON_parse env w i = Some w' ->
     i = CallConnect \/ i = CallDisconnect \/
     exists t, i = TimePasses t /\ w' = set_clock t w) /\
  (forall env error,
     construct env = Some error ->
     state (world_of (connect cfg env w)) = fallback /\
     pending (world_of (connect cfg env w)) = [] /\
     scheduled (world_of (connect cfg env w)) = scheduled w /\
     reconnectAttempts (world_of (connect cfg env w)) = reconnectAttempts w) /\
  (forall env error,
     construct env = Some error ->
     state (world_of (connect cfg env (disconnect w))) = fallback /\
     pending (world_of (connect cfg env (disconnect w))) = [] /\
     scheduled (world_of (connect cfg env (disconnect w))) = scheduled w).
Proof.
  intros w Hr Hs.
  pose proof (reachable_Inv cfg JSON_parse w Hr) as HI.
  destruct (Inv_Base cfg w HI) as (Hok & _).
  destruct HI as (Hb & _ & Hcl & Hsh).
  unfold shape in Hsh. rewrite Hs in Hsh.
  destruct Hsh as (Hp & _ & _ & _ & He & _ & Hm & _).
  assert (Hload : EventSourceClass w = true)
    by (apply Hcl; rewrite Hs; discriminate).
  split; [|split].
  - intros env i w' Hstep. destruct i; simpl in Hstep;
      try rewrite He in Hstep; try discriminate; auto.
    + unfold find_timer in Hstep. rewrite Hp in Hstep. discriminate.
    + destruct (Qle_bool (clock w) t); inversion Hstep.
      right. right. exists t. auto.
  - intros env error Hc.
    apply (failing_connect_when_exhausted env error w); try assumption;
      rewrite Hs; discriminate.
  - intros env error Hc.
    assert (Hd : state (disconnect w) = disconnected)
      by apply disconnect_state.
    assert (Hf : EventSourceClass (disconnect w) = EventSourceClass w /\
                 reconnectAttempts (disconnect w) = reconnectAttempts w /\
                 scheduled (disconnect w) = scheduled w).
    { world_of_call (disconnect w). auto. }
    destruct Hf as (Hf1 & Hf2 & Hf3).
    destruct (failing_connect_when_exhausted env error (disconnect w))
      as (H1 & H2 & H3 & _); try assumption.
    + apply timers_ok_disconnect. assumption.
    + rewrite Hf1. assumption.
    + rewrite Hd. discriminate.
    + rewrite Hd. discriminate.
    + rewrite Hf2. assumption.
    + rewrite Hf3 in H3. auto.
Qed.

(** X5. The connection timeout. A connection-timeout timer is pending
    only while the client is [connecting]. When it fires, the client
    does what it does on a transport error carrying the error
    "Connection timeout": the status reports that message, the transport
    is closed and dropped, and the client is left in [reconnecting] or
    [fallback]. Once the transport has opened, or after [disconnect()],
    that timer is no longer pending and cannot fire. *)
Theorem connection_timeout_runs_error_path :
  forall (w : World) (id : nat) (t : Timer),
  reachable cfg JSON_parse w ->
  find_timer id w = Some t ->
  kind t = ConnectionTimer ->
  state w = connecting /\
  (forall env,
     due t <= clock w ->
     step cfg JSON_parse env w (TimerFires id) =
       step cfg JSON_parse env w
         (TransportError (ErrorInstance "Connection timeout")) /\
     exists w',
       step cfg JSON_parse env w (TimerFires id) = Some w' /\
       st_error (getStatus w') = Some "Connection timeout" /\
       eventSource w' = None /\
       closed w' = closed w ++
                   match eventSource w with Some h => [h] | None => [] end /\
       (state w' = reconnecting \/ state w' = fallback)) /\
  find_timer id (onopen cfg w) = None /\
  find_timer id (disconnect w) = None.
Proof.
  intros w id t Hr Hf Hk.
  pose proof (reachable_Inv cfg JSON_parse w Hr) as HI.
  destruct (Inv_Base cfg w HI) as (Hok & _).
  destruct (find_timer_In id w t Hf) as [Hin Hid].
  assert (Hs : state w = connecting).
  { destruct HI as (_ & _ & _ & Hsh). unfold shape in Hsh.
    destruct (state w); try reflexivity.
    - destruct Hsh as (Hp & _). rewrite Hp in Hin. destruct Hin.
    - destruct Hsh as (_ & _ & _ & _ & (h & Hp & Hkh & _) & _).
      rewrite Hp in Hin. destruct Hin as [<-|[]]. congruence.
    - destruct Hsh as ((r & Hp & Hkr & _) & _).
      rewrite Hp in Hin. destruct Hin as [<-|[]]. congruence.
    - destruct Hsh as (Hp & _). rewrite Hp in Hin. destruct Hin. }
  destruct HI as (_ & _ & _ & Hsh). unfold shape in Hsh. rewrite Hs in Hsh.
  destruct Hsh as (He & _ & _ & c & Hkc & _ & Hc & _ & Hshape).
  assert (Htc : t = c).
  { destruct Hshape as [[Hp _]|(h & Hp & Hkh & _)]; rewrite Hp in Hin.
    - destruct Hin as [<-|[]]. reflexivity.
    - destruct Hin as [<-|[<-|[]]]; [reflexivity|congruence]. }
  subst c. rewrite Hid in Hc.
  split; [assumption|]. split; [|split].
  - intros env Hdue.
    assert (Hfire : step cfg JSON_parse env w (TimerFires id) =
              Some (handleError cfg (ErrorInstance "Connection timeout")
                      (random env) w)).
    { simpl. rewrite Hf. apply Qle_bool_iff in Hdue. rewrite Hdue, Hk.
      unfold connectionTimerCallback.
      change (state (clearTimeout id w)) with (state w). rewrite Hs.
      rewrite (handleError_fired _ _ id w Hok). reflexivity. }
    split.
    + rewrite Hfire. simpl. destruct (eventSource w); [reflexivity|].
      contradiction.
    + eexists. split; [exact Hfire|].
      destruct (handleError_observable cfg
                  (ErrorInstance "Connection timeout") (random env) w)
        as (Hl & Hes & _ & _ & Hst).
      split; [exact Hl|]. split; [exact Hes|]. split; [|exact Hst].
      world_of_call
        (handleError cfg (ErrorInstance "Connection timeout") (random env) w).
      destruct (Nat.leb (MAX_RETRIES cfg) (reconnectAttempts w)); simpl;
        destruct (eventSource w); simpl; rewrite ?app_nil_r; reflexivity.
  - unfold find_timer, onopen. rewrite Hs. upd. rewrite Hc.
    destruct Hshape as [[Hp Hh]|(h & Hp & Hkh & _ & Hh & Hlt & Hlt2)];
      rewrite Hp, Hh; simpl; rewrite <- Hid, ?Nat.eqb_refl; simpl.
    + destruct (Nat.eqb_spec (nextTimer w) (tid t)); [|reflexivity].
      destruct (reachable_Inv cfg JSON_parse w Hr) as (_ & _ & _ & Hsh).
      unfold shape in Hsh. rewrite Hs in Hsh.
      destruct Hsh as (_ & _ & _ & c & _ & _ & Hc' & Hltc & _).
      rewrite Hc in Hc'. inversion Hc'. lia.
    + destruct (Nat.eqb_spec (tid h) (tid t)); [lia|]. simpl.
      rewrite Nat.eqb_refl. simpl.
      destruct (Nat.eqb_spec (nextTimer w) (tid t)); [lia|reflexivity].
  - unfold find_timer. world_of_call (disconnect w).
    rewrite (unref_all_nil w Hok). reflexivity.
Qed.

End StateProperties.

(** ** Transports *)

(** The handles [close()] has been called on once the transport held, if
    any, is cleaned up. *)
Definition closed_after (w : World) : list nat :=
  match eventSource w with
  | Some h => closed w ++ [h]
  | None => closed w
  end.

(** What a turn does to the transports: nothing, or it cleans up the one
    held, or it constructs one while none is held. *)
Definition transport_step (w w' : World) : Prop :=
  (eventSource w' = eventSource w /\ closed w' = closed w /\
   constructed w' = constructed w) \/
  (eventSource w' = None /\ closed w' = closed_after w /\
   constructed w' = constructed w) \/
  (eventSource w = None /\ eventSource w' = Some (constructed w) /\
   closed w' = closed w /\ constructed w' = S (constructed w)).

(** No handle is closed twice, only constructed handles are closed, and
    the handle held is constructed and not closed. *)
Definition transports_ok (w : World) : Prop :=
  NoDup (closed w) /\
  (forall h, In h (closed w) -> (h < constructed w)%nat) /\
  (forall h, eventSource w = Some h ->
     (h < constructed w)%nat /\ ~ In h (closed w)).

Section Transports.

Variable cfg : SSEConfig.
Variable JSON_parse : string -> option json.

Lemma handleError_transport (error : Thrown) (r : Q) (w : World) :
  eventSource (handleError cfg error r w) = None /\
  closed (handleError cfg error r w) = closed_after w /\
  constructed (handleError cfg error r w) = constructed w.
Proof.
  unfold closed_after. world_of_call (handleError cfg error r w).
  destruct (Nat.leb (MAX_RETRIES cfg) (reconnectAttempts w)); simpl; auto.
Qed.

Lemma connect_transport (env : Env) (w : World) :
  (state w <> connected -> state w <> connecting -> eventSource w = None) ->
  transport_step w (world_of (connect cfg env w)).
Proof.
  intros Hidle. unfold connect.
  destruct (negb (EventSourceClass w) && negb (importOk env));
    [left; auto|].
  set (w0 := if EventSourceClass w then w else set_EventSourceClass true w).
  assert (H0 : eventSource w0 = eventSource w /\ closed w0 = closed w /\
               constructed w0 = constructed w /\ state w0 = state w)
    by (unfold w0; destruct (EventSourceClass w); auto).
  destruct H0 as (He0 & Hc0 & Hn0 & Hs0). clearbody w0.
  rewrite Hs0.
  destruct (state w) eqn:Es; try (left; auto; fail);
    (destruct (construct env) as [error|]; simpl;
     [ right; left;
       destruct (handleError_transport error (random env)
                   (clearTimers (setState connecting w0)))
         as (H1 & H2 & H3);
       rewrite H1, H2, H3; unfold closed_after; upd;
       rewrite He0, Hc0, Hn0; auto
     | right; right; upd; rewrite Hc0, Hn0;
       split; [apply Hidle; congruence|auto] ]).
Qed.

Lemma step_transport (env : Env) (w w' : World) (i : Input) :
  Inv cfg w -> step cfg JSON_parse env w i = Some w' -> transport_step w w'.
Proof.
  intros HI Hs.
  assert (Hidle : state w <> connected -> state w <> connecting ->
                  eventSource w = None)
    by (intros; apply (Inv_idle cfg w); assumption).
  destruct i; simpl in Hs.
  - inversion Hs. apply connect_transport. assumption.
  - inversion Hs. right; left. unfold closed_after.
    world_of_call (disconnect w). auto.
  - destruct (eventSource w); inversion Hs. left.
    unfold onopen. destruct (state w); auto. upd. auto.
  - destruct (eventSource w) eqn:Ee; inversion Hs. right; left.
    apply handleError_transport.
  - destruct (eventSource w) eqn:Ee; [|discriminate].
    destruct (listening ch w); inversion Hs. left.
    destruct ch;
      try (destruct (handleMessage_grown cfg JSON_parse data w)
             as (l & H & _); rewrite H);
      upd; auto.
  - destruct (find_timer id w) as [t|]; [|discriminate].
    destruct (Qle_bool (due t) (clock w)); inversion Hs.
    unfold reconnectTimerCallback, heartbeatTimerCallback,
      connectionTimerCallback.
    change (state (clearTimeout id w)) with (state w).
    destruct (kind t); destruct (state w) eqn:Es; try (left; auto; fail);
      try (right; left; apply (handleError_transport _ _ (clearTimeout id w)));
      apply (connect_transport env (clearTimeout id w));
      change (state (clearTimeout id w)) with (state w);
      change (eventSource (clearTimeout id w)) with (eventSource w);
      rewrite Es; intros H1 H2; try congruence; apply Hidle; discriminate.
  - destruct (Qle_bool (clock w) t); inversion Hs. left. auto.
Qed.

Lemma transports_ok_step (w w' : World) :
  transport_step w w' -> transports_ok w -> transports_ok w'.
Proof.
  unfold transport_step, transports_ok, closed_after.
  intros [(He & Hc & Hn)|[(He & Hc & Hn)|(He0 & He & Hc & Hn)]]
         (Hnd & Hlt & Hlive); rewrite He, Hc, Hn.
  - auto.
  - destruct (eventSource w) as [h|] eqn:Ee.
    + destruct (Hlive h eq_refl) as [Hh Hnin].
      split; [|split].
      * apply NoDup_app; [assumption|repeat constructor; simpl; tauto|].
        intros x Hx [<-|[]]. contradiction.
      * intros x Hx. apply in_app_iff in Hx.
        destruct Hx as [Hx|[<-|[]]]; auto.
      * intros x Hx. discriminate.
    + split; [assumption|]. split; [assumption|]. intros x Hx. discriminate.
  - split; [assumption|]. split.
    + intros h Hh. specialize (Hlt h Hh). lia.
    + intros h Hh. inversion Hh. subst h. split; [lia|].
      intros Hin. specialize (Hlt _ Hin). lia.
Qed.

Lemma reachable_transports_ok (w : World) :
  reachable cfg JSON_parse w -> transports_ok w.
Proof.
  intros (loaded & t0 & tr & Hr).
  assert (H0 : transports_ok (new_client loaded t0)).
  { unfold transports_ok. simpl. split; [constructor|].
    split; [intros h []|intros h Hh; discriminate]. }
  pose proof (new_client_Inv cfg loaded t0) as HI.
  revert Hr H0 HI. generalize (new_client loaded t0).
  induction tr as [|[env i] tr IH]; intros v Hr H0 HI; simpl in Hr.
  - inversion Hr. subst. assumption.
  - destruct (step cfg JSON_parse env v i) as [v1|] eqn:Es; [|discriminate].
    apply (IH v1 Hr).
    + apply (transports_ok_step v v1); [|assumption].
      apply (step_transport env v v1 i); assumption.
    + apply (step_Inv cfg JSON_parse env v v1 i); assumption.
Qed.

Lemma covers_all_below (l : list nat) (n : nat) :
  NoDup l -> (forall h, In h l -> (h < n)%nat) -> List.length l = n ->
  forall h, (h < n)%nat -> In h l.
Proof.
  intros Hnd Hlt Hlen h Hh.
  assert (Hincl : incl (seq 0 n) l).
  { apply NoDup_length_incl; [assumption| |].
    - rewrite length_seq. lia.
    - intros x Hx. apply in_seq. specialize (Hlt x Hx). lia. }
  apply Hincl. apply in_seq. lia.
Qed.

(** X2. No transport is leaked and none is closed twice. In every world
    a client can reach, the handles [close()] was called on are
    distinct, and together with the handle held (if any, and it is not
    among them) they are exactly the transports constructed so far. A
    transport is held exactly in the states [connecting] and
    [connected], and the four listener references are set exactly when
    a transport is held. *)
Theorem every_transport_closed_exactly_once : forall w : World,
  reachable cfg JSON_parse w ->
  NoDup (closed w) /\
  (forall h, eventSource w = Some h -> ~ In h (closed w)) /\
  (forall h, (h < constructed w)%nat <->
             In h (closed w) \/ eventSource w = Some h) /\
  (eventSource w <> None <-> state w = connecting \/ state w = connected) /\
  listeners_are (match eventSource w with Some _ => true | None => false end)
                w.
Proof.
  intros w Hr.
  destruct (reachable_transports_ok w Hr) as (Hnd & Hlt & Hlive).
  destruct (reachable_Inv cfg JSON_parse w Hr) as (_ & Hacc & _ & Hsh).
  split; [assumption|]. split; [intros h Hh; apply (Hlive h Hh)|].
  split; [|split].
  - intros h. split.
    + intros Hh. unfold live in Hacc.
      destruct (eventSource w) as [e|] eqn:Ee.
      * destruct (Hlive e eq_refl) as [He Hnin].
        assert (Hin : In h (e :: closed w)).
        { apply (covers_all_below (e :: closed w) (constructed w)).
          - constructor; assumption.
          - intros x [<-|Hx]; auto.
          - simpl. lia.
          - assumption. }
        destruct Hin as [<-|Hin]; auto.
      * left. apply (covers_all_below (closed w) (constructed w));
          try assumption. lia.
    + intros [Hin|He]; [apply Hlt; assumption|apply (Hlive h He)].
  - unfold shape in Hsh. destruct (state w); split; intros H;
      try tauto; try (destruct H; discriminate);
      try (destruct Hsh as (He & _); exact He);
      try (left; reflexivity); try (right; reflexivity);
      exfalso; apply H; tauto.
  - unfold shape in Hsh. destruct (state w);
      try (assert (He : eventSource w = None) by tauto; rewrite He; tauto);
      destruct Hsh as (He & Hl & _);
      destruct (eventSource w); [assumption|contradiction| assumption|contradiction].
Qed.

End Transports.

(** ** What a subscriber of [connection:state] sees *)

(** The states announced by the [connection:state] events of a log. *)
Definition stateEvents (l : list Event) : list SSEConnectionState :=
  flat_map (fun e => match e with connection_state s => [s] | _ => [] end) l.

(** Starting from state [d], no announcement repeats the state before
    it. *)
Fixpoint no_stutter (d : SSEConnectionState) (l : list SSEConnectionState)
    : Prop :=
  match l with
  | [] => True
  | s :: rest => s <> d /\ no_stutter s rest
  end.

(** From [w] to [w'] the log only grew, its announcements never repeat
    a state, and the last one (if any) is the state of [w']. *)
Definition tracks (w w' : World) : Prop :=
  exists l,
    emitted w' = emitted w ++ l /\
    no_stutter (state w) (stateEvents l) /\
    last (stateEvents l) (state w) = state w'.

(** A message adds session events only. *)
Definition only_sessions (w w' : World) : Prop :=
  exists l, w' = set_emitted (emitted w ++ l) w /\
            forallb is_session_event l = true.

Section Observer.

Variable cfg : SSEConfig.
Variable JSON_parse : string -> option json.

Lemma stateEvents_app (l1 l2 : list Event) :
  stateEvents (l1 ++ l2) = stateEvents l1 ++ stateEvents l2.
Proof. unfold stateEvents. apply flat_map_app. Qed.

Lemma last_cons_default (s d d' : SSEConnectionState)
    (l : list SSEConnectionState) :
  last (s :: l) d = last (s :: l) d'.
Proof.
  revert s. induction l as [|a l IH]; intros s; [reflexivity|].
  change (last (s :: a :: l) d) with (last (a :: l) d).
  change (last (s :: a :: l) d') with (last (a :: l) d').
  apply IH.
Qed.

Lemma no_stutter_app (d : SSEConnectionState) (l1 l2 : list SSEConnectionState) :
  no_stutter d (l1 ++ l2) <-> no_stutter d l1 /\ no_stutter (last l1 d) l2.
Proof.
  revert d. induction l1 as [|s l1 IH]; intros d.
  - simpl. tauto.
  - change (no_stutter d ((s :: l1) ++ l2))
      with (s <> d /\ no_stutter s (l1 ++ l2)).
    change (no_stutter d (s :: l1)) with (s <> d /\ no_stutter s l1).
    rewrite IH.
    assert (E : last (s :: l1) d = last l1 s).
    { destruct l1 as [|a l1]; [reflexivity|].
      change (last (s :: a :: l1) d) with (last (a :: l1) d).
      apply last_cons_default. }
    rewrite E. tauto.
Qed.

Lemma last_app_default (d : SSEConnectionState) (l1 l2 : list SSEConnectionState) :
  last (l1 ++ l2) d = last l2 (last l1 d).
Proof.
  revert d. induction l1 as [|s l1 IH]; intros d; [reflexivity|].
  destruct l1 as [|s1 l1].
  - simpl. destruct l2 as [|a l2]; [reflexivity|].
    apply last_cons_default.
  - change (last ((s :: s1 :: l1) ++ l2) d)
      with (last ((s1 :: l1) ++ l2) d).
    rewrite IH. reflexivity.
Qed.

Lemma tracks_refl (w : World) : tracks w w.
Proof. exists []. simpl. rewrite app_nil_r. auto. Qed.

Lemma tracks_trans (w w1 w2 : World) :
  tracks w w1 -> tracks w1 w2 -> tracks w w2.
Proof.
  intros (l1 & E1 & N1 & L1) (l2 & E2 & N2 & L2). exists (l1 ++ l2).
  rewrite stateEvents_app, no_stutter_app, last_app_default, L1.
  rewrite E2, E1, app_assoc. auto.
Qed.

Lemma tracks_same (w w' : World) :
  emitted w' = emitted w -> state w' = state w -> tracks w w'.
Proof.
  intros He Hs. exists []. simpl. rewrite He, app_nil_r. auto.
Qed.

Lemma tracks_setState (s : SSEConnectionState) (w : World) :
  tracks w (setState s w).
Proof.
  unfold setState. destruct (state_eqb (state w) s) eqn:E.
  - apply tracks_refl.
  - exists [connection_state s]. simpl. repeat split.
    intros Heq. rewrite Heq, state_eqb_refl in E. discriminate.
Qed.

Lemma tracks_quiet_event (e : Event) (w : World) :
  stateEvents [e] = [] -> tracks w (emit e w).
Proof.
  intros He. exists [e]. rewrite He. simpl. auto.
Qed.

Lemma tracks_scheduleReconnect (r : Q) (w : World) :
  tracks w (scheduleReconnect cfg r w).
Proof.
  unfold scheduleReconnect.
  destruct (Nat.leb (MAX_RETRIES cfg) (reconnectAttempts w)).
  - apply tracks_setState.
  - apply (tracks_trans w (setState reconnecting w));
      [apply tracks_setState|].
    apply tracks_same; reflexivity.
Qed.

Lemma tracks_handleError (error : Thrown) (r : Q) (w : World) :
  tracks w (handleError cfg error r w).
Proof.
  unfold handleError. cbv zeta.
  match goal with
  | |- tracks _ (scheduleReconnect _ _ ?v4) =>
      apply (tracks_trans w v4); [|apply tracks_scheduleReconnect];
      match v4 with
      | cleanupEventSource ?v3 =>
          apply (tracks_trans w v3);
            [|apply tracks_same; upd; reflexivity];
          match v3 with
          | emit _ ?v2 =>
              apply (tracks_trans w v2);
                [|apply tracks_quiet_event; reflexivity];
              apply tracks_same; upd; reflexivity
          end
      end
  end.
Qed.

Lemma tracks_connect (env : Env) (w : World) :
  tracks w (world_of (connect cfg env w)).
Proof.
  unfold connect.
  destruct (negb (EventSourceClass w) && negb (importOk env));
    [apply tracks_refl|].
  set (w0 := if EventSourceClass w then w else set_EventSourceClass true w).
  assert (H0 : tracks w w0)
    by (unfold w0; destruct (EventSourceClass w);
        [apply tracks_refl|apply tracks_same; reflexivity]).
  clearbody w0. apply (tracks_trans w w0); [exact H0|].
  assert (H1 : tracks w0 (clearTimers (setState connecting w0))).
  { apply (tracks_trans w0 (setState connecting w0));
      [apply tracks_setState|].
    apply tracks_same; upd; reflexivity. }
  destruct (state w0); try apply tracks_refl;
    (destruct (construct env); simpl;
     [ apply (tracks_trans w0 (clearTimers (setState connecting w0)));
       [exact H1|apply tracks_handleError]
     | apply (tracks_trans w0 (clearTimers (setState connecting w0)));
       [exact H1|];
       apply tracks_same; upd; reflexivity ]).
Qed.

Lemma tracks_disconnect (w : World) : tracks w (disconnect w).
Proof.
  unfold disconnect. cbv zeta.
  apply (tracks_trans w (cleanupEventSource (clearTimers w)));
    [apply tracks_same; upd; reflexivity|].
  apply (tracks_trans _
           (setState disconnected (cleanupEventSource (clearTimers w))));
    [apply tracks_setState|].
  apply tracks_same; reflexivity.
Qed.

Lemma tracks_onopen (w : World) : tracks w (onopen cfg w).
Proof.
  unfold onopen. destruct (state w) eqn:Es; try apply tracks_refl.
  cbv zeta.
  apply (tracks_trans w (clearConnectionTimeout w));
    [apply tracks_same; upd; reflexivity|].
  apply (tracks_trans _ (setState connected (clearConnectionTimeout w)));
    [apply tracks_setState|].
  apply tracks_same; upd; reflexivity.
Qed.

Lemma sessions_refl (w : World) : only_sessions w w.
Proof.
  exists []. split; [|reflexivity].
  destruct w; simpl; rewrite app_nil_r; reflexivity.
Qed.

Lemma sessions_trans (w w1 w2 : World) :
  only_sessions w w1 -> only_sessions w1 w2 -> only_sessions w w2.
Proof.
  intros (l1 & H1 & F1) (l2 & H2 & F2). exists (l1 ++ l2). split.
  - subst. simpl. rewrite app_assoc. reflexivity.
  - rewrite forallb_app, F1, F2. reflexivity.
Qed.

Lemma spec_sessionEvents_sessions (n : json) :
  forallb is_session_event (spec_sessionEvents n) = true.
Proof.
  unfold spec_sessionEvents.
  destruct (js_get "state" n) as [[[]|]|]; try reflexivity.
  simpl.
  repeat match goal with
         | |- context [String.eqb ?a ?b] => destruct (String.eqb a b)
         end; reflexivity.
Qed.

Lemma handlePlaySessionNotification_sessions
    (n : json) (ty : option json) (w : World) :
  match handlePlaySessionNotification n ty w with
  | Normal w' | Throw w' => only_sessions w w'
  end.
Proof.
  rewrite handlePlaySessionNotification_spec.
  destruct (js_get "state" n); [|apply sessions_refl].
  exists (spec_sessionEvents n). split; [reflexivity|].
  apply spec_sessionEvents_sessions.
Qed.

Lemma forEachNotification_sessions
    (items : list json) (ty : option json) (w : World) :
  match forEachNotification items ty w with
  | Normal w' | Throw w' => only_sessions w w'
  end.
Proof.
  revert w. induction items as [|n items IH]; intros w; simpl.
  - apply sessions_refl.
  - pose proof (handlePlaySessionNotification_sessions n ty w) as H.
    destruct (handlePlaySessionNotification n ty w) as [w1|w1];
      [|assumption].
    specialize (IH w1).
    destruct (forEachNotification items ty w1);
      eapply sessions_trans; eassumption.
Qed.

Lemma dispatchMessage_sessions (data : string) (w : World) :
  match dispatchMessage JSON_parse data w with
  | Normal w' | Throw w' => only_sessions w w'
  end.
Proof.
  unfold dispatchMessage.
  destruct (JSON_parse data) as [d|]; [|apply sessions_refl].
  destruct (js_in "PlaySessionStateNotification" d) as [direct|];
    [|apply sessions_refl].
  match goal with |- context [if ?c then _ else _] => destruct c end.
  - destruct (js_get "PlaySessionStateNotification" d) as [[n|]|];
      try apply sessions_refl.
    apply handlePlaySessionNotification_sessions.
  - destruct (js_get "NotificationContainer" d) as [container|];
      [|apply sessions_refl].
    simpl.
    destruct (truthy (js_get_opt "PlaySessionStateNotification" container));
      [|apply sessions_refl].
    apply forEachNotification_sessions.
Qed.

Lemma handleMessage_sessions (data : string) (w : World) :
  only_sessions
    (resetHeartbeatMonitor cfg (set_lastEventTime (Some (clock w)) w))
    (handleMessage cfg JSON_parse data w).
Proof.
  unfold handleMessage.
  destruct (String.eqb data ""); [apply sessions_refl|].
  match goal with |- context [dispatchMessage JSON_parse data ?v] =>
    pose proof (dispatchMessage_sessions data v) as H;
    destruct (dispatchMessage JSON_parse data v)
  end; assumption.
Qed.

Lemma sessions_stateEvents (l : list Event) :
  forallb is_session_event l = true -> stateEvents l = [].
Proof.
  induction l as [|e l IH]; [reflexivity|]. simpl. intros H.
  apply andb_true_iff in H. destruct H as [He Hl].
  unfold stateEvents in *. simpl. rewrite (IH Hl).
  destruct e; try reflexivity; discriminate.
Qed.

Lemma tracks_handleMessage (data : string) (w : World) :
  tracks w (handleMessage cfg JSON_parse data w).
Proof.
  destruct (handleMessage_sessions data w) as (l & H & F).
  exists l. rewrite H, (sessions_stateEvents l F).
  rewrite resetHeartbeatMonitor_nf. simpl. auto.
Qed.

Lemma step_tracks (env : Env) (w w' : World) (i : Input) :
  step cfg JSON_parse env w i = Some w' -> tracks w w'.
Proof.
  intros Hs. destruct i; simpl in Hs.
  - inversion Hs. apply tracks_connect.
  - inversion Hs. apply tracks_disconnect.
  - destruct (eventSource w); inversion Hs. apply tracks_onopen.
  - destruct (eventSource w); inversion Hs. apply tracks_handleError.
  - destruct (eventSource w); [|discriminate].
    destruct (listening ch w); inversion Hs.
    destruct ch; try apply tracks_handleMessage.
    apply tracks_same; upd; reflexivity.
  - destruct (find_timer id w) as [t|]; [|discriminate].
    destruct (Qle_bool (due t) (clock w)); inversion Hs.
    assert (H1 : tracks w (clearTimeout id w))
      by (apply tracks_same; reflexivity).
    apply (tracks_trans w (clearTimeout id w)); [exact H1|].
    unfold reconnectTimerCallback, heartbeatTimerCallback,
      connectionTimerCallback.
    destruct (kind t); destruct (state (clearTimeout id w));
      solve [ apply tracks_refl | apply tracks_connect
            | apply tracks_handleError ].
  - destruct (Qle_bool (clock w) t); inversion Hs.
    apply tracks_same; reflexivity.
Qed.

Lemma run_tracks (tr : list (Env * Input)) (w w' : World) :
  run cfg JSON_parse tr w = Some w' -> tracks w w'.
Proof.
  revert w. induction tr as [|[env i] tr IH]; intros w Hr; simpl in Hr.
  - inversion Hr. apply tracks_refl.
  - destruct (step cfg JSON_parse env w i) as [w1|] eqn:Es; [|discriminate].
    apply (tracks_trans w w1); [apply (step_tracks env w w1 i Es)|].
    apply IH. assumption.
Qed.

(** X6. A subscriber of [connection:state] is never out of date and
    never told the same thing twice. Along any run from any world, the
    events emitted extend the log; among them, no [connection:state]
    event announces the state the client was already in; and the last
    one announced, if any, is the state the client ends in, which is
    unchanged if none was announced. For a client followed from its
    construction, the last announced state is always the current one. *)
Theorem state_events_mirror_state :
  forall (tr : list (Env * Input)) (w w' : World),
  run cfg JSON_parse tr w = Some w' ->
  (exists l,
     emitted w' = emitted w ++ l /\
     no_stutter (state w) (stateEvents l) /\
     last (stateEvents l) (state w) = state w') /\
  (forall loaded t0,
     w = new_client loaded t0 ->
     no_stutter disconnected (stateEvents (emitted w')) /\
     last (stateEvents (emitted w')) disconnected = getState w').
Proof.
  intros tr w w' Hr. pose proof (run_tracks tr w w' Hr) as Ht.
  split; [exact Ht|].
  intros loaded t0 Hw. subst w.
  destruct Ht as (l & He & Hn & Hl). simpl in He, Hn, Hl.
  rewrite He. auto.
Qed.

End Observer.

(** ** The other paths of the message handler *)

(** The notifications of an array that are reached before a [null]
    entry ends the loop with a [TypeError]. *)
Fixpoint before_null (items : list json) : list json :=
  match items with
  | [] => []
  | JNull :: _ => []
  | n :: rest => n :: before_null rest
  end.

Section MessagePaths.

Variable cfg : SSEConfig.
Variable JSON_parse : string -> option json.

Lemma forEachNotification_prefix
    (items : list json) (ty : option json) (w : World) :
  match forEachNotification items ty w with
  | Normal w' | Throw w' =>
      w' = set_emitted
             (emitted w ++ flat_map spec_sessionEvents (before_null items)) w
  end.
Proof.
  revert w. induction items as [|n items IH]; intros w.
  - simpl. destruct w; simpl; rewrite app_nil_r; reflexivity.
  - cbn [forEachNotification].
    rewrite handlePlaySessionNotification_spec.
    assert (Hstep : forall v,
      match forEachNotification items ty
              (set_emitted (emitted w ++ spec_sessionEvents n) w) with
      | Normal w' | Throw w' => w' = v
      end ->
      n <> JNull ->
      v = set_emitted
            (emitted w ++
             flat_map spec_sessionEvents (before_null (n :: items))) w).
    { intros v Hv Hnn.
      specialize (IH (set_emitted (emitted w ++ spec_sessionEvents n) w)).
      assert (Hb : before_null (n :: items) = n :: before_null items)
        by (destruct n; try reflexivity; contradiction).
      rewrite Hb. cbn [flat_map]. rewrite app_assoc.
      destruct (forEachNotification items ty
                  (set_emitted (emitted w ++ spec_sessionEvents n) w));
        subst v; rewrite IH; reflexivity. }
    destruct (js_get "state" n) eqn:Eg.
    + assert (Hnn : n <> JNull) by (intros ->; discriminate).
      destruct (forEachNotification items ty
                  (set_emitted (emitted w ++ spec_sessionEvents n) w)) eqn:Ef;
        apply Hstep; auto.
    + assert (Hn : n = JNull) by (destruct n; try discriminate; reflexivity).
      subst n. simpl. destruct w; simpl; rewrite app_nil_r; reflexivity.
Qed.

Lemma arrival_emits_nothing (w : World) :
  emitted (resetHeartbeatMonitor cfg (set_lastEventTime (Some (clock w)) w))
  = emitted w.
Proof. rewrite resetHeartbeatMonitor_nf. reflexivity. Qed.

Lemma handleMessage_emitted (data : string) (w : World) (c : Completion) :
  data <> "" ->
  dispatchMessage JSON_parse data
    (resetHeartbeatMonitor cfg (set_lastEventTime (Some (clock w)) w)) = c ->
  emitted (handleMessage cfg JSON_parse data w) =
  emitted match c with Normal w' | Throw w' => w' end.
Proof.
  intros Hd Hc. unfold handleMessage.
  apply String.eqb_neq in Hd. rewrite Hd, Hc. destruct c; reflexivity.
Qed.

(** X7. A direct payload, an object with the key
    [PlaySessionStateNotification] and without [NotificationContainer],
    is handled as one notification: the event of its [state] field is
    emitted, so [buffering] gives exactly one [session:playing]. When
    both keys are present the top-level notification is ignored and the
    container is used. A container whose notification is a single value
    instead of an array is handled as an array of that one value. *)
Theorem direct_and_single_notifications :
  forall (data : string) (props : list (string * json)) (w : World),
  data <> "" ->
  JSON_parse data = Some (JObject props) ->
  (forall n,
     lookup "PlaySessionStateNotification" props = Some n ->
     lookup "NotificationContainer" props = None ->
     n <> JNull ->
     emitted (handleMessage cfg JSON_parse data w) =
     emitted w ++ spec_sessionEvents n) /\
  (forall nprops,
     lookup "PlaySessionStateNotification" props = Some (JObject nprops) ->
     lookup "NotificationContainer" props = None ->
     lookup "state" nprops = Some (JString "buffering") ->
     emitted (handleMessage cfg JSON_parse data w) =
     emitted w ++ [session_playing (JObject nprops)]) /\
  (forall cprops v,
     lookup "NotificationContainer" props = Some (JObject cprops) ->
     lookup "PlaySessionStateNotification" cprops = Some v ->
     truthy (Some v) = true ->
     (forall items, v <> JArray items) ->
     emitted (handleMessage cfg JSON_parse data w) =
     emitted w ++ spec_sessionEvents v).
Proof.
  intros data props w Hd Hp.
  assert (Hdirect : forall n,
     lookup "PlaySessionStateNotification" props = Some n ->
     lookup "NotificationContainer" props = None ->
     n <> JNull ->
     emitted (handleMessage cfg JSON_parse data w) =
     emitted w ++ spec_sessionEvents n).
  { intros n Hn Hc Hnn.
    erewrite handleMessage_emitted; [|exact Hd|reflexivity].
    unfold dispatchMessage. rewrite Hp. simpl. rewrite Hn, Hc. simpl.
    rewrite handlePlaySessionNotification_spec.
    destruct (js_get "state" n) eqn:Eg.
    - cbn [emitted set_emitted]. rewrite arrival_emits_nothing. reflexivity.
    - destruct n; try discriminate. contradiction. }
  split; [exact Hdirect|]. split.
  - intros nprops Hn Hc Hs.
    rewrite (Hdirect (JObject nprops) Hn Hc) by discriminate.
    unfold spec_sessionEvents. simpl. rewrite Hs. reflexivity.
  - intros cprops v Hc Hv Ht Hna.
    erewrite handleMessage_emitted; [|exact Hd|reflexivity].
    unfold dispatchMessage. rewrite Hp. simpl. rewrite Hc. simpl.
    rewrite andb_false_r. rewrite Hv, Ht.
    assert (Hsingle :
      match v with JArray items => items | _ => [v] end = [v]).
    { destruct v; try reflexivity. exfalso. apply (Hna items). reflexivity. }
    assert (Hlist :
      match Some v with
      | Some (JArray items) => items
      | Some v0 => [v0]
      | None => []
      end = [v]) by (destruct v; try reflexivity; apply Hsingle).
    rewrite Hlist. cbn [forEachNotification].
    rewrite handlePlaySessionNotification_spec.
    destruct (js_get "state" v) eqn:Eg.
    + cbn [emitted set_emitted]. rewrite arrival_emits_nothing. reflexivity.
    + destruct v; discriminate.
Qed.

(** X8. A [null] entry in the notification array ends the processing of
    the message: the events of the notifications before it are emitted,
    in order, and the notifications after it are dropped without any
    error being reported. Without a [null] entry all are processed. *)
Theorem null_entry_drops_rest_of_array :
  forall (data : string) (props cprops : list (string * json))
         (items : list json) (w : World),
  data <> "" ->
  JSON_parse data = Some (JObject props) ->
  lookup "NotificationContainer" props = Some (JObject cprops) ->
  lookup "PlaySessionStateNotification" cprops = Some (JArray items) ->
  emitted (handleMessage cfg JSON_parse data w) =
    emitted w ++ flat_map spec_sessionEvents (before_null items) /\
  failures (handleMessage cfg JSON_parse data w) = failures w /\
  (forall before after,
     items = before ++ JNull :: after ->
     Forall (fun n => n <> JNull) before ->
     emitted (handleMessage cfg JSON_parse data w) =
     emitted w ++ flat_map spec_sessionEvents before).
Proof.
  intros data props cprops items w Hd Hp Hc Hn.
  assert (He : emitted (handleMessage cfg JSON_parse data w) =
               emitted w ++ flat_map spec_sessionEvents (before_null items)).
  { erewrite handleMessage_emitted; [|exact Hd|reflexivity].
    unfold dispatchMessage. rewrite Hp. simpl. rewrite Hc. simpl.
    rewrite andb_false_r. rewrite Hn. simpl.
    match goal with
    | |- context [forEachNotification items ?ty ?v] =>
        pose proof (forEachNotification_prefix items ty v) as H;
        destruct (forEachNotification items ty v)
    end; rewrite H; cbn [emitted set_emitted];
      rewrite arrival_emits_nothing; reflexivity. }
  split; [exact He|]. split.
  - unfold failures. rewrite He, filter_app.
    assert (Hno : forall l,
              filter is_connection_error (flat_map spec_sessionEvents l) = []).
    { induction l as [|a l IH]; [reflexivity|]. simpl.
      rewrite filter_app, IH, spec_sessionEvents_no_error. reflexivity. }
    rewrite Hno, app_nil_r. reflexivity.
  - intros before after Hitems Hall. rewrite He. f_equal. f_equal.
    subst items. clear He Hn.
    induction Hall as [|n before Hnn _ IH]; [reflexivity|].
    simpl. destruct n; try contradiction; rewrite IH; reflexivity.
Qed.

(** X9. Payloads that carry no notification are ignored without a
    trace: an empty body (not even parsed), a JSON primitive or array, an
    object with neither key, a container that is not an object, or a
    container whose notification is missing or falsy ([null], [false],
    [0], the empty string). In each case nothing is emitted. *)
Theorem payload_without_notification_is_ignored :
  forall (data : string) (w : World),
  (data = "" -> emitted (handleMessage cfg JSON_parse data w) = emitted w) /\
  (forall d, JSON_parse data = Some d ->
     (forall props, d <> JObject props) ->
     emitted (handleMessage cfg JSON_parse data w) = emitted w) /\
  (forall props, JSON_parse data = Some (JObject props) ->
     lookup "PlaySessionStateNotification" props = None ->
     lookup "NotificationContainer" props = None ->
     emitted (handleMessage cfg JSON_parse data w) = emitted w) /\
  (forall props c, JSON_parse data = Some (JObject props) ->
     lookup "NotificationContainer" props = Some c ->
     (forall cprops, c <> JObject cprops) ->
     emitted (handleMessage cfg JSON_parse data w) = emitted w) /\
  (forall props cprops, JSON_parse data = Some (JObject props) ->
     lookup "NotificationContainer" props = Some (JObject cprops) ->
     truthy (lookup "PlaySessionStateNotification" cprops) = false ->
     emitted (handleMessage cfg JSON_parse data w) = emitted w).
Proof.
  intros data w.
  assert (Hquiet :
    emitted (resetHeartbeatMonitor cfg (set_lastEventTime (Some (clock w)) w))
    = emitted w) by (rewrite resetHeartbeatMonitor_nf; reflexivity).
  assert (Hfrom : forall c,
    dispatchMessage JSON_parse data
      (resetHeartbeatMonitor cfg (set_lastEventTime (Some (clock w)) w)) = c ->
    match c with Normal w' | Throw w' =>
      w' = resetHeartbeatMonitor cfg (set_lastEventTime (Some (clock w)) w)
    end ->
    emitted (handleMessage cfg JSON_parse data w) = emitted w).
  { intros c Hc Hw. unfold handleMessage.
    destruct (String.eqb data ""); [exact Hquiet|].
    rewrite Hc. destruct c; rewrite Hw; exact Hquiet. }
  split; [|split; [|split; [|split]]].
  - intros Hd. unfold handleMessage. rewrite Hd. simpl. exact Hquiet.
  - intros d Hp Hno. eapply Hfrom; [reflexivity|].
    unfold dispatchMessage. rewrite Hp.
    destruct d; simpl; try reflexivity. exfalso. apply (Hno props).
    reflexivity.
  - intros props Hp Hn Hc. eapply Hfrom; [reflexivity|].
    unfold dispatchMessage. rewrite Hp. simpl. rewrite Hn, Hc. reflexivity.
  - intros props c Hp Hc Hno. eapply Hfrom; [reflexivity|].
    unfold dispatchMessage. rewrite Hp. simpl. rewrite Hc. simpl.
    rewrite andb_false_r.
    destruct c; simpl; try reflexivity. exfalso. apply (Hno props0).
    reflexivity.
  - intros props cprops Hp Hc Hf. eapply Hfrom; [reflexivity|].
    unfold dispatchMessage. rewrite Hp. simpl. rewrite Hc. simpl.
    rewrite andb_false_r, Hf. reflexivity.
Qed.

End MessagePaths.

(** ** What a subscriber can tell about the last error *)

(** The error a subscriber of [connection:error] and [connection:state]
    holds after one more event: an error event replaces it, the
    announcement of [connected] clears it, anything else keeps it. *)
Definition seen_error (e : option string) (ev : Event) : option string :=
  match ev with
  | connection_error m => Some m
  | connection_state connected => None
  | _ => e
  end.

Definition replay_errors (l : list Event) (e : option string) : option string :=
  fold_left seen_error l e.

(** From [w] to [w'] the log only grew and the last error moved as the
    new events tell. *)
Definition error_tracks (w w' : World) : Prop :=
  exists l,
    emitted w' = emitted w ++ l /\
    lastError w' = replay_errors l (lastError w).

Section LastError.

Variable cfg : SSEConfig.
Variable JSON_parse : string -> option json.

Lemma error_tracks_refl (w : World) : error_tracks w w.
Proof. exists []. rewrite app_nil_r. auto. Qed.

Lemma error_tracks_trans (w w1 w2 : World) :
  error_tracks w w1 -> error_tracks w1 w2 -> error_tracks w w2.
Proof.
  intros (l1 & E1 & L1) (l2 & E2 & L2). exists (l1 ++ l2).
  unfold replay_errors in *. rewrite fold_left_app, <- L1, <- L2.
  rewrite E2, E1, app_assoc. auto.
Qed.

Lemma error_tracks_same (w w' : World) :
  emitted w' = emitted w -> lastError w' = lastError w -> error_tracks w w'.
Proof. intros He Hl. exists []. rewrite He, Hl, app_nil_r. auto. Qed.

Lemma error_tracks_setState (s : SSEConnectionState) (w : World) :
  s <> connected -> error_tracks w (setState s w).
Proof.
  intros Hs. unfold setState. destruct (state_eqb (state w) s).
  - apply error_tracks_refl.
  - exists [connection_state s]. split; [reflexivity|].
    destruct s; try reflexivity. contradiction.
Qed.

Lemma error_tracks_handleError (error : Thrown) (r : Q) (w : World) :
  error_tracks w (handleError cfg error r w).
Proof.
  unfold handleError. cbv zeta.
  match goal with
  | |- error_tracks _ (scheduleReconnect _ _ ?v4) =>
      apply (error_tracks_trans w v4)
  end.
  - exists [connection_error (errorMessage error)]. upd. auto.
  - unfold scheduleReconnect.
    match goal with
    | |- context [Nat.leb ?a ?b] => destruct (Nat.leb a b)
    end.
    + apply error_tracks_setState. discriminate.
    + match goal with
      | |- error_tracks ?v _ =>
          apply (error_tracks_trans v (setState reconnecting v));
            [apply error_tracks_setState; discriminate|]
      end.
      apply error_tracks_same; reflexivity.
Qed.

Lemma error_tracks_connect (env : Env) (w : World) :
  error_tracks w (world_of (connect cfg env w)).
Proof.
  unfold connect.
  destruct (negb (EventSourceClass w) && negb (importOk env));
    [apply error_tracks_refl|].
  set (w0 := if EventSourceClass w then w else set_EventSourceClass true w).
  assert (H0 : error_tracks w w0)
    by (unfold w0; destruct (EventSourceClass w);
        [apply error_tracks_refl|apply error_tracks_same; reflexivity]).
  clearbody w0. apply (error_tracks_trans w w0); [exact H0|].
  assert (H1 : error_tracks w0 (clearTimers (setState connecting w0))).
  { apply (error_tracks_trans w0 (setState connecting w0));
      [apply error_tracks_setState; discriminate|].
    apply error_tracks_same; upd; reflexivity. }
  destruct (state w0); try apply error_tracks_refl;
    (destruct (construct env); simpl;
     [ apply (error_tracks_trans w0 (clearTimers (setState connecting w0)));
       [exact H1|apply error_tracks_handleError]
     | apply (error_tracks_trans w0 (clearTimers (setState connecting w0)));
       [exact H1|];
       apply error_tracks_same; upd; reflexivity ]).
Qed.

Lemma error_tracks_disconnect (w : World) : error_tracks w (disconnect w).
Proof.
  unfold disconnect. cbv zeta.
  apply (error_tracks_trans w (cleanupEventSource (clearTimers w)));
    [apply error_tracks_same; upd; reflexivity|].
  apply (error_tracks_trans _
           (setState disconnected (cleanupEventSource (clearTimers w))));
    [apply error_tracks_setState; discriminate|].
  apply error_tracks_same; reflexivity.
Qed.

Lemma error_tracks_onopen (w : World) : error_tracks w (onopen cfg w).
Proof.
  unfold onopen. destruct (state w) eqn:Es; try apply error_tracks_refl.
  exists [connection_state connected]. upd. rewrite Es. simpl. auto.
Qed.

Lemma replay_sessions (l : list Event) (e : option string) :
  forallb is_session_event l = true -> replay_errors l e = e.
Proof.
  revert e. induction l as [|ev l IH]; intros e H; [reflexivity|].
  simpl in H. apply andb_true_iff in H. destruct H as [He Hl].
  unfold replay_errors in *. simpl. rewrite (IH _ Hl).
  destruct ev; try reflexivity; discriminate.
Qed.

Lemma error_tracks_handleMessage (data : string) (w : World) :
  error_tracks w (handleMessage cfg JSON_parse data w).
Proof.
  destruct (handleMessage_sessions cfg JSON_parse data w) as (l & H & F).
  exists l. rewrite H, (replay_sessions l _ F).
  rewrite resetHeartbeatMonitor_nf. simpl. auto.
Qed.

Lemma step_error_tracks (env : Env) (w w' : World) (i : Input) :
  step cfg JSON_parse env w i = Some w' -> error_tracks w w'.
Proof.
  intros Hs. destruct i; simpl in Hs.
  - inversion Hs. apply error_tracks_connect.
  - inversion Hs. apply error_tracks_disconnect.
  - destruct (eventSource w); inversion Hs. apply error_tracks_onopen.
  - destruct (eventSource w); inversion Hs. apply error_tracks_handleError.
  - destruct (eventSource w); [|discriminate].
    destruct (listening ch w); inversion Hs.
    destruct ch; try apply error_tracks_handleMessage.
    apply error_tracks_same; upd; reflexivity.
  - destruct (find_timer id w) as [t|]; [|discriminate].
    destruct (Qle_bool (due t) (clock w)); inversion Hs.
    apply (error_tracks_trans w (clearTimeout id w));
      [apply error_tracks_same; reflexivity|].
    unfold reconnectTimerCallback, heartbeatTimerCallback,
      connectionTimerCallback.
    destruct (kind t); destruct (state (clearTimeout id w));
      solve [ apply error_tracks_refl | apply error_tracks_connect
            | apply error_tracks_handleError ].
  - destruct (Qle_bool (clock w) t); inversion Hs.
    apply error_tracks_same; reflexivity.
Qed.

Lemma run_error_tracks (tr : list (Env * Input)) (w w' : World) :
  run cfg JSON_parse tr w = Some w' -> error_tracks w w'.
Proof.
  revert w. induction tr as [|[env i] tr IH]; intros w Hr; simpl in Hr.
  - inversion Hr. apply error_tracks_refl.
  - destruct (step cfg JSON_parse env w i) as [w1|] eqn:Es; [|discriminate].
    apply (error_tracks_trans w w1);
      [apply (step_error_tracks env w w1 i Es)|apply IH; assumption].
Qed.

End LastError.

(** ** The constructor: the base URL and the endpoint *)

(** The character [/]. *)
Definition slash : Ascii.ascii := Eval vm_compute in Ascii.ascii_of_nat 47.

(** [url.replace(/\/$/, '')]: one slash at the very end is dropped. *)
Fixpoint stripTrailingSlash (url : string) : string :=
  match url with
  | EmptyString => EmptyString
  | String c rest =>
      match rest with
      | EmptyString =>
          if Ascii.eqb c slash then EmptyString else url
      | _ => String c (stripTrailingSlash rest)
      end
  end.

(** The URL [connect] hands to the transport; [encode] stands for
    [encodeURIComponent]. *)
Definition endpoint (encode : string -> string) (url token : string)
    : string :=
  (stripTrailingSlash url ++ "/:/eventsource/notifications?X-Plex-Token="
   ++ encode token)%string.

Lemma stripTrailingSlash_added (u : string) :
  stripTrailingSlash (u ++ "/")%string = u.
Proof.
  induction u as [|c u IH]; [reflexivity|].
  change (String c u ++ "/")%string with (String c (u ++ "/")%string).
  cbn [stripTrailingSlash]. rewrite IH.
  destruct u; reflexivity.
Qed.

Lemma stripTrailingSlash_cons (c c' : Ascii.ascii) (u : string) :
  stripTrailingSlash (String c (String c' u)) =
  String c (stripTrailingSlash (String c' u)).
Proof. reflexivity. Qed.

Lemma stripTrailingSlash_cases (u : string) :
  stripTrailingSlash u = u \/ u = (stripTrailingSlash u ++ "/")%string.
Proof.
  induction u as [|c u IH]; [left; reflexivity|].
  destruct u as [|c' u'].
  - cbn [stripTrailingSlash].
    destruct (Ascii.eqb_spec c slash); [right; subst; reflexivity|].
    left; reflexivity.
  - rewrite stripTrailingSlash_cons. destruct IH as [IH|IH].
    + left. rewrite IH. reflexivity.
    + right. cbn [append]. f_equal. exact IH.
Qed.

(** X11. A trailing slash in the configured server URL is harmless, and
    only one is removed. The base URL of [u] followed by a slash is [u];
    a URL that does not end in a slash is kept as it is; hence both
    spellings give the same endpoint. The result either is the URL
    itself or lacks exactly its final slash. *)
Theorem trailing_slash_is_dropped : forall u : string,
  stripTrailingSlash (u ++ "/")%string = u /\
  ((forall v, u <> (v ++ "/")%string) -> stripTrailingSlash u = u) /\
  (forall encode token,
     (forall v, u <> (v ++ "/")%string) ->
     endpoint encode (u ++ "/")%string token = endpoint encode u token) /\
  (stripTrailingSlash u = u \/ u = (stripTrailingSlash u ++ "/")%string).
Proof.
  intros u.
  assert (Hkeep : (forall v, u <> (v ++ "/")%string) ->
                  stripTrailingSlash u = u).
  { intros Hno. destruct (stripTrailingSlash_cases u) as [H|H];
      [assumption|]. exfalso. apply (Hno _ H). }
  split; [apply stripTrailingSlash_added|]. split; [exact Hkeep|].
  split; [|apply stripTrailingSlash_cases].
  intros encode token Hno. unfold endpoint.
  rewrite stripTrailingSlash_added, (Hkeep Hno). reflexivity.
Qed.

(** ** What a subscriber sees inside a callback

    [emit] runs the subscribers before the method that called it goes
    on. A subscriber that reads the client, with [getState] or
    [getStatus], sees the world of that moment, which is none of the
    worlds between turns. For every method, its [_views] function lists
    the worlds at its calls of [emit], in order, each with the event
    being delivered already in the log. Subscribers are taken to read
    only: they neither throw nor call [connect] or [disconnect]. *)

(** The events whose effect on [lastError] is in place when [e] is
    delivered after [l]: the announcement of [connected] comes before
    the error is cleared. *)
Definition heard (l : list Event) (e : Event) : list Event :=
  match e with
  | connection_state connected => l
  | _ => l ++ [e]
  end.

(** [v] is seen during a turn that started in [w]. *)
Definition mid_turn (w v : World) : Prop :=
  reconnectAttempts v = reconnectAttempts w /\
  connectedAt v = connectedAt w /\
  exists l e,
    emitted v = emitted w ++ l ++ [e] /\
    (forall s, e = connection_state s -> state v = s) /\
    lastError v = replay_errors (heard l e) (lastError w).

(** The logs of the views [vs] are the successive extensions of [log] by
    one event, the last being [final]. *)
Fixpoint chain (log : list Event) (vs : list World) (final : list Event)
    : Prop :=
  match vs with
  | [] => final = log
  | v :: vs' => (exists e, emitted v = log ++ [e]) /\ chain (emitted v) vs' final
  end.

Section Views.

Variable cfg : SSEConfig.
Variable JSON_parse : string -> option json.

Definition setState_views (s : SSEConnectionState) (w : World) : list World :=
  if state_eqb (state w) s then [] else [setState s w].

Definition scheduleReconnect_views (w : World) : list World :=
  if Nat.leb (MAX_RETRIES cfg) (reconnectAttempts w) then
    setState_views fallback w
  else setState_views reconnecting w.

Definition handleError_views (error : Thrown) (w : World) : list World :=
  let w1 := clearTimers w in
  let w2 := set_lastError (Some (errorMessage error)) w1 in
  let w3 := emit (connection_error (errorMessage error)) w2 in
  let w4 := cleanupEventSource w3 in
  w3 :: scheduleReconnect_views w4.

Definition onopen_views (w : World) : list World :=
  match state w with
  | connecting => setState_views connected (clearConnectionTimeout w)
  | _ => []
  end.

Definition connect_views (env : Env) (w : World) : list World :=
  if negb (EventSourceClass w) && negb (importOk env) then []
  else
    let w0 := if EventSourceClass w then w else set_EventSourceClass true w in
    match state w0 with
    | connected | connecting => []
    | _ =>
        let w1 := setState connecting w0 in
        let w2 := clearTimers w1 in
        setState_views connecting w0 ++
        match construct env with
        | Some error => handleError_views error w2
        | None => []
        end
    end.

Definition disconnect_views (w : World) : list World :=
  let w1 := clearTimers w in
  let w2 := cleanupEventSource w1 in
  setState_views disconnected w2.

Definition handlePlaySessionNotification_views
    (notification : json) (w : World) : list World :=
  match js_get "state" notification with
  | Some (Some (JString s)) =>
      if String.eqb s "playing" then [emit (session_playing notification) w]
      else if String.eqb s "paused" then
        [emit (session_paused notification) w]
      else if String.eqb s "stopped" then
        [emit (session_stopped notification) w]
      else if String.eqb s "buffering" then
        [emit (session_playing notification) w]
      else []
  | _ => []
  end.

Fixpoint forEachNotification_views
    (notifications : list json) (type : option json) (w : World)
    : list World :=
  match notifications with
  | [] => []
  | n :: rest =>
      handlePlaySessionNotification_views n w ++
      match handlePlaySessionNotification n type w with
      | Normal w' => forEachNotification_views rest type w'
      | Throw _ => []
      end
  end.

Definition dispatchMessage_views (data : string) (w : World) : list World :=
  match JSON_parse data with
  | None => []
  | Some d =>
      match js_in "PlaySessionStateNotification" d with
      | None => []
      | Some direct =>
          if direct && negb (match js_in "NotificationContainer" d with
                             | Some b => b
                             | None => false
                             end)
          then
            match js_get "PlaySessionStateNotification" d with
            | Some (Some notification) =>
                handlePlaySessionNotification_views notification w
            | _ => []
            end
          else
            match js_get "NotificationContainer" d with
            | None => []
            | Some container =>
                let psn :=
                  js_get_opt "PlaySessionStateNotification" container in
                if truthy psn then
                  let notifications :=
                    match psn with
                    | Some (JArray items) => items
                    | Some v => [v]
                    | None => []
                    end in
                  forEachNotification_views
                    notifications (js_get_opt "type" container) w
                else []
            end
      end
  end.

Definition handleMessage_views (data : string) (w : World) : list World :=
  let w1 := set_lastEventTime (Some (clock w)) w in
  let w2 := resetHeartbeatMonitor cfg w1 in
  if String.eqb data "" then [] else dispatchMessage_views data w2.

Definition reconnectTimerCallback_views (env : Env) (w : World)
    : list World :=
  match state w with
  | disconnected => []
  | _ => connect_views env w
  end.

Definition heartbeatTimerCallback_views (w : World) : list World :=
  match state w with
  | disconnected => []
  | _ => handleError_views (ErrorInstance "Heartbeat timeout") w
  end.

Definition connectionTimerCallback_views (w : World) : list World :=
  match state w with
  | disconnected => []
  | _ => handleError_views (ErrorInstance "Connection timeout") w
  end.

(** The worlds the subscribers see during the turn [step env w i]. *)
Definition step_views (env : Env) (w : World) (i : Input) : list World :=
  match i with
  | CallConnect => connect_views env w
  | CallDisconnect => disconnect_views w
  | TransportOpen =>
      match eventSource w with
      | Some _ => onopen_views w
      | None => []
      end
  | TransportError error =>
      match eventSource w with
      | Some _ => handleError_views error w
      | None => []
      end
  | TransportEvent ch data =>
      match eventSource w with
      | Some _ =>
          if listening ch w then
            match ch with
            | ch_ping => []
            | _ => handleMessage_views data w
            end
          else []
      | None => []
      end
  | TimerFires id =>
      match find_timer id w with
      | Some t =>
          if Qle_bool (due t) (clock w) then
            let w1 := clearTimeout id w in
            match kind t with
            | ReconnectTimer => reconnectTimerCallback_views env w1
            | HeartbeatTimer => heartbeatTimerCallback_views w1
            | ConnectionTimer => connectionTimerCallback_views w1
            end
          else []
      | None => []
      end
  | TimePasses _ => []
  end.

(** *** The views are the emit points *)

Lemma chain_app (a b c : list Event) (vs1 vs2 : list World) :
  chain a vs1 b -> chain b vs2 c -> chain a (vs1 ++ vs2) c.
Proof.
  revert a. induction vs1 as [|v vs1 IH]; intros a H1 H2; simpl in *.
  - subst b. exact H2.
  - destruct H1 as [He H1]. split; [exact He|]. apply IH; assumption.
Qed.

Lemma chain_nil (a b : list Event) : a = b -> chain a [] b.
Proof. intros ->. reflexivity. Qed.

Lemma chain_setState (s : SSEConnectionState) (w : World) :
  chain (emitted w) (setState_views s w) (emitted (setState s w)).
Proof.
  unfold setState_views, setState.
  destruct (state_eqb (state w) s); simpl; [reflexivity|].
  split; [exists (connection_state s); reflexivity|reflexivity].
Qed.

Lemma chain_scheduleReconnect (r : Q) (w : World) :
  chain (emitted w) (scheduleReconnect_views w)
        (emitted (scheduleReconnect cfg r w)).
Proof.
  unfold scheduleReconnect_views. rewrite scheduleReconnect_nf.
  destruct (Nat.leb (MAX_RETRIES cfg) (reconnectAttempts w)).
  - apply chain_setState.
  - cbv zeta. cbn [emitted set_reconnectTimer set_scheduled set_nextTimer
                   set_pending set_reconnectAttempts].
    apply chain_setState.
Qed.

Lemma chain_handleError (error : Thrown) (r : Q) (w : World) :
  chain (emitted w) (handleError_views error w)
        (emitted (handleError cfg error r w)).
Proof.
  unfold handleError_views, handleError. cbv zeta.
  cbn [chain]. split.
  - exists (connection_error (errorMessage error)). upd. reflexivity.
  - match goal with
    | |- chain _ (scheduleReconnect_views ?v) _ =>
        replace (emitted (emit (connection_error (errorMessage error))
                   (set_lastError (Some (errorMessage error)) (clearTimers w))))
          with (emitted v) by (upd; reflexivity)
    end.
    apply chain_scheduleReconnect.
Qed.

Lemma chain_onopen (w : World) :
  chain (emitted w) (onopen_views w) (emitted (onopen cfg w)).
Proof.
  unfold onopen_views, onopen. destruct (state w); try reflexivity.
  cbv zeta. unfold startHeartbeatMonitor. rewrite resetHeartbeatMonitor_nf.
  cbn [emitted set_heartbeatTimer set_scheduled set_nextTimer set_pending
       set_lastError set_reconnectAttempts set_connectedAt].
  replace (emitted w) with (emitted (clearConnectionTimeout w))
    by (upd; reflexivity).
  apply chain_setState.
Qed.

Lemma chain_disconnect (w : World) :
  chain (emitted w) (disconnect_views w) (emitted (disconnect w)).
Proof.
  unfold disconnect_views, disconnect. cbv zeta.
  cbn [emitted set_connectedAt].
  replace (emitted w) with (emitted (cleanupEventSource (clearTimers w)))
    by (upd; reflexivity).
  apply chain_setState.
Qed.

Lemma chain_connect (env : Env) (w : World) :
  chain (emitted w) (connect_views env w)
        (emitted (world_of (connect cfg env w))).
Proof.
  unfold connect_views, connect.
  destruct (negb (EventSourceClass w) && negb (importOk env));
    [reflexivity|].
  set (w0 := if EventSourceClass w then w else set_EventSourceClass true w).
  assert (E0 : emitted w = emitted w0)
    by (unfold w0; destruct (EventSourceClass w); reflexivity).
  rewrite E0. clearbody w0. cbv zeta.
  assert (H1 : chain (emitted w0) (setState_views connecting w0)
                     (emitted (clearTimers (setState connecting w0)))).
  { replace (emitted (clearTimers (setState connecting w0)))
      with (emitted (setState connecting w0)) by (upd; reflexivity).
    apply chain_setState. }
  destruct (state w0); try reflexivity;
    (destruct (construct env) as [error|]; cbn [world_of];
     [ apply (chain_app _ _ _ _ _ H1), chain_handleError
     | rewrite app_nil_r;
       match goal with
       | |- chain _ _ ?x =>
           replace x
             with (emitted (clearTimers (setState connecting w0)))
             by (upd; reflexivity)
       end; exact H1 ]).
Qed.

Lemma handlePlaySessionNotification_views_spec (n : json) (w : World) :
  handlePlaySessionNotification_views n w =
  map (fun e => emit e w) (spec_sessionEvents n).
Proof.
  unfold handlePlaySessionNotification_views, spec_sessionEvents.
  destruct (js_get "state" n) as [[st|]|]; try reflexivity.
  destruct st; try reflexivity. simpl.
  repeat match goal with
         | |- context [String.eqb ?a ?b] => destruct (String.eqb a b)
         end; reflexivity.
Qed.

Lemma spec_sessionEvents_short (n : json) :
  spec_sessionEvents n = [] \/ exists e, spec_sessionEvents n = [e].
Proof.
  unfold spec_sessionEvents.
  destruct (js_get "state" n) as [[[]|]|]; auto.
  destruct (lookup s stateEventTable); eauto.
Qed.

Lemma chain_handlePlaySessionNotification (n : json) (w : World) :
  chain (emitted w) (handlePlaySessionNotification_views n w)
        (emitted w ++ spec_sessionEvents n).
Proof.
  rewrite handlePlaySessionNotification_views_spec.
  destruct (spec_sessionEvents_short n) as [E|[e E]]; rewrite E; simpl.
  - rewrite app_nil_r. reflexivity.
  - split; [exists e; reflexivity|reflexivity].
Qed.

Lemma chain_forEachNotification
    (items : list json) (ty : option json) (w : World) :
  chain (emitted w) (forEachNotification_views items ty w)
        (emitted match forEachNotification items ty w with
                 | Normal w' | Throw w' => w'
                 end).
Proof.
  revert w. induction items as [|n items IH]; intros w; [reflexivity|].
  cbn [forEachNotification_views forEachNotification].
  pose proof (chain_handlePlaySessionNotification n w) as Hn.
  rewrite handlePlaySessionNotification_spec in *.
  destruct (js_get "state" n) eqn:Eg.
  - apply (chain_app _ _ _ _ _ Hn).
    specialize (IH (set_emitted (emitted w ++ spec_sessionEvents n) w)).
    exact IH.
  - rewrite app_nil_r.
    assert (Es : spec_sessionEvents n = [])
      by (unfold spec_sessionEvents; rewrite Eg; reflexivity).
    rewrite Es, app_nil_r in Hn. exact Hn.
Qed.

Lemma chain_dispatchMessage (data : string) (w : World) :
  chain (emitted w) (dispatchMessage_views data w)
        (emitted match dispatchMessage JSON_parse data w with
                 | Normal w' | Throw w' => w'
                 end).
Proof.
  unfold dispatchMessage_views, dispatchMessage.
  destruct (JSON_parse data) as [d|]; [|reflexivity].
  destruct (js_in "PlaySessionStateNotification" d) as [direct|];
    [|reflexivity].
  match goal with |- context [if ?c then _ else _] => destruct c end.
  - destruct (js_get "PlaySessionStateNotification" d) as [[n|]|];
      try reflexivity.
    pose proof (chain_handlePlaySessionNotification n w) as Hn.
    rewrite handlePlaySessionNotification_spec.
    destruct (js_get "state" n) eqn:Eg.
    + exact Hn.
    + assert (Es : spec_sessionEvents n = [])
        by (unfold spec_sessionEvents; rewrite Eg; reflexivity).
      rewrite Es, app_nil_r in Hn. exact Hn.
  - destruct (js_get "NotificationContainer" d) as [container|];
      [|reflexivity].
    cbv zeta.
    destruct (truthy (js_get_opt "PlaySessionStateNotification" container));
      [|reflexivity].
    apply chain_forEachNotification.
Qed.

Lemma chain_handleMessage (data : string) (w : World) :
  chain (emitted w) (handleMessage_views data w)
        (emitted (handleMessage cfg JSON_parse data w)).
Proof.
  unfold handleMessage_views, handleMessage. cbv zeta.
  rewrite <- (arrival_emits_nothing cfg w) at 1.
  destruct (String.eqb data ""); [reflexivity|].
  match goal with
  | |- chain _ _ (emitted match ?c with Normal a => a | Throw b => b end) =>
      replace (emitted match c with Normal a => a | Throw b => b end)
        with (emitted match c with Normal w' | Throw w' => w' end)
        by (destruct c; reflexivity)
  end.
  apply chain_dispatchMessage.
Qed.

(** The views of a turn are exactly its emit points: their logs extend
    the log by one event each, and the last is the log after the turn. *)
Lemma step_views_chain (env : Env) (w w' : World) (i : Input) :
  step cfg JSON_parse env w i = Some w' ->
  chain (emitted w) (step_views env w i) (emitted w').
Proof.
  intros Hs. destruct i; simpl in Hs |- *.
  - inversion Hs. apply chain_connect.
  - inversion Hs. apply chain_disconnect.
  - destruct (eventSource w); inversion Hs. apply chain_onopen.
  - destruct (eventSource w); inversion Hs. apply chain_handleError.
  - destruct (eventSource w); [|discriminate].
    destruct (listening ch w); inversion Hs.
    destruct ch; try apply chain_handleMessage.
    apply chain_nil. rewrite resetHeartbeatMonitor_nf. reflexivity.
  - destruct (find_timer id w) as [t|]; [|discriminate].
    destruct (Qle_bool (due t) (clock w)); inversion Hs.
    change (emitted w) with (emitted (clearTimeout id w)).
    unfold reconnectTimerCallback, heartbeatTimerCallback,
      connectionTimerCallback, reconnectTimerCallback_views,
      heartbeatTimerCallback_views, connectionTimerCallback_views.
    destruct (kind t); destruct (state (clearTimeout id w));
      solve [ reflexivity | apply chain_connect | apply chain_handleError ].
  - destruct (Qle_bool (clock w) t); inversion Hs. reflexivity.
Qed.

(** *** What the views have in common *)

Lemma heard_app (l0 l : list Event) (e : Event) :
  heard (l0 ++ l) e = l0 ++ heard l e.
Proof.
  unfold heard. destruct e as [n|n|n|n|s|m];
    try (rewrite app_assoc; reflexivity).
  destruct s; try (rewrite app_assoc; reflexivity). reflexivity.
Qed.

Lemma mid_turn_after (w w1 v : World) :
  reconnectAttempts w1 = reconnectAttempts w ->
  connectedAt w1 = connectedAt w ->
  error_tracks w w1 ->
  mid_turn w1 v -> mid_turn w v.
Proof.
  intros Ha Hc (l0 & E0 & L0) (Ha' & Hc' & l & e & Ev & Hs & Hl).
  split; [congruence|]. split; [congruence|].
  exists (l0 ++ l), e. split; [|split; [exact Hs|]].
  - rewrite Ev, E0, <- !app_assoc. reflexivity.
  - rewrite Hl, L0, heard_app. unfold replay_errors.
    rewrite fold_left_app. reflexivity.
Qed.

Lemma mid_setState (s : SSEConnectionState) (w v : World) :
  In v (setState_views s w) -> mid_turn w v.
Proof.
  unfold setState_views, setState.
  destruct (state_eqb (state w) s); [intros []|]. intros [<-|[]].
  split; [reflexivity|]. split; [reflexivity|].
  exists [], (connection_state s). split; [reflexivity|]. split.
  - intros s' H. inversion H. reflexivity.
  - destruct s; reflexivity.
Qed.

Lemma mid_scheduleReconnect (w v : World) :
  In v (scheduleReconnect_views w) -> mid_turn w v.
Proof.
  unfold scheduleReconnect_views.
  destruct (Nat.leb (MAX_RETRIES cfg) (reconnectAttempts w));
    apply mid_setState.
Qed.

Lemma mid_handleError (error : Thrown) (w v : World) :
  In v (handleError_views error w) -> mid_turn w v.
Proof.
  unfold handleError_views. cbv zeta. intros [<-|Hv].
  - split; [upd; reflexivity|]. split; [upd; reflexivity|].
    exists [], (connection_error (errorMessage error)).
    split; [upd; reflexivity|]. split; [intros s H; discriminate H|].
    upd. reflexivity.
  - apply mid_scheduleReconnect in Hv.
    revert Hv. apply mid_turn_after; [upd; reflexivity|upd; reflexivity|].
    exists [connection_error (errorMessage error)]. upd. auto.
Qed.

Lemma mid_onopen (w v : World) : In v (onopen_views w) -> mid_turn w v.
Proof.
  unfold onopen_views. destruct (state w); try (intros []).
  intros Hv. apply mid_setState in Hv. revert Hv.
  apply mid_turn_after; [upd; reflexivity|upd; reflexivity|].
  apply error_tracks_same; upd; reflexivity.
Qed.

Lemma mid_disconnect (w v : World) : In v (disconnect_views w) -> mid_turn w v.
Proof.
  unfold disconnect_views. cbv zeta.
  intros Hv. apply mid_setState in Hv. revert Hv.
  apply mid_turn_after; [upd; reflexivity|upd; reflexivity|].
  apply error_tracks_same; upd; reflexivity.
Qed.

Lemma mid_connect (env : Env) (w v : World) :
  In v (connect_views env w) -> mid_turn w v.
Proof.
  unfold connect_views.
  destruct (negb (EventSourceClass w) && negb (importOk env));
    [intros []|].
  set (w0 := if EventSourceClass w then w else set_EventSourceClass true w).
  assert (Ha : reconnectAttempts w0 = reconnectAttempts w)
    by (unfold w0; destruct (EventSourceClass w); reflexivity).
  assert (Hc : connectedAt w0 = connectedAt w)
    by (unfold w0; destruct (EventSourceClass w); reflexivity).
  assert (Ht : error_tracks w w0)
    by (unfold w0; destruct (EventSourceClass w);
        [apply error_tracks_refl|apply error_tracks_same; reflexivity]).
  intros Hv. apply (mid_turn_after w w0 v Ha Hc Ht). clear Ha Hc Ht.
  clearbody w0. cbv zeta in Hv.
  assert (H2 : forall error,
             In v (handleError_views error
                     (clearTimers (setState connecting w0))) ->
             mid_turn w0 v).
  { intros error Hin. apply mid_handleError in Hin. revert Hin.
    apply mid_turn_after; [upd; reflexivity|upd; reflexivity|].
    apply (error_tracks_trans w0 (setState connecting w0));
      [apply error_tracks_setState; discriminate|].
    apply error_tracks_same; upd; reflexivity. }
  destruct (state w0); try (destruct Hv);
    (apply in_app_or in Hv; destruct Hv as [Hv|Hv];
     [ apply (mid_setState connecting); exact Hv
     | destruct (construct env) as [error|];
       [apply (H2 error); exact Hv|destruct Hv] ]).
Qed.

Lemma set_emitted_twice (a b : list Event) (w : World) :
  set_emitted a (set_emitted b w) = set_emitted a w.
Proof. destruct w; reflexivity. Qed.

(** [v] is [w] with session events added to the log. *)
Definition session_view (w v : World) : Prop :=
  exists l e,
    v = set_emitted (emitted w ++ l ++ [e]) w /\
    forallb is_session_event (l ++ [e]) = true.

Lemma session_view_handlePlaySessionNotification (n : json) (w v : World) :
  In v (handlePlaySessionNotification_views n w) -> session_view w v.
Proof.
  rewrite handlePlaySessionNotification_views_spec.
  pose proof (spec_sessionEvents_sessions n) as Hs.
  destruct (spec_sessionEvents_short n) as [E|[e E]]; rewrite E in *;
    simpl; [intros []|]. intros [<-|[]].
  exists [], e. split; [reflexivity|exact Hs].
Qed.

Lemma session_view_after (sp : list Event) (w v : World) :
  forallb is_session_event sp = true ->
  session_view (set_emitted (emitted w ++ sp) w) v -> session_view w v.
Proof.
  intros Hsp (l & e & Ev & Hs). exists (sp ++ l), e. split.
  - rewrite Ev, set_emitted_twice. f_equal.
    cbn [emitted set_emitted]. rewrite <- !app_assoc. reflexivity.
  - rewrite <- app_assoc, forallb_app, Hsp, Hs. reflexivity.
Qed.

Lemma session_view_forEachNotification
    (items : list json) (ty : option json) (w v : World) :
  In v (forEachNotification_views items ty w) -> session_view w v.
Proof.
  revert w. induction items as [|n items IH]; intros w; [intros []|].
  cbn [forEachNotification_views]. intros Hv.
  apply in_app_or in Hv. destruct Hv as [Hv|Hv].
  - apply (session_view_handlePlaySessionNotification n). exact Hv.
  - rewrite handlePlaySessionNotification_spec in Hv.
    destruct (js_get "state" n); [|destruct Hv].
    apply (session_view_after (spec_sessionEvents n));
      [apply spec_sessionEvents_sessions|].
    apply IH. exact Hv.
Qed.

Lemma session_view_dispatchMessage (data : string) (w v : World) :
  In v (dispatchMessage_views data w) -> session_view w v.
Proof.
  unfold dispatchMessage_views.
  destruct (JSON_parse data) as [d|]; [|intros []].
  destruct (js_in "PlaySessionStateNotification" d) as [direct|];
    [|intros []].
  match goal with |- context [if ?c then _ else _] => destruct c end.
  - destruct (js_get "PlaySessionStateNotification" d) as [[n|]|];
      try (intros []).
    apply session_view_handlePlaySessionNotification.
  - destruct (js_get "NotificationContainer" d) as [container|];
      [|intros []].
    cbv zeta.
    destruct (truthy (js_get_opt "PlaySessionStateNotification" container));
      [|intros []].
    apply session_view_forEachNotification.
Qed.

Lemma mid_session (w v : World) : session_view w v -> mid_turn w v.
Proof.
  intros (l & e & -> & Hs).
  split; [reflexivity|]. split; [reflexivity|].
  exists l, e. split; [reflexivity|].
  assert (He : is_session_event e = true).
  { rewrite forallb_app in Hs. apply andb_true_iff in Hs.
    destruct Hs as [_ He]. simpl in He. rewrite andb_true_r in He.
    exact He. }
  split.
  - intros s ->. discriminate He.
  - assert (Hh : heard l e = l ++ [e])
      by (destruct e; try reflexivity; discriminate He).
    rewrite Hh, (replay_sessions _ _ Hs). reflexivity.
Qed.

Lemma mid_handleMessage (data : string) (w v : World) :
  In v (handleMessage_views data w) -> mid_turn w v.
Proof.
  unfold handleMessage_views. cbv zeta.
  destruct (String.eqb data ""); [intros []|]. intros Hv.
  apply session_view_dispatchMessage, mid_session in Hv. revert Hv.
  apply mid_turn_after;
    [ rewrite resetHeartbeatMonitor_nf; reflexivity
    | rewrite resetHeartbeatMonitor_nf; reflexivity |].
  apply error_tracks_same; rewrite resetHeartbeatMonitor_nf; reflexivity.
Qed.

Lemma mid_step (env : Env) (w v : World) (i : Input) :
  In v (step_views env w i) -> mid_turn w v.
Proof.
  destruct i; simpl.
  - apply mid_connect.
  - apply mid_disconnect.
  - destruct (eventSource w); [apply mid_onopen|intros []].
  - destruct (eventSource w); [apply mid_handleError|intros []].
  - destruct (eventSource w); [|intros []].
    destruct (listening ch w); [|intros []].
    destruct ch; try apply mid_handleMessage. intros [].
  - destruct (find_timer id w) as [t|]; [|intros []].
    destruct (Qle_bool (due t) (clock w)); [|intros []].
    intros Hv.
    apply (mid_turn_after w (clearTimeout id w) v);
      [reflexivity|reflexivity|apply error_tracks_same; reflexivity|].
    revert Hv.
    unfold reconnectTimerCallback_views, heartbeatTimerCallback_views,
      connectionTimerCallback_views.
    destruct (kind t); destruct (state (clearTimeout id w));
      solve [ intros [] | apply mid_connect | apply mid_handleError ].
  - intros [].
Qed.

(** X3. The status snapshot is coherent with the state between turns,
    that is for a caller outside the event subscribers: the attempt
    count never exceeds [MAX_RETRIES]; when [connected] it is zero,
    there is no error and there is a connect time; when [reconnecting]
    it is at least one and an error is reported; when [fallback] it
    equals [MAX_RETRIES] and an error is reported; when [disconnected]
    there is no connect time. Inside a subscriber it is not: every event
    of a turn is emitted before the turn writes [reconnectAttempts] and
    [connectedAt], so [getStatus()] then reports the attempt count and
    the connect time from before the turn, the state being already the
    announced one. In particular the subscriber told of [connected]
    sees the counter, the error and the connect time of the
    [connecting] client. *)
Theorem status_coherent_between_turns : forall w : World,
  reachable cfg JSON_parse w ->
  (let s := getStatus w in
   (st_reconnectAttempts s <= MAX_RETRIES cfg)%nat /\
   (st_state s = connected ->
      st_reconnectAttempts s = 0%nat /\ st_error s = None /\
      st_connectedAt s <> None) /\
   (st_state s = reconnecting ->
      (1 <= st_reconnectAttempts s)%nat /\ st_error s <> None) /\
   (st_state s = fallback ->
      st_reconnectAttempts s = MAX_RETRIES cfg /\ st_error s <> None) /\
   (st_state s = disconnected -> st_connectedAt s = None)) /\
  (forall env i v,
     In v (step_views env w i) ->
     st_reconnectAttempts (getStatus v) = st_reconnectAttempts (getStatus w) /\
     st_connectedAt (getStatus v) = st_connectedAt (getStatus w) /\
     exists l e,
       emitted v = emitted w ++ l ++ [e] /\
       forall s, e = connection_state s -> st_state (getStatus v) = s) /\
  (forall env h,
     state w = connecting -> eventSource w = Some h ->
     exists v,
       step_views env w TransportOpen = [v] /\
       st_state (getStatus v) = connected /\
       st_reconnectAttempts (getStatus v) = reconnectAttempts w /\
       st_error (getStatus v) = lastError w /\
       st_connectedAt (getStatus v) = connectedAt w).
Proof.
  intros w Hr. split; [exact (status_between_turns cfg JSON_parse w Hr)|].
  split.
  - intros env i v Hv.
    destruct (mid_step env w v i Hv) as (Ha & Hc & l & e & He & Hs & _).
    split; [exact Ha|]. split; [exact Hc|]. exists l, e. auto.
  - intros env h Hs He. simpl. rewrite He. unfold onopen_views. rewrite Hs.
    unfold setState_views.
    assert (Es : state_eqb (state (clearConnectionTimeout w)) connected
                 = false)
      by (rewrite clearConnectionTimeout_nf; simpl; rewrite Hs; reflexivity).
    rewrite Es. eexists. split; [reflexivity|].
    unfold setState. rewrite Es. rewrite clearConnectionTimeout_nf.
    simpl. auto.
Qed.

(** X10. The error of the status snapshot is what the events said last.
    Along any run, the events emitted extend the log, and the last error
    afterwards is obtained from the one before by replaying them: a
    [connection:error] event sets it to its message, the announcement
    of [connected] clears it, every other event leaves it. For a client
    followed from its construction, [getStatus().error] between turns
    is the replay of everything emitted so far. Inside a subscriber it
    is that replay too, the event being delivered included, except in
    the one told of [connected]: there the error is still the one from
    before the announcement, since it is cleared after the emit. *)
Theorem status_error_follows_events :
  forall (tr : list (Env * Input)) (w w' : World),
  run cfg JSON_parse tr w = Some w' ->
  (exists l,
     emitted w' = emitted w ++ l /\
     lastError w' = replay_errors l (lastError w)) /\
  (forall loaded t0,
     w = new_client loaded t0 ->
     st_error (getStatus w') = replay_errors (emitted w') None /\
     forall env i v,
       In v (step_views env w' i) ->
       exists l e,
         emitted v = l ++ [e] /\
         st_error (getStatus v) = replay_errors (heard l e) None).
Proof.
  intros tr w w' Hr.
  pose proof (run_error_tracks cfg JSON_parse tr w w' Hr) as Ht.
  split; [exact Ht|].
  intros loaded t0 Hw. subst w. destruct Ht as (l0 & He0 & Hl0).
  simpl in He0, Hl0.
  assert (Hw' : lastError w' = replay_errors (emitted w') None)
    by (rewrite He0; exact Hl0).
  split; [exact Hw'|].
  intros env i v Hv.
  destruct (mid_step env w' v i Hv) as (_ & _ & l & e & He & _ & Hl).
  exists (emitted w' ++ l), e. split.
  - rewrite He, app_assoc. reflexivity.
  - simpl. rewrite Hl, Hw', heard_app. unfold replay_errors.
    rewrite fold_left_app. reflexivity.
Qed.

End Views.

(** ** The credential store of the mobile app

    The second unit of the source file: [storage], a thin layer over
    [expo-secure-store].  The secure store is modelled as a finite map
    from keys to strings whose operations succeed: [getItemAsync] gives
    the value last set and [null] for a key never set or deleted.  The
    operations gathered by one [Promise.all] touch pairwise distinct
    keys, so the order in which they settle does not matter
    ([setItem_comm]); they are written in the order of the source. *)

Module Storage.

Definition SecureStore : Type := string -> option string.

Definition getItem (key : string) (s : SecureStore) : option string := s key.

Definition setItem (key value : string) (s : SecureStore) : SecureStore :=
  fun k => if String.eqb k key then Some value else s k.

Definition deleteItem (key : string) (s : SecureStore) : SecureStore :=
  fun k => if String.eqb k key then None else s k.

(** [KEYS]. *)
Definition SERVER_URL : string := "tracearr_server_url".
Definition ACCESS_TOKEN : string := "tracearr_access_token".
Definition REFRESH_TOKEN : string := "tracearr_refresh_token".
Definition SERVER_NAME : string := "tracearr_server_name".

Definition KEYS : list string :=
  [SERVER_URL; ACCESS_TOKEN; REFRESH_TOKEN; SERVER_NAME].

Record StoredCredentials : Type := {
  serverUrl : string;
  accessToken : string;
  refreshToken : string;
  serverName : string
}.

(** [!v] for a [string | null]: [null] and the empty string are falsy. *)
Definition falsy (v : option string) : bool :=
  match v with
  | None => true
  | Some EmptyString => true
  | Some _ => false
  end.

(** [v || d] for a [string | null]. *)
Definition or_default (v : option string) (d : string) : string :=
  match v with
  | Some (String c r) => String c r
  | _ => d
  end.

Definition storeCredentials (credentials : StoredCredentials)
    (s : SecureStore) : SecureStore :=
  setItem SERVER_NAME (serverName credentials)
    (setItem REFRESH_TOKEN (refreshToken credentials)
       (setItem ACCESS_TOKEN (accessToken credentials)
          (setItem SERVER_URL (serverUrl credentials) s))).

Definition getCredentials (s : SecureStore) : option StoredCredentials :=
  match getItem SERVER_URL s, getItem ACCESS_TOKEN s,
        getItem REFRESH_TOKEN s with
  | Some u, Some a, Some r =>
      if falsy (Some u) || falsy (Some a) || falsy (Some r) then None
      else Some {| serverUrl := u; accessToken := a; refreshToken := r;
                   serverName :=
                     or_default (getItem SERVER_NAME s) "Tracearr" |}
  | _, _, _ => None
  end.

Definition updateTokens (access refresh : string) (s : SecureStore)
    : SecureStore :=
  setItem REFRESH_TOKEN refresh (setItem ACCESS_TOKEN access s).

Definition getAccessToken (s : SecureStore) : option string :=
  getItem ACCESS_TOKEN s.

Definition getRefreshToken (s : SecureStore) : option string :=
  getItem REFRESH_TOKEN s.

Definition getServerUrl (s : SecureStore) : option string :=
  getItem SERVER_URL s.

Definition clearCredentials (s : SecureStore) : SecureStore :=
  deleteItem SERVER_NAME
    (deleteItem REFRESH_TOKEN
       (deleteItem ACCESS_TOKEN (deleteItem SERVER_URL s))).

(** [token !== null]. *)
Definition isAuthenticated (s : SecureStore) : bool :=
  match getItem ACCESS_TOKEN s with
  | Some _ => true
  | None => false
  end.

(** What [getCredentials] makes of credentials that were stored. *)
Definition as_read (c : StoredCredentials) : StoredCredentials :=
  {| serverUrl := serverUrl c;
     accessToken := accessToken c;
     refreshToken := refreshToken c;
     serverName := or_default (Some (serverName c)) "Tracearr" |}.

Definition is_empty (v : string) : bool :=
  match v with
  | EmptyString => true
  | _ => false
  end.

Lemma setItem_comm (k1 k2 v1 v2 : string) (s : SecureStore) (k : string) :
  k1 <> k2 ->
  setItem k1 v1 (setItem k2 v2 s) k = setItem k2 v2 (setItem k1 v1 s) k.
Proof.
  intros Hne. unfold setItem.
  destruct (String.eqb_spec k k1), (String.eqb_spec k k2);
    try reflexivity. subst. contradiction.
Qed.

Lemma getCredentials_some (s : SecureStore) (c : StoredCredentials) :
  getCredentials s = Some c ->
  s SERVER_URL = Some (serverUrl c) /\
  s ACCESS_TOKEN = Some (accessToken c) /\
  s REFRESH_TOKEN = Some (refreshToken c) /\
  is_empty (serverUrl c) = false /\
  is_empty (accessToken c) = false /\
  is_empty (refreshToken c) = false /\
  serverName c = or_default (s SERVER_NAME) "Tracearr".
Proof.
  unfold getCredentials, getItem.
  destruct (s SERVER_URL) as [u|]; [|discriminate].
  destruct (s ACCESS_TOKEN) as [a|]; [|discriminate].
  destruct (s REFRESH_TOKEN) as [r|]; [|discriminate].
  destruct u, a, r; simpl; try discriminate.
  intros H. inversion H. simpl. repeat split; reflexivity.
Qed.

(** X12. Storing credentials and reading them back. Whatever the store
    held before, [getCredentials] after [storeCredentials] gives [null]
    if the server URL, the access token or the refresh token stored is
    the empty string, and otherwise the credentials stored, with an empty
    server name read back as ['Tracearr']. *)
Theorem stored_credentials_read_back :
  forall (c : StoredCredentials) (s : SecureStore),
  getCredentials (storeCredentials c s) =
    if is_empty (serverUrl c) || is_empty (accessToken c)
       || is_empty (refreshToken c)
    then None
    else Some (as_read c).
Proof.
  intros [u a r n] s. unfold getCredentials, storeCredentials, getItem,
    setItem, as_read. simpl.
  destruct u, a, r; reflexivity.
Qed.

(** X13. Logging out empties the four keys and nothing else. After
    [clearCredentials] every getter gives [null], [getCredentials] gives
    [null] and [isAuthenticated] is false; a key that is not one of
    [KEYS] keeps its value. *)
Theorem clearCredentials_forgets_everything :
  forall s : SecureStore,
  getServerUrl (clearCredentials s) = None /\
  getAccessToken (clearCredentials s) = None /\
  getRefreshToken (clearCredentials s) = None /\
  getItem SERVER_NAME (clearCredentials s) = None /\
  getCredentials (clearCredentials s) = None /\
  isAuthenticated (clearCredentials s) = false /\
  (forall k, ~ In k KEYS -> getItem k (clearCredentials s) = getItem k s).
Proof.
  intros s. repeat (split; [reflexivity|]).
  intros k Hk. unfold clearCredentials, deleteItem, getItem.
  destruct (String.eqb_spec k SERVER_NAME) as [->|_];
    [exfalso; apply Hk; simpl; auto|].
  destruct (String.eqb_spec k REFRESH_TOKEN) as [->|_];
    [exfalso; apply Hk; simpl; auto|].
  destruct (String.eqb_spec k ACCESS_TOKEN) as [->|_];
    [exfalso; apply Hk; simpl; auto|].
  destruct (String.eqb_spec k SERVER_URL) as [->|_];
    [exfalso; apply Hk; simpl; auto|].
  reflexivity.
Qed.

(** X14. Refreshing the tokens of readable credentials. If
    [getCredentials] gives credentials [c] and both new tokens are
    non-empty, then after [updateTokens] it gives [c] with the two
    tokens replaced: server URL and server name are untouched. *)
Theorem updateTokens_replaces_only_tokens :
  forall (s : SecureStore) (c : StoredCredentials) (access refresh : string),
  getCredentials s = Some c ->
  access <> EmptyString ->
  refresh <> EmptyString ->
  getCredentials (updateTokens access refresh s) =
    Some {| serverUrl := serverUrl c;
            accessToken := access;
            refreshToken := refresh;
            serverName := serverName c |}.
Proof.
  intros s c access refresh Hc Ha Hr.
  apply getCredentials_some in Hc.
  destruct Hc as (Hu & _ & _ & Eu & _ & _ & Hn).
  unfold getCredentials, updateTokens, getItem, setItem. simpl.
  rewrite Hu. destruct (serverUrl c) eqn:Eurl; [discriminate|].
  destruct access; [contradiction|]. destruct refresh; [contradiction|].
  simpl. rewrite Hn. reflexivity.
Qed.

(** X15. [isAuthenticated] is weaker than [getCredentials]. Readable
    credentials imply [isAuthenticated]; the converse fails in both ways
    the code allows: after storing credentials whose access token is the
    empty string, and after [updateTokens] on a cleared store,
    [isAuthenticated] is true while [getCredentials] gives [null]. *)
Theorem isAuthenticated_weaker_than_getCredentials :
  forall s : SecureStore,
  (getCredentials s <> None -> isAuthenticated s = true) /\
  (forall c,
     accessToken c = EmptyString ->
     isAuthenticated (storeCredentials c s) = true /\
     getCredentials (storeCredentials c s) = None) /\
  (forall access refresh,
     isAuthenticated (updateTokens access refresh (clearCredentials s))
       = true /\
     getCredentials (updateTokens access refresh (clearCredentials s))
       = None).
Proof.
  intros s. split; [|split].
  - unfold getCredentials, isAuthenticated, getItem.
    destruct (s SERVER_URL); [|congruence].
    destruct (s ACCESS_TOKEN); [reflexivity|congruence].
  - intros [u a r n] Ha. simpl in Ha. subst a. split; [reflexivity|].
    unfold getCredentials, storeCredentials, getItem, setItem. simpl.
    destruct u; reflexivity.
  - intros access refresh. split; reflexivity.
Qed.

End Storage.

(** ** Further worked runs *)

(** A connection that was established once, broke, and is being
    re-established: the first transport is closed, the second is held. *)
Definition reopen : list (Env * Input) :=
  [ (env_ok, CallConnect);
    (env_ok, TransportOpen);
    (env_ok, TransportError (ErrorInstance "socket hang up"));
    (env_ok, TimePasses 2000);
    (env_ok, TimerFires 2) ].

Definition w_reopened : World :=
  Eval vm_compute in
    or_else (run sample_cfg sample_parse reopen (new_client false 0))
            (new_client false 0).

(** Four failed attempts in a row: the client has given up. *)
Definition four_failures : list (Env * Input) :=
  three_failures ++
  [ (env_refused, TimePasses 20000);
    (env_refused, TimerFires 2) ].

Definition w_fallback : World :=
  Eval vm_compute in
    or_else (run sample_cfg sample_parse four_failures (new_client false 0))
            (new_client false 0).

(** A [playing] event in the direct format, reporting buffering. *)
Definition direct_text : string :=
  ("{" ++ quoted "PlaySessionStateNotification" ++ ":" ++
   notification_text "7" "buffering" ++ "}")%string.

Definition direct_props : list (string * json) :=
  [("PlaySessionStateNotification", notification_value "7" "buffering")].

(** A wrapped message whose array has a [null] in second place. *)
Definition holed_text : string :=
  ("{" ++ quoted "NotificationContainer" ++ ":{" ++
   quoted "PlaySessionStateNotification" ++ ":[" ++
   notification_text "1" "playing" ++ ",null," ++
   notification_text "2" "paused" ++ "]}}")%string.

Definition holed_items : list json :=
  [notification_value "1" "playing"; JNull; notification_value "2" "paused"].

Definition holed_container : list (string * json) :=
  [("PlaySessionStateNotification", JArray holed_items)].

Definition holed_props : list (string * json) :=
  [("NotificationContainer", JObject holed_container)].

Definition parse_more (s : string) : option json :=
  if String.eqb s direct_text then Some (JObject direct_props)
  else if String.eqb s holed_text then Some (JObject holed_props)
  else sample_parse s.

Lemma w_reopened_reachable : reachable sample_cfg sample_parse w_reopened.
Proof. exists false, 0, reopen. vm_compute. reflexivity. Defined.

Lemma w_three_failures_reachable :
  reachable sample_cfg sample_parse w_three_failures.
Proof. exists false, 0, three_failures. vm_compute. reflexivity. Defined.

Lemma w_fallback_reachable : reachable sample_cfg sample_parse w_fallback.
Proof. exists false, 0, four_failures. vm_compute. reflexivity. Defined.

Lemma w_connecting_reachable : reachable sample_cfg sample_parse w_connecting.
Proof. exists false, 0, [(env_ok, CallConnect)]. vm_compute. reflexivity. Defined.

Lemma pending_timers_by_state_witness :
  reachable sample_cfg sample_parse w_connected /\
  exists h, pending w_connected = [h] /\ kind h = HeartbeatTimer /\
            delay h = HEARTBEAT_TIMEOUT_MS sample_cfg /\
            heartbeatTimer w_connected = Some (tid h).
Proof.
  split; [exact w_connected_reachable|].
  exact (pending_timers_by_state sample_cfg sample_parse w_connected
           w_connected_reachable).
Defined.

Lemma every_transport_closed_exactly_once_witness :
  reachable sample_cfg sample_parse w_reopened /\
  closed w_reopened = [0%nat] /\
  eventSource w_reopened = Some 1%nat /\
  NoDup (closed w_reopened) /\
  (forall h, (h < constructed w_reopened)%nat <->
             In h (closed w_reopened) \/ eventSource w_reopened = Some h).
Proof.
  pose proof w_reopened_reachable as R.
  destruct (every_transport_closed_exactly_once
              sample_cfg sample_parse w_reopened R)
    as (Hn & _ & Hall & _).
  split; [exact R|]. split; [vm_compute; reflexivity|].
  split; [vm_compute; reflexivity|]. split; [exact Hn|exact Hall].
Defined.

Lemma w_retrying_reachable : reachable sample_cfg sample_parse w_retrying.
Proof. exists false, 0, retry_once. vm_compute. reflexivity. Defined.

(** Between turns the retrying client is coherent; the subscriber told
    of [connected] when its transport opens still reads one attempt,
    the error of the failed attempt and no connect time. *)
Lemma status_coherent_between_turns_witness :
  reachable sample_cfg sample_parse w_retrying /\
  st_state (getStatus w_retrying) = connecting /\
  (st_reconnectAttempts (getStatus w_retrying) <= MAX_RETRIES sample_cfg)%nat /\
  exists v,
    step_views sample_cfg sample_parse env_ok w_retrying TransportOpen = [v] /\
    st_state (getStatus v) = connected /\
    st_reconnectAttempts (getStatus v) = 1%nat /\
    st_error (getStatus v) = Some "connect ECONNREFUSED" /\
    st_connectedAt (getStatus v) = None.
Proof.
  pose proof w_retrying_reachable as R.
  destruct (status_coherent_between_turns
              sample_cfg sample_parse w_retrying R)
    as ((Hle & _) & _ & Ho).
  assert (Hs : state w_retrying = connecting) by (vm_compute; reflexivity).
  assert (He : eventSource w_retrying = Some 0%nat)
    by (vm_compute; reflexivity).
  destruct (Ho env_ok 0%nat Hs He) as (v & Ev & Hv & Ha & Her & Hc).
  split; [exact R|]. split; [exact Hs|]. split; [exact Hle|].
  exists v. split; [exact Ev|]. split; [exact Hv|].
  split; [exact (eq_trans Ha eq_refl)|].
  split; [exact (eq_trans Her eq_refl)|exact (eq_trans Hc eq_refl)].
Defined.

Lemma fallback_is_terminal_witness :
  reachable sample_cfg sample_parse w_fallback /\
  state w_fallback = fallback /\
  step sample_cfg sample_parse env_ok w_fallback (TimerFires 2) = None /\
  state (world_of (connect sample_cfg env_refused w_fallback)) = fallback /\
  state (world_of (connect sample_cfg env_refused (disconnect w_fallback)))
    = fallback.
Proof.
  pose proof w_fallback_reachable as R.
  assert (Hs : state w_fallback = fallback) by (vm_compute; reflexivity).
  destruct (fallback_is_terminal sample_cfg sample_parse w_fallback R Hs)
    as (_ & Hc & Hd).
  destruct (Hc env_refused _ eq_refl) as (Hc1 & _).
  destruct (Hd env_refused _ eq_refl) as (Hd1 & _).
  split; [exact R|]. split; [exact Hs|].
  split; [vm_compute; reflexivity|]. split; [exact Hc1|exact Hd1].
Defined.

Lemma connection_timeout_runs_error_path_witness :
  reachable sample_cfg sample_parse w_connecting /\
  exists t,
    find_timer 0 w_connecting = Some t /\
    kind t = ConnectionTimer /\
    state w_connecting = connecting /\
    find_timer 0 (onopen sample_cfg w_connecting) = None /\
    find_timer 0 (disconnect w_connecting) = None.
Proof.
  pose proof w_connecting_reachable as R.
  split; [exact R|].
  exists {| tid := 0; kind := ConnectionTimer; armedAt := 0;
            delay := 30000 |}.
  assert (Hf : find_timer 0 w_connecting =
               Some {| tid := 0; kind := ConnectionTimer; armedAt := 0;
                       delay := 30000 |})
    by (vm_compute; reflexivity).
  destruct (connection_timeout_runs_error_path
              sample_cfg sample_parse w_connecting 0 _ R Hf eq_refl)
    as (Hs & _ & Ho & Hd).
  split; [exact Hf|]. split; [reflexivity|]. split; [exact Hs|].
  split; [exact Ho|exact Hd].
Defined.

Lemma state_events_mirror_state_witness :
  run sample_cfg sample_parse three_failures (new_client false 0)
    = Some w_three_failures /\
  no_stutter disconnected (stateEvents (emitted w_three_failures)) /\
  last (stateEvents (emitted w_three_failures)) disconnected
    = getState w_three_failures.
Proof.
  assert (Hr : run sample_cfg sample_parse three_failures
                 (new_client false 0) = Some w_three_failures)
    by (vm_compute; reflexivity).
  destruct (state_events_mirror_state sample_cfg sample_parse
              three_failures (new_client false 0) w_three_failures Hr)
    as [_ H].
  split; [exact Hr|]. exact (H false 0 eq_refl).
Defined.

Lemma direct_and_single_notifications_witness :
  direct_text <> "" /\
  parse_more direct_text = Some (JObject direct_props) /\
  emitted (handleMessage sample_cfg parse_more direct_text w_connected) =
  emitted w_connected ++ [session_playing (notification_value "7" "buffering")].
Proof.
  assert (Hne : direct_text <> "") by (vm_compute; discriminate).
  assert (Hp : parse_more direct_text = Some (JObject direct_props))
    by (vm_compute; reflexivity).
  destruct (direct_and_single_notifications sample_cfg parse_more
              direct_text direct_props w_connected Hne Hp)
    as (_ & Hb & _).
  split; [exact Hne|]. split; [exact Hp|].
  apply (Hb [("sessionKey", JString "7"); ("state", JString "buffering")]);
    vm_compute; reflexivity.
Defined.

Lemma null_entry_drops_rest_of_array_witness :
  holed_text <> "" /\
  parse_more holed_text = Some (JObject holed_props) /\
  emitted (handleMessage sample_cfg parse_more holed_text w_connected) =
  emitted w_connected ++ [session_playing (notification_value "1" "playing")].
Proof.
  assert (Hne : holed_text <> "") by (vm_compute; discriminate).
  assert (Hp : parse_more holed_text = Some (JObject holed_props))
    by (vm_compute; reflexivity).
  destruct (null_entry_drops_rest_of_array sample_cfg parse_more
              holed_text holed_props holed_container holed_items
              w_connected Hne Hp eq_refl eq_refl)
    as (He & _).
  split; [exact Hne|]. split; [exact Hp|]. exact He.
Defined.

Lemma status_error_follows_events_witness :
  run sample_cfg sample_parse reopen (new_client false 0)
    = Some w_reopened /\
  st_error (getStatus w_reopened)
    = replay_errors (emitted w_reopened) None /\
  st_error (getStatus w_reopened) = Some "socket hang up" /\
  forall v,
    In v (step_views sample_cfg sample_parse env_ok w_reopened TransportOpen) ->
    exists l e,
      emitted v = l ++ [e] /\
      st_error (getStatus v) = replay_errors (heard l e) None.
Proof.
  assert (Hr : run sample_cfg sample_parse reopen (new_client false 0)
               = Some w_reopened)
    by (vm_compute; reflexivity).
  destruct (status_error_follows_events sample_cfg sample_parse
              reopen (new_client false 0) w_reopened Hr)
    as [_ H].
  destruct (H false 0 eq_refl) as [H1 H2].
  split; [exact Hr|]. split; [exact H1|].
  split; [vm_compute; reflexivity|].
  intros v Hv. exact (H2 env_ok TransportOpen v Hv).
Defined.

Definition paired : Storage.StoredCredentials :=
  {| Storage.serverUrl := "https://tracearr.example";
     Storage.accessToken := "access-1";
     Storage.refreshToken := "refresh-1";
     Storage.serverName := "" |}.

Definition empty_store : Storage.SecureStore := fun _ => None.

Lemma updateTokens_replaces_only_tokens_witness :
  Storage.getCredentials (Storage.storeCredentials paired empty_store)
    = Some (Storage.as_read paired) /\
  Storage.getCredentials
    (Storage.updateTokens "access-2" "refresh-2"
       (Storage.storeCredentials paired empty_store)) =
  Some {| Storage.serverUrl := "https://tracearr.example";
          Storage.accessToken := "access-2";
          Storage.refreshToken := "refresh-2";
          Storage.serverName := "Tracearr" |}.
Proof.
  assert (Hc : Storage.getCredentials
                 (Storage.storeCredentials paired empty_store)
               = Some (Storage.as_read paired))
    by (vm_compute; reflexivity).
  split; [exact Hc|].
  apply (Storage.updateTokens_replaces_only_tokens
           (Storage.storeCredentials paired empty_store)
           (Storage.as_read paired) "access-2" "refresh-2" Hc);
    discriminate.
Defined.
